(** * Whack-a-Zombie: the entity life cycle, the spawn scheduler and the scoring
    of [whack_a_zombie.py], embedded in Rocq.

    The embedding follows the Python source function by function:
    - Python integers are [Z]; pixel positions are pairs of [Z];
    - the entity state strings "spawning", "alive", "despawning", "dead" are the
      constructors of [State];
    - Python floats are binary64 numbers: the kernel's primitive floats;
    - the two sources of effects, [pygame.time.get_ticks()] and the [random]
      module, are read from a [World] threaded through a small state monad;
    - the event queue drained by [pygame.event.get()] is an argument of a frame. *)

From Stdlib Require Import ZArith List Bool Lia Floats QArith Qabs Qround Qpower.
From Stdlib Require Import Reals Lra.
From Stdlib Require Lqa.
Import ListNotations.

Set Warnings "-inexact-float".

Local Open Scope Z_scope.

(** ** Configuration (lines 27-56 of the source) *)

Definition SPAWN_MIN_MS : Z := 800.
Definition SPAWN_MAX_MS : Z := 1500.

Definition SPAWN_POINTS : list (Z * Z) :=
  [ (150, 160); (300, 140); (450, 170); (600, 150);
    (750, 170); (220, 320); (420, 300); (620, 330);
    (780, 310); (320, 480); (500, 470); (700, 500) ].

Definition ZOMBIE_BASE_RADIUS : Z := 48.

Definition SPAWN_ANIM_MS : Z := 180.
Definition DESPAWN_ANIM_MS : Z := 220.

(** ** The outside world: clock and random generator *)

(** [ticks w k] is what the [k]-th call of [pygame.time.get_ticks()] returns and
    [draws w k] is the [k]-th raw output of the random generator; [tick_ix] and
    [draw_ix] count the calls made so far. *)
Record World : Type := mkWorld {
  ticks : nat -> Z;
  tick_ix : nat;
  draws : nat -> nat;
  draw_ix : nat
}.

Definition M (A : Type) : Type := World -> A * World.

Definition ret {A : Type} (a : A) : M A := fun w => (a, w).

Definition bind {A B : Type} (m : M A) (k : A -> M B) : M B :=
  fun w => let (a, w') := m w in k a w'.

Notation "x <- m ;; k" := (bind m (fun x => k))
  (at level 61, m at next level, right associativity).

(** [pygame.time.get_ticks()] *)
Definition get_ticks : M Z :=
  fun w => (ticks w (tick_ix w),
            mkWorld (ticks w) (S (tick_ix w)) (draws w) (draw_ix w)).

Definition next_draw : M nat :=
  fun w => (draws w (draw_ix w),
            mkWorld (ticks w) (tick_ix w) (draws w) (S (draw_ix w))).

(** [random.randint(a, b)] for [a <= b]: an integer [N] with [a <= N <= b],
    taken from the next raw draw. *)
Definition randint (a b : Z) : M Z :=
  r <- next_draw ;; ret (a + Z.of_nat r mod (b - a + 1)).

(** [random.choice(seq)] on a non-empty sequence; [d] stands for the
    [IndexError] of an empty one, which [SPAWN_POINTS] is not. *)
Definition choice {A : Type} (d : A) (seq : list A) : M A :=
  r <- next_draw ;; ret (nth (r mod length seq)%nat seq d).

(** ** class Zombie (lines 83-117) *)

Inductive State : Type := Spawning | Alive | Despawning | Dead.

Definition State_eqb (a b : State) : bool :=
  match a, b with
  | Spawning, Spawning | Alive, Alive | Despawning, Despawning | Dead, Dead => true
  | _, _ => false
  end.

(** Position in the sequence spawning -> alive -> despawning -> dead. *)
Definition rank (s : State) : nat :=
  match s with Spawning => 0 | Alive => 1 | Despawning => 2 | Dead => 3 end.

(** Python compares an [int] with a [float] exactly, without rounding the
    integer: [int_le_float n f] is [n <= f]. *)
Definition int_le_float (n : Z) (f : float) : bool :=
  match Prim2SF f with
  | S754_zero _ => n <=? 0
  | S754_infinity s => negb s
  | S754_nan => false
  | S754_finite s m e =>
      let v := if s then Z.neg m else Z.pos m in
      if 0 <=? e then n <=? v * 2 ^ e else n * 2 ^ (- e) <=? v
  end.

(** [float(n)] for a Python integer, rounded to nearest even. *)
Definition float_of_int (n : Z) : float :=
  SF2Prim (binary_normalize 53 1024 n 0 false).

Module Zombie.

Record t : Type := mk {
  x : Z;
  y : Z;
  radius : Z;
  spawn_time : Z;
  lifetime_ms : Z;
  state : State;
  hit_registered : bool;
  state_time : Z
}.

Definition set_state (s : State) (st : Z) (z : t) : t :=
  mk (x z) (y z) (radius z) (spawn_time z) (lifetime_ms z) s
     (hit_registered z) st.

(** [Zombie.__init__(self, pos)]: the clock is read first, then the lifetime
    is drawn. *)
Definition init (pos : Z * Z) : M t :=
  now <- get_ticks ;;
  life <- randint SPAWN_MIN_MS SPAWN_MAX_MS ;;
  ret (mk (fst pos) (snd pos) ZOMBIE_BASE_RADIUS now life Spawning false now).

(** [Zombie.update(self, now)] *)
Definition update (now : Z) (z : t) : t :=
  match state z with
  | Spawning =>
      if SPAWN_ANIM_MS <=? now - state_time z then set_state Alive now z else z
  | Alive =>
      if lifetime_ms z <=? now - spawn_time z
      then set_state Despawning now z else z
  | Despawning =>
      if DESPAWN_ANIM_MS <=? now - state_time z
      then set_state Dead (state_time z) z else z
  | Dead => z
  end.

(** [Zombie.is_clickable(self)] *)
Definition is_clickable (z : t) : bool :=
  match state z with
  | Spawning | Alive => negb (hit_registered z)
  | _ => false
  end.

(** [(self.radius * 0.95) ** 2], a float: the integer radius is converted,
    the product is rounded, and the square is the rounded product of the
    result with itself. *)
Definition hit_radius_sq (r : Z) : float :=
  let s := (float_of_int r * 0.95)%float in (s * s)%float.

(** [Zombie.hit_test(self, pos)]: an exact integer on the left, a float on
    the right. *)
Definition hit_test (z : t) (pos : Z * Z) : bool :=
  let (mx, my) := pos in
  int_le_float ((mx - x z) ^ 2 + (my - y z) ^ 2) (hit_radius_sq (radius z)).

(** [Zombie.register_hit(self)]: reads the clock itself. *)
Definition register_hit (z : t) : M t :=
  now <- get_ticks ;;
  ret (mk (x z) (y z) (radius z) (spawn_time z) (lifetime_ms z)
          Despawning true now).

End Zombie.

(** ** main (lines 172-264) *)

Inductive Event : Type :=
| QUIT
| KEYDOWN (key : Z)
| MOUSEBUTTONDOWN (button : Z) (pos : Z * Z)
| OTHER.

Definition K_ESCAPE : Z := 27.
Definition K_m : Z := 109.

(** The local variables of [main] that survive a frame.  [sound_supported] is
    fixed by [try_make_sound] before the loop; [hit_sound] is a sound exactly
    when it is true.  Playing the sound changes none of these variables and
    its failures are swallowed, so it leaves no trace here. *)
Record Game : Type := mkGame {
  hits : Z;
  misses : Z;
  zombie : option Zombie.t;
  next_spawn_time : Z;
  running : bool;
  is_muted : bool;
  sound_supported : bool
}.

Definition init_game (sound : bool) : Game :=
  mkGame 0 0 None 0 true false sound.

Definition set_running (b : bool) (g : Game) : Game :=
  mkGame (hits g) (misses g) (zombie g) (next_spawn_time g) b (is_muted g)
         (sound_supported g).

Definition set_muted (b : bool) (g : Game) : Game :=
  mkGame (hits g) (misses g) (zombie g) (next_spawn_time g) (running g) b
         (sound_supported g).

Definition score_hit (z : Zombie.t) (g : Game) : Game :=
  mkGame (hits g + 1) (misses g) (Some z) (next_spawn_time g) (running g)
         (is_muted g) (sound_supported g).

Definition score_miss (g : Game) : Game :=
  mkGame (hits g) (misses g + 1) (zombie g) (next_spawn_time g) (running g)
         (is_muted g) (sound_supported g).

Definition set_zombie (oz : option Zombie.t) (g : Game) : Game :=
  mkGame (hits g) (misses g) oz (next_spawn_time g) (running g) (is_muted g)
         (sound_supported g).

Definition release (next : Z) (g : Game) : Game :=
  mkGame (hits g) (misses g) None next (running g) (is_muted g)
         (sound_supported g).

(** The body of [for event in pygame.event.get()] (lines 201-222). *)
Definition handle_event (ev : Event) (g : Game) : M Game :=
  match ev with
  | QUIT => ret (set_running false g)
  | KEYDOWN key =>
      if key =? K_ESCAPE then ret (set_running false g)
      else if (key =? K_m) && sound_supported g
           then ret (set_muted (negb (is_muted g)) g)
           else ret g
  | MOUSEBUTTONDOWN button pos =>
      if button =? 1 then
        match zombie g with
        | Some z =>
            if Zombie.is_clickable z && Zombie.hit_test z pos then
              z' <- Zombie.register_hit z ;;
              ret (score_hit z' g)
            else
              match Zombie.state z with
              | Spawning | Alive => ret (score_miss g)
              | _ => ret g
              end
        | None => ret g
        end
      else ret g
  | OTHER => ret g
  end.

Fixpoint handle_events (evs : list Event) (g : Game) : M Game :=
  match evs with
  | [] => ret g
  | ev :: rest => g' <- handle_event ev g ;; handle_events rest g'
  end.

(** Spawn logic (lines 224-227). *)
Definition spawn_logic (now : Z) (g : Game) : M Game :=
  match zombie g with
  | None =>
      if next_spawn_time g <=? now then
        pos <- choice (0, 0) SPAWN_POINTS ;;
        z <- Zombie.init pos ;;
        ret (set_zombie (Some z) g)
      else ret g
  | Some _ => ret g
  end.

(** Update and release (lines 229-235). *)
Definition update_logic (now : Z) (g : Game) : M Game :=
  match zombie g with
  | Some z =>
      let z' := Zombie.update now z in
      match Zombie.state z' with
      | Dead => gap <- randint 220 520 ;; ret (release (now + gap) g)
      | _ => ret (set_zombie (Some z') g)
      end
  | None => ret g
  end.

(** One iteration of [while running] on the drained event queue [evs]. *)
Definition frame (evs : list Event) (g : Game) : M Game :=
  now <- get_ticks ;;
  g1 <- handle_events evs g ;;
  g2 <- spawn_logic now g1 ;;
  update_logic now g2.

(** The loop, on the event queues of its successive iterations. *)
Fixpoint main_loop (queues : list (list Event)) (g : Game) : M Game :=
  match queues with
  | [] => ret g
  | evs :: rest =>
      if running g then g' <- frame evs g ;; main_loop rest g' else ret g
  end.

(** ** The HUD's accuracy line (lines 244-250) *)

(** Python floats are binary64 numbers: an operation returns its exact result
    rounded to nearest, ties to even.  The rounding is written out below on
    the rationals, and computed by the kernel's floats; the two give the same
    numbers ([truediv_rounded], [accuracy_binary64_rounded]). *)

(** Rounding to the nearest integer, ties to even. *)
Definition round_half_even (q : Q) : Z :=
  let f := Qfloor q in
  match (q - inject_Z f ?= 1 # 2)%Q with
  | Lt => f
  | Gt => f + 1
  | Eq => if Z.even f then f else f + 1
  end.

(** The binade of a non-zero rational: the [k] with [2^k <= |q| < 2^(k+1)]. *)
Definition binade (q : Q) : Z :=
  let k := Z.log2 (Z.abs (Qnum q)) - Z.log2 (Z.pos (Qden q)) in
  if Qle_bool (2 ^ k) (Qabs q) then k else k - 1.

(** Rounding to binary64: 53 significant bits, exponents from -1074 up
    (subnormal numbers included).  Results of magnitude [2^1024] or more,
    where Python gives an infinity or raises [OverflowError], are out of its
    range. *)
Definition round64 (q : Q) : Q :=
  if Qeq_bool q 0 then 0%Q
  else let e := Z.max (binade q - 52) (-1074) in
       (inject_Z (round_half_even (q / 2 ^ e)) * 2 ^ e)%Q.

(** A Python integer as an exact operand of a float division. *)
Definition int_spec (n : Z) : spec_float :=
  match n with
  | Z0 => S754_zero false
  | Z.pos p => S754_finite false p 0
  | Z.neg p => S754_finite true p 0
  end.

(** The float operations [acc] and the scale of [draw] are computed with: the
    quotient of two integers ([hits / total]: the exact quotient rounded once,
    as CPython does for integers of any size), a product, and the float of an
    integer literal.  Python raises [ZeroDivisionError] on a zero divisor and
    [OverflowError] on a quotient of magnitude [2^1024] or more, where these
    operations give a NaN or an infinity; neither happens in the program,
    which divides a counter by a positive total at least as large, and a
    difference of clock readings by 180 or 220.
    [binary64] computes with the kernel's floats; [rounded] is the same
    arithmetic with the rounding written out on the rationals. *)
Class PyFloat (F : Type) : Type := {
  literal : Z -> F;
  truediv : Z -> Z -> F;
  fmul : F -> F -> F
}.

#[export] Instance binary64 : PyFloat float := {
  literal := float_of_int;
  truediv := fun a b => SF2Prim (SFdiv 53 1024 (int_spec a) (int_spec b));
  fmul := PrimFloat.mul
}.

#[export] Instance rounded : PyFloat Q := {
  literal := fun z => round64 (inject_Z z);
  truediv := fun a b => round64 (inject_Z a / inject_Z b);
  fmul := fun x y => round64 (x * y)
}.

(** [acc = (hits / total * 100.0) if total > 0 else 0.0] *)
Definition accuracy {F : Type} `{PyFloat F} (h m : Z) : F :=
  let total := h + m in
  if 0 <? total then fmul (truediv h total) (literal 100) else literal 0.

(** The digits of [f"{acc:.1f}"]: the accuracy in tenths of a percent, the
    exact value of the float rounded to one decimal, ties to even. *)
Definition hud_tenths (acc : Q) : Z := round_half_even (10 * acc).

(** ** Observing runs *)

Definition eval {A : Type} (m : M A) (w : World) : A := fst (m w).
Definition exec {A : Type} (m : M A) (w : World) : World := snd (m w).

(** The two mutators of an entity, called in any order by a client. *)
Inductive Call : Type :=
| CallUpdate (now : Z)
| CallRegisterHit.

Definition call (c : Call) (z : Zombie.t) : M Zombie.t :=
  match c with
  | CallUpdate now => ret (Zombie.update now z)
  | CallRegisterHit => Zombie.register_hit z
  end.

Fixpoint calls (cs : list Call) (z : Zombie.t) : M Zombie.t :=
  match cs with
  | [] => ret z
  | c :: rest => z' <- call c z ;; calls rest z'
  end.

(** [spares_dead cs z w]: in the run of [cs] from [z], [register_hit] is never
    called on an entity that is already dead. *)
Fixpoint spares_dead (cs : list Call) (z : Zombie.t) (w : World) : bool :=
  match cs with
  | [] => true
  | c :: rest =>
      match c with
      | CallRegisterHit => negb (State_eqb (Zombie.state z) Dead)
      | CallUpdate _ => true
      end && spares_dead rest (eval (call c z) w) (exec (call c z) w)
  end.

(** [kept queues g w]: the slot is occupied before the run and after each of
    its frames.  A spawn needs an empty slot, so the entity owned at the start
    is the one owned throughout. *)
Fixpoint kept (queues : list (list Event)) (g : Game) (w : World) : bool :=
  match zombie g with
  | None => false
  | Some _ =>
      match queues with
      | [] => true
      | evs :: rest =>
          if running g
          then kept rest (eval (frame evs g) w) (exec (frame evs g) w)
          else true
      end
  end.

(** The entities the game owns: the contents of the variable [zombie]. *)
Definition owned (g : Game) : list Zombie.t :=
  match zombie g with Some z => [z] | None => [] end.

(** The variables of [main] as they can be sampled during one frame: after
    each event of the queue, after the spawn logic and after the update. *)
Fixpoint event_samples (evs : list Event) (g : Game) (w : World) : list Game :=
  match evs with
  | [] => []
  | ev :: rest =>
      eval (handle_event ev g) w ::
      event_samples rest (eval (handle_event ev g) w)
                    (exec (handle_event ev g) w)
  end.

Definition frame_samples (evs : list Event) (g : Game) (w : World)
  : list Game :=
  let now := eval get_ticks w in
  let w0 := exec get_ticks w in
  let g1 := eval (handle_events evs g) w0 in
  let w1 := exec (handle_events evs g) w0 in
  let g2 := eval (spawn_logic now g1) w1 in
  let w2 := exec (spawn_logic now g1) w1 in
  event_samples evs g w0 ++ [g2; eval (update_logic now g2) w2].

Fixpoint run_samples (queues : list (list Event)) (g : Game) (w : World)
  : list Game :=
  match queues with
  | [] => []
  | evs :: rest =>
      if running g
      then frame_samples evs g w ++
           run_samples rest (eval (frame evs g) w) (exec (frame evs g) w)
      else []
  end.

(** At most one entity is owned and it is spawning, alive or despawning. *)
Definition single_active (g : Game) : Prop :=
  (length (owned g) <= 1)%nat /\
  Forall (fun z => Zombie.state z <> Dead) (owned g).

(** Two worlds that have made the same number of clock readings and draws,
    hold the same draws, and whose clocks agree on the readings number [lo] to
    [hi - 1]. *)
Definition agree (lo hi : nat) (wa wb : World) : Prop :=
  tick_ix wa = tick_ix wb /\ draw_ix wa = draw_ix wb /\
  (forall k, draws wa k = draws wb k) /\
  (forall k, (lo <= k < hi)%nat -> ticks wa k = ticks wb k).

(** The clock readings a frame may still make besides the one at its start:
    one for a hit on a clickable entity, or one for a spawn into an empty
    slot. *)
Definition reads_left (g : Game) : nat :=
  match zombie g with
  | Some z => if Zombie.is_clickable z then 1 else 0
  | None => 1
  end.

(** An event that is neither a click of the primary button nor a request to
    quit (the window's close button or the escape key). *)
Definition quiet (ev : Event) : bool :=
  match ev with
  | QUIT => false
  | KEYDOWN key => negb (key =? K_ESCAPE)
  | MOUSEBUTTONDOWN button _ => negb (button =? 1)
  | OTHER => true
  end.

(** The [n] clock readings that follow the next [off] ones. *)
Definition readings (w : World) (off n : nat) : list Z :=
  map (fun k => ticks w (tick_ix w + off + k)) (seq 0 n).

(** What is left to score on the owned entity: one hit until its flag is set. *)
Definition hits_left (g : Game) : Z :=
  match zombie g with
  | Some z => if Zombie.hit_registered z then 0 else 1
  | None => 0
  end.

Definition occupied (g : Game) : bool :=
  match zombie g with Some _ => true | None => false end.

(** Euclidean distance from a pixel to the entity's position. *)
Definition distance (z : Zombie.t) (pos : Z * Z) : R :=
  sqrt ((IZR (fst pos) - IZR (Zombie.x z)) ^ 2 +
        (IZR (snd pos) - IZR (Zombie.y z)) ^ 2)%R.

(** The world in which the next two draws are [i] and [j]. *)
Definition drawing (i j : nat) (w : World) : World :=
  mkWorld (ticks w) (tick_ix w)
          (fun k => if (k =? draw_ix w)%nat then i
                    else if (k =? S (draw_ix w))%nat then j else draws w k)
          (draw_ix w).

(** How many elements of [l] satisfy [f]. *)
Definition count {A : Type} (f : A -> bool) (l : list A) : nat :=
  length (filter f l).

(** The probability of [event] when the next two raw draws of the generator
    are independent and uniform on [0, n), the rest of the world being that
    of [w]. *)
Definition probability (n : nat) (event : World -> bool) (w : World) : Q :=
  let outcomes := list_prod (seq 0 n) (seq 0 n) in
  (inject_Z (Z.of_nat (count (fun ij => event (drawing (fst ij) (snd ij) w))
                             outcomes))
   / inject_Z (Z.of_nat (length outcomes)))%Q.

(** The spawn logic creates an entity at [p]; an entity that lives [life]
    ms. *)
Definition spawns_at (now : Z) (g : Game) (p : Z * Z) (w : World) : bool :=
  match zombie (eval (spawn_logic now g) w) with
  | Some z => (Zombie.x z =? fst p) && (Zombie.y z =? snd p)
  | None => false
  end.

Definition spawns_for (now : Z) (g : Game) (life : Z) (w : World) : bool :=
  match zombie (eval (spawn_logic now g) w) with
  | Some z => Zombie.lifetime_ms z =? life
  | None => false
  end.

(** [steady g0 w0 n oz g w]: [n] frames after [(g0, w0)] the slot holds [oz],
    the counters are those of [g0], the loop still runs and the clock has been
    read [n] times. *)
Definition steady (g0 : Game) (w0 : World) (n : nat) (oz : option Zombie.t)
  (g : Game) (w : World) : Prop :=
  zombie g = oz /\ hits g = hits g0 /\ misses g = misses g0 /\
  running g = true /\ ticks w = ticks w0 /\ tick_ix w = (tick_ix w0 + n)%nat.

(** The value of a finite binary64 number, as a rational. *)
Definition float_value (f : float) : Q :=
  match Prim2SF f with
  | S754_finite s m e =>
      let v := if s then Z.neg m else Z.pos m in
      if 0 <=? e then inject_Z (v * 2 ^ e)
      else (inject_Z v / inject_Z (2 ^ (- e)))%Q
  | _ => 0%Q
  end.

(** [located mrs u]: the shift record [mrs] of the rounding procedure
    describes the non-negative rational [u]: its mantissa is the integer part
    of [u], its round bit says whether the fractional part reaches one half,
    its sticky bit whether that part is neither zero nor one half. *)
Definition located (mrs : shr_record) (u : Q) : Prop :=
  0 <= shr_m mrs /\
  (0 <= u - inject_Z (shr_m mrs))%Q /\ (u - inject_Z (shr_m mrs) < 1)%Q /\
  (shr_r mrs = true <-> (1 # 2 <= u - inject_Z (shr_m mrs))%Q) /\
  (shr_s mrs = true <->
   ~ (u - inject_Z (shr_m mrs) == 0)%Q /\
   ~ (u - inject_Z (shr_m mrs) == 1 # 2)%Q).

(** The value of a finite number in its unpacked form. *)
Definition SFval (x : spec_float) : Q :=
  match x with
  | S754_finite s m e => (inject_Z (if s then Z.neg m else Z.pos m) * 2 ^ e)%Q
  | _ => 0%Q
  end.

(** Zero or a positive finite number. *)
Definition finite_nonneg (x : spec_float) : bool :=
  match x with
  | S754_zero false | S754_finite false _ _ => true
  | _ => false
  end.

(** What an entity keeps from its creation to its release. *)
Definition identity (z : Zombie.t) : Z * Z * Z * Z * Z :=
  (Zombie.x z, Zombie.y z, Zombie.radius z, Zombie.spawn_time z,
   Zombie.lifetime_ms z).

(** ** The rest of the event loop and of the entity *)

(** The three kinds of event the loop reacts to. *)
Definition primary_click (ev : Event) : bool :=
  match ev with
  | MOUSEBUTTONDOWN button _ => button =? 1
  | _ => false
  end.

Definition quit_request (ev : Event) : bool :=
  match ev with
  | QUIT => true
  | KEYDOWN key => key =? K_ESCAPE
  | _ => false
  end.

Definition mute_press (ev : Event) : bool :=
  match ev with
  | KEYDOWN key => negb (key =? K_ESCAPE) && (key =? K_m)
  | _ => false
  end.

(** The variables of [main] that the scoring and the scheduler work on. *)
Definition score_view (g : Game) : Z * Z * option Zombie.t * Z :=
  (hits g, misses g, zombie g, next_spawn_time g).

(** Successive calls of [update]. *)
Definition updates (times : list Z) (z : Zombie.t) : Zombie.t :=
  fold_left (fun z' now => Zombie.update now z') times z.

(** Python's [min(a, b)] and [max(a, b)] on floats: the second argument is
    returned only when it is strictly smaller (larger). *)
Definition py_min (a b : float) : float := if (b <? a)%float then b else a.
Definition py_max (a b : float) : float := if (a <? b)%float then b else a.

(** [int(f)] for a finite float: truncation towards zero (Python raises on an
    infinity or a NaN, which stand as 0 here). *)
Definition int_of_float (f : float) : Z :=
  match Prim2SF f with
  | S754_finite s m e =>
      let v := if 0 <=? e then Z.pos m * 2 ^ e else Z.pos m / 2 ^ (- e) in
      if s then - v else v
  | _ => 0
  end.

(** The scale of [Zombie.draw(self, surf, now)] (lines 120-131). *)
Definition draw_scale (now : Z) (z : Zombie.t) : float :=
  match Zombie.state z with
  | Spawning =>
      let t := truediv (now - Zombie.state_time z) SPAWN_ANIM_MS in
      let t := py_max 0 (py_min 1 t) in
      (0.6 + 0.5 * (float_of_int (-2) * t * (t - float_of_int 1)))%float
  | Despawning =>
      let t := truediv (now - Zombie.state_time z) DESPAWN_ANIM_MS in
      let t := py_max 0 (py_min 1 t) in
      (1.0 - 0.9 * t)%float
  | _ => 1.0%float
  end.

(** [r = int(self.radius * scale)] (line 133), the radius of the face that
    [draw] paints at [(self.x, self.y)]. *)
Definition draw_radius (now : Z) (z : Zombie.t) : Z :=
  int_of_float (float_of_int (Zombie.radius z) * draw_scale now z).

(** The drawn radius of an entity with the base radius, as a function of its
    state and of the time spent in it. *)
Definition radius_after (s : State) (d : Z) : Z :=
  draw_radius d (Zombie.mk 0 0 ZOMBIE_BASE_RADIUS 0 0 s false 0).

(** * Properties *)

(** ** Running a computation *)

Lemma run_bind {A B : Type} (m : M A) (k : A -> M B) (w : World) :
  bind m k w = k (eval m w) (exec m w).
Proof. unfold bind, eval, exec. destruct (m w); reflexivity. Qed.

Lemma run_ret {A : Type} (a : A) (w : World) : ret a w = (a, w).
Proof. reflexivity. Qed.

Lemma eval_handle_events_cons (ev : Event) (evs : list Event) (g : Game)
  (w : World) :
  eval (handle_events (ev :: evs) g) w =
  eval (handle_events evs (eval (handle_event ev g) w))
       (exec (handle_event ev g) w).
Proof. unfold eval at 1. cbn [handle_events]. now rewrite run_bind. Qed.

Lemma exec_handle_events_cons (ev : Event) (evs : list Event) (g : Game)
  (w : World) :
  exec (handle_events (ev :: evs) g) w =
  exec (handle_events evs (eval (handle_event ev g) w))
       (exec (handle_event ev g) w).
Proof. unfold exec at 1. cbn [handle_events]. now rewrite run_bind. Qed.

Lemma frame_unfold (evs : list Event) (g : Game) (w : World) :
  frame evs g w =
  let now := eval get_ticks w in
  let w0 := exec get_ticks w in
  let g1 := eval (handle_events evs g) w0 in
  let w1 := exec (handle_events evs g) w0 in
  let g2 := eval (spawn_logic now g1) w1 in
  let w2 := exec (spawn_logic now g1) w1 in
  update_logic now g2 w2.
Proof. unfold frame. rewrite !run_bind. reflexivity. Qed.

Lemma eval_frame (evs : list Event) (g : Game) (w : World) :
  eval (frame evs g) w =
  let now := eval get_ticks w in
  let w0 := exec get_ticks w in
  let g1 := eval (handle_events evs g) w0 in
  let w1 := exec (handle_events evs g) w0 in
  eval (update_logic now (eval (spawn_logic now g1) w1))
       (exec (spawn_logic now g1) w1).
Proof. unfold eval at 1. rewrite frame_unfold. reflexivity. Qed.

Lemma exec_frame (evs : list Event) (g : Game) (w : World) :
  exec (frame evs g) w =
  let now := eval get_ticks w in
  let w0 := exec get_ticks w in
  let g1 := eval (handle_events evs g) w0 in
  let w1 := exec (handle_events evs g) w0 in
  exec (update_logic now (eval (spawn_logic now g1) w1))
       (exec (spawn_logic now g1) w1).
Proof. unfold exec at 1. rewrite frame_unfold. reflexivity. Qed.

Lemma update_fields (now : Z) (z : Zombie.t) :
  Zombie.x (Zombie.update now z) = Zombie.x z /\
  Zombie.y (Zombie.update now z) = Zombie.y z /\
  Zombie.radius (Zombie.update now z) = Zombie.radius z /\
  Zombie.spawn_time (Zombie.update now z) = Zombie.spawn_time z /\
  Zombie.lifetime_ms (Zombie.update now z) = Zombie.lifetime_ms z.
Proof.
  unfold Zombie.update.
  destruct (Zombie.state z);
    repeat match goal with |- context [if ?b then _ else _] => destruct b end;
    cbn; auto.
Qed.

(** ** C1: scoring of a primary-button click *)

Lemma register_hit_fields (z : Zombie.t) (w : World) :
  let z' := eval (Zombie.register_hit z) w in
  Zombie.state z' = Despawning /\ Zombie.hit_registered z' = true /\
  Zombie.state_time z' = ticks w (tick_ix w) /\
  Zombie.x z' = Zombie.x z /\ Zombie.y z' = Zombie.y z /\
  Zombie.radius z' = Zombie.radius z /\
  Zombie.spawn_time z' = Zombie.spawn_time z /\
  Zombie.lifetime_ms z' = Zombie.lifetime_ms z.
Proof. cbv; repeat split. Qed.

(** C1. A pointer-down event with the primary button: when an entity is owned,
    is clickable and the hit test succeeds, [register_hit] is called on it and
    [hits] grows by exactly one ([misses] is unchanged); otherwise, when the
    owned entity is spawning or alive, [misses] grows by exactly one ([hits] and
    the entity are unchanged); with no entity owned, or with an entity that is
    despawning, neither counter changes. *)
Theorem primary_click_scoring (g : Game) (w : World) (pos : Z * Z) :
  let g' := eval (handle_event (MOUSEBUTTONDOWN 1 pos) g) w in
  match zombie g with
  | Some z =>
      if Zombie.is_clickable z && Zombie.hit_test z pos then
        zombie g' = Some (eval (Zombie.register_hit z) w) /\
        hits g' = hits g + 1 /\ misses g' = misses g
      else
        match Zombie.state z with
        | Spawning | Alive =>
            misses g' = misses g + 1 /\ hits g' = hits g /\ zombie g' = Some z
        | Despawning | Dead =>
            misses g' = misses g /\ hits g' = hits g /\ zombie g' = Some z
        end
  | None => misses g' = misses g /\ hits g' = hits g /\ zombie g' = None
  end.
Proof.
  unfold eval, handle_event. cbn [Z.eqb Pos.eqb].
  destruct (zombie g) as [z|] eqn:Hz; [|cbn; rewrite Hz; auto].
  destruct (Zombie.is_clickable z && Zombie.hit_test z pos) eqn:Hc.
  - rewrite run_bind, run_ret. cbn. auto.
  - destruct (Zombie.state z); cbn; rewrite ?Hz; auto.
Qed.

(** ** C3: the life cycle only moves forward *)

Lemma update_rank (now : Z) (z : Zombie.t) :
  (rank (Zombie.state z) <= rank (Zombie.state (Zombie.update now z)))%nat.
Proof.
  unfold Zombie.update.
  destruct (Zombie.state z) eqn:Hs;
    repeat match goal with |- context [if ?b then _ else _] => destruct b end;
    cbn; rewrite ?Hs; cbn; lia.
Qed.

Lemma update_into_dead (now : Z) (z : Zombie.t) :
  Zombie.state (Zombie.update now z) = Dead ->
  Zombie.state z = Despawning \/ Zombie.state z = Dead.
Proof.
  unfold Zombie.update.
  destruct (Zombie.state z) eqn:Hs; auto;
    repeat match goal with |- context [if ?b then _ else _] => destruct b end;
    cbn; rewrite ?Hs; intros; congruence.
Qed.

Lemma call_rank (c : Call) (z : Zombie.t) (w : World) :
  (c = CallRegisterHit -> Zombie.state z <> Dead) ->
  (rank (Zombie.state z) <= rank (Zombie.state (eval (call c z) w)))%nat.
Proof.
  destruct c as [now|]; intros Hc.
  - apply update_rank.
  - specialize (Hc eq_refl). cbn. destruct (Zombie.state z); cbn; try lia.
    congruence.
Qed.

Lemma calls_app (cs1 cs2 : list Call) (z : Zombie.t) (w : World) :
  calls (cs1 ++ cs2) z w =
  calls cs2 (eval (calls cs1 z) w) (exec (calls cs1 z) w).
Proof.
  revert z w. induction cs1 as [|c cs1 IH]; intros z w; [reflexivity|].
  cbn [app calls]. rewrite !run_bind. unfold eval, exec in *.
  rewrite IH, run_bind. reflexivity.
Qed.

Lemma spares_dead_app (cs1 cs2 : list Call) (z : Zombie.t) (w : World) :
  spares_dead (cs1 ++ cs2) z w = true ->
  spares_dead cs2 (eval (calls cs1 z) w) (exec (calls cs1 z) w) = true.
Proof.
  revert z w. induction cs1 as [|c cs1 IH]; intros z w H; [exact H|].
  cbn [app spares_dead] in H. apply andb_true_iff in H as [_ H].
  apply IH in H. unfold eval, exec in *. cbn [calls]. rewrite run_bind.
  exact H.
Qed.

Lemma calls_rank (cs : list Call) (z : Zombie.t) (w : World) :
  spares_dead cs z w = true ->
  (rank (Zombie.state z) <= rank (Zombie.state (eval (calls cs z) w)))%nat.
Proof.
  revert z w. induction cs as [|c cs IH]; intros z w H; [cbn; lia|].
  cbn [spares_dead] in H. apply andb_true_iff in H as [Hc H].
  apply IH in H. unfold eval in *. cbn [calls]. rewrite run_bind.
  etransitivity; [|exact H].
  apply call_rank. intros ->. destruct (Zombie.state z); cbn in Hc; congruence.
Qed.

(** C3.  Within an entity's life, that is along any interleaving of
    [update(now)] and [register_hit()] in which [register_hit()] is not called
    on an entity already dead (dead is terminal, and the loop releases a dead
    entity in the frame it dies), the state after a longer run is never
    earlier, in the order spawning < alive < despawning < dead, than the state
    after a prefix of it; and despawning is never skipped: a call leaves the
    entity dead only when it was despawning (or dead) before, a hit leads to
    despawning, and so does expiry of an alive entity. *)
Theorem state_never_moves_backward
  (cs1 cs2 : list Call) (z : Zombie.t) (w : World) :
  spares_dead (cs1 ++ cs2) z w = true ->
  (rank (Zombie.state (eval (calls cs1 z) w)) <=
   rank (Zombie.state (eval (calls (cs1 ++ cs2) z) w)))%nat /\
  (forall c z0 w0, Zombie.state (eval (call c z0) w0) = Dead ->
     Zombie.state z0 = Despawning \/ Zombie.state z0 = Dead) /\
  (forall z0 w0, Zombie.state (eval (Zombie.register_hit z0) w0) = Despawning) /\
  (forall now z0, Zombie.state z0 = Alive ->
     Zombie.lifetime_ms z0 <= now - Zombie.spawn_time z0 ->
     Zombie.state (Zombie.update now z0) = Despawning).
Proof.
  intros H. repeat split.
  - unfold eval at 2. rewrite calls_app. apply calls_rank.
    now apply spares_dead_app.
  - intros [now|] z0 w0 Hd; [now apply (update_into_dead now)|].
    cbn in Hd. discriminate.
  - intros now z0 Hs Hl. unfold Zombie.update. rewrite Hs.
    apply Z.leb_le in Hl. rewrite Hl. reflexivity.
Qed.

Lemma state_never_moves_backward_witness :
  let z := Zombie.mk 150 160 48 0 1000 Spawning false 0 in
  let w := mkWorld (fun _ => 400) 0 (fun _ => 0%nat) 0 in
  let cs1 := [CallUpdate 180; CallRegisterHit] in
  let cs2 := [CallRegisterHit; CallUpdate 700] in
  spares_dead (cs1 ++ cs2) z w = true /\
  (rank (Zombie.state (eval (calls cs1 z) w)) <=
   rank (Zombie.state (eval (calls (cs1 ++ cs2) z) w)))%nat.
Proof.
  split; [reflexivity|].
  apply (state_never_moves_backward
           [CallUpdate 180; CallRegisterHit] [CallRegisterHit; CallUpdate 700]
           (Zombie.mk 150 160 48 0 1000 Spawning false 0)
           (mkWorld (fun _ => 400) 0 (fun _ => 0%nat) 0)).
  reflexivity.
Defined.

(** Why the life of an entity ends when it is dead: [register_hit()] sets the
    state without looking at it, so a call on a dead entity would put it back
    to despawning.  The loop never makes that call: it hits clickable entities
    only, and a dead one is not clickable. *)
Lemma register_hit_revives_dead :
  let z := Zombie.mk 150 160 48 0 1000 Spawning false 0 in
  let w := mkWorld (fun _ => 1300) 0 (fun _ => 0%nat) 0 in
  let cs1 := [CallUpdate 180; CallUpdate 1000; CallUpdate 1220] in
  let cs2 := [CallRegisterHit] in
  Zombie.state (eval (calls cs1 z) w) = Dead /\
  Zombie.state (eval (calls (cs1 ++ cs2) z) w) = Despawning /\
  (rank (Zombie.state (eval (calls (cs1 ++ cs2) z) w)) <
   rank (Zombie.state (eval (calls cs1 z) w)))%nat.
Proof. cbv. repeat split; lia. Qed.

(** ** C4: the one-shot hit flag *)

Lemma is_clickable_iff (z : Zombie.t) :
  Zombie.is_clickable z = true <->
  (Zombie.state z = Spawning \/ Zombie.state z = Alive) /\
  Zombie.hit_registered z = false.
Proof.
  unfold Zombie.is_clickable.
  destruct (Zombie.state z), (Zombie.hit_registered z); cbn;
    intuition congruence.
Qed.

Lemma update_hit_registered (now : Z) (z : Zombie.t) :
  Zombie.hit_registered (Zombie.update now z) = Zombie.hit_registered z.
Proof.
  unfold Zombie.update.
  destruct (Zombie.state z);
    repeat match goal with |- context [if ?b then _ else _] => destruct b end;
    reflexivity.
Qed.

Lemma calls_keep_flag (cs : list Call) (z : Zombie.t) (w : World) :
  Zombie.hit_registered z = true ->
  Zombie.hit_registered (eval (calls cs z) w) = true.
Proof.
  revert z w. induction cs as [|c cs IH]; intros z w H; [exact H|].
  unfold eval in *. cbn [calls]. rewrite run_bind. apply IH.
  destruct c as [now|]; cbn; [now rewrite update_hit_registered|reflexivity].
Qed.

Lemma flag_not_clickable (z : Zombie.t) :
  Zombie.hit_registered z = true -> Zombie.is_clickable z = false.
Proof.
  intros H. unfold Zombie.is_clickable. rewrite H.
  destruct (Zombie.state z); reflexivity.
Qed.

Lemma handle_event_budget (ev : Event) (g : Game) (w : World) :
  let g' := eval (handle_event ev g) w in
  hits g <= hits g' /\ hits g' + hits_left g' <= hits g + hits_left g /\
  occupied g' = occupied g /\ next_spawn_time g' = next_spawn_time g.
Proof.
  unfold eval, hits_left, occupied.
  destruct ev as [|key|button pos|]; cbn [handle_event].
  - cbn. repeat split; lia.
  - destruct (key =? K_ESCAPE); [cbn; repeat split; lia|].
    destruct ((key =? K_m) && sound_supported g); cbn; repeat split; lia.
  - destruct (button =? 1); [|cbn; repeat split; lia].
    destruct (zombie g) as [z|] eqn:Hz; [|cbn; rewrite Hz; repeat split; lia].
    destruct (Zombie.is_clickable z && Zombie.hit_test z pos) eqn:Hc.
    + apply andb_true_iff in Hc as [Hc _].
      apply is_clickable_iff in Hc as [_ Hc].
      rewrite run_bind, run_ret. cbn. rewrite Hc. repeat split; lia.
    + destruct (Zombie.state z); cbn; rewrite Hz; repeat split; lia.
  - cbn. repeat split; lia.
Qed.

Lemma handle_events_budget (evs : list Event) (g : Game) (w : World) :
  let g' := eval (handle_events evs g) w in
  hits g <= hits g' /\ hits g' + hits_left g' <= hits g + hits_left g /\
  occupied g' = occupied g /\ next_spawn_time g' = next_spawn_time g.
Proof.
  revert g w. induction evs as [|ev evs IH]; intros g w.
  - cbn. repeat split; lia.
  - cbn zeta. unfold eval. cbn [handle_events]. rewrite run_bind.
    pose proof (handle_event_budget ev g w) as H1. cbn zeta in H1.
    pose proof (IH (eval (handle_event ev g) w) (exec (handle_event ev g) w))
      as H2. cbn zeta in H2. unfold eval in *.
    destruct H1 as (? & ? & ? & ?). destruct H2 as (? & ? & ? & ?).
    repeat split; try lia; congruence.
Qed.

Lemma hits_left_range (g : Game) : 0 <= hits_left g <= 1.
Proof.
  unfold hits_left.
  destruct (zombie g) as [z|]; [destruct (Zombie.hit_registered z)|]; lia.
Qed.

Lemma spawn_logic_occupied (now : Z) (g : Game) (w : World) :
  occupied g = true -> spawn_logic now g w = (g, w).
Proof.
  unfold occupied, spawn_logic. destruct (zombie g); [reflexivity|discriminate].
Qed.

Lemma eval_spawn_occupied (now : Z) (g : Game) (w : World) :
  occupied g = true -> eval (spawn_logic now g) w = g.
Proof. intros H. unfold eval. now rewrite spawn_logic_occupied. Qed.

Lemma exec_spawn_occupied (now : Z) (g : Game) (w : World) :
  occupied g = true -> exec (spawn_logic now g) w = w.
Proof. intros H. unfold exec. now rewrite spawn_logic_occupied. Qed.

Lemma update_logic_budget (now : Z) (g : Game) (w : World) :
  let g' := eval (update_logic now g) w in
  hits g' = hits g /\ misses g' = misses g /\
  (occupied g' = true -> hits_left g' = hits_left g).
Proof.
  unfold eval, update_logic, hits_left, occupied.
  destruct (zombie g) as [z|] eqn:Hz; [|cbn; rewrite Hz; auto].
  destruct (Zombie.state (Zombie.update now z)) eqn:Hs;
    try (cbn; rewrite update_hit_registered; auto).
  rewrite run_bind, run_ret. cbn. repeat split. discriminate.
Qed.

Lemma frame_occupied (evs : list Event) (g : Game) (w : World) :
  occupied g = true ->
  frame evs g w =
  update_logic (eval get_ticks w)
    (eval (handle_events evs g) (exec get_ticks w))
    (exec (handle_events evs g) (exec get_ticks w)).
Proof.
  intros Ho. rewrite frame_unfold. cbn zeta.
  pose proof (handle_events_budget evs g (exec get_ticks w)) as H.
  cbn zeta in H. destruct H as (_ & _ & H & _). rewrite Ho in H.
  unfold eval, exec in *. rewrite (spawn_logic_occupied _ _ _ H).
  reflexivity.
Qed.

Lemma frame_budget (evs : list Event) (g : Game) (w : World) :
  occupied g = true ->
  let g' := eval (frame evs g) w in
  occupied g' = true ->
  hits g' + hits_left g' <= hits g + hits_left g.
Proof.
  intros Ho. cbn zeta.
  replace (eval (frame evs g) w) with
    (eval (update_logic (eval get_ticks w)
             (eval (handle_events evs g) (exec get_ticks w)))
          (exec (handle_events evs g) (exec get_ticks w)))
    by (unfold eval at 1 4; now rewrite (frame_occupied _ _ _ Ho)).
  pose proof (handle_events_budget evs g (exec get_ticks w)) as H1.
  cbn zeta in H1. destruct H1 as (_ & H1 & _ & _).
  pose proof (update_logic_budget (eval get_ticks w)
                (eval (handle_events evs g) (exec get_ticks w))
                (exec (handle_events evs g) (exec get_ticks w))) as H2.
  cbn zeta in H2. destruct H2 as (H2 & _ & H3).
  intros Ho'. rewrite (H3 Ho'), H2. exact H1.
Qed.

Lemma kept_budget (queues : list (list Event)) (g : Game) (w : World) :
  kept queues g w = true ->
  hits (eval (main_loop queues g) w) <= hits g + hits_left g.
Proof.
  revert g w. induction queues as [|evs rest IH]; intros g w H.
  - cbn. pose proof (hits_left_range g). lia.
  - cbn [kept] in H. unfold eval. cbn [main_loop].
    destruct (zombie g) as [z|] eqn:Hz; [|discriminate].
    destruct (running g); [|cbn; pose proof (hits_left_range g); lia].
    rewrite run_bind. pose proof (IH _ _ H) as H1. unfold eval in H1 at 1.
    etransitivity; [exact H1|].
    apply frame_budget.
    + unfold occupied. now rewrite Hz.
    + destruct rest; cbn [kept] in H; unfold occupied;
        destruct (zombie (eval (frame evs g) w)); congruence.
Qed.

(** C4. [is_clickable()] is true exactly when the state is spawning or alive
    and [hit_registered] is false.  After [register_hit()] it is false and stays
    false under every later call of [update(now)] or [register_hit()].  Hence
    the pointer-down events of one frame raise [hits] by at most one, and so do
    all the frames through which the same entity stays owned; once the flag of
    the owned entity is set they do not raise it at all. *)
Theorem hit_counted_once :
  (forall z, Zombie.is_clickable z = true <->
     (Zombie.state z = Spawning \/ Zombie.state z = Alive) /\
     Zombie.hit_registered z = false) /\
  (forall z w cs w',
     Zombie.is_clickable (eval (calls cs (eval (Zombie.register_hit z) w)) w')
     = false) /\
  (forall evs g w, hits (eval (handle_events evs g) w) <= hits g + 1) /\
  (forall queues g w, kept queues g w = true ->
     hits (eval (main_loop queues g) w) <= hits g + 1 /\
     (forall z, zombie g = Some z -> Zombie.hit_registered z = true ->
        hits (eval (main_loop queues g) w) <= hits g)).
Proof.
  split; [exact is_clickable_iff|]. split; [|split].
  - intros z w cs w'. apply flag_not_clickable, calls_keep_flag. reflexivity.
  - intros evs g w. pose proof (handle_events_budget evs g w) as H.
    cbn zeta in H. pose proof (hits_left_range g).
    pose proof (hits_left_range (eval (handle_events evs g) w)). lia.
  - intros queues g w H. pose proof (kept_budget _ _ _ H) as Hb. split.
    + pose proof (hits_left_range g). lia.
    + intros z Hz Hf. unfold hits_left in Hb. rewrite Hz, Hf in Hb. lia.
Qed.

Lemma hit_counted_once_witness :
  let z := Zombie.mk 150 160 48 0 1000 Alive false 180 in
  let g := mkGame 0 0 (Some z) 0 true false true in
  let w := mkWorld (fun k => 500 + 16 * Z.of_nat k) 0 (fun _ => 0%nat) 0 in
  let queues := [[MOUSEBUTTONDOWN 1 (150, 160); MOUSEBUTTONDOWN 1 (151, 161)];
                 [MOUSEBUTTONDOWN 1 (150, 160)]] in
  kept queues g w = true /\
  hits (eval (main_loop queues g) w) <= hits g + 1.
Proof.
  split; [vm_compute; reflexivity|].
  destruct hit_counted_once as (_ & _ & _ & H).
  apply (H [[MOUSEBUTTONDOWN 1 (150, 160); MOUSEBUTTONDOWN 1 (151, 161)];
            [MOUSEBUTTONDOWN 1 (150, 160)]]
           (mkGame 0 0 (Some (Zombie.mk 150 160 48 0 1000 Alive false 180))
                   0 true false true)
           (mkWorld (fun k => 500 + 16 * Z.of_nat k) 0 (fun _ => 0%nat) 0)).
  vm_compute. reflexivity.
Defined.

(** ** C5: the circular hit box *)

(** The float [(48 * 0.95) ** 2] is [4572560996664606 * 2^-41], a little under
    2079.36. *)
Lemma hit_radius_sq_base :
  Prim2SF (Zombie.hit_radius_sq ZOMBIE_BASE_RADIUS) =
  S754_finite false 4572560996664606 (-41).
Proof. vm_compute. reflexivity. Qed.

Lemma int_le_hit_radius (n : Z) :
  int_le_float n (Zombie.hit_radius_sq ZOMBIE_BASE_RADIUS) = true <-> n <= 2079.
Proof.
  unfold int_le_float. rewrite hit_radius_sq_base.
  change (0 <=? -41) with false. cbv iota.
  change (2 ^ (- -41)) with 2199023255552.
  rewrite Z.leb_le. lia.
Qed.

Lemma sqrt_le_base (n : Z) :
  0 <= n -> (sqrt (IZR n) <= 48 * 0.95)%R <-> n <= 2079.
Proof.
  intros Hn. assert (H0 : (0 <= IZR n)%R) by now apply IZR_le.
  split; intros H.
  - assert (Hs : (IZR n <= (48 * 0.95) * (48 * 0.95))%R).
    { rewrite <- (sqrt_sqrt (IZR n)) by exact H0.
      pose proof (sqrt_pos (IZR n)). nra. }
    assert (Hlt : (IZR n < IZR 2080)%R) by lra.
    apply lt_IZR in Hlt. lia.
  - apply IZR_le in H.
    replace (48 * 0.95)%R with (sqrt ((48 * 0.95) * (48 * 0.95)))%R
      by (apply sqrt_square; lra).
    apply sqrt_le_1_alt. lra.
Qed.

Lemma distance_IZR (z : Zombie.t) (mx my : Z) :
  distance z (mx, my) =
  sqrt (IZR ((mx - Zombie.x z) ^ 2 + (my - Zombie.y z) ^ 2)).
Proof.
  unfold distance. cbn [fst snd]. f_equal.
  rewrite !Z.pow_2_r, plus_IZR, !mult_IZR, !minus_IZR. ring.
Qed.

(** C5. For an entity with the base radius and every pixel [p], [hit_test(p)]
    is true exactly when the Euclidean distance from [p] to the entity's
    position is at most [radius * 0.95]; and the result depends on the
    position, the radius and [p] only, whatever the state, the hit flag and
    the timestamps of the entity are. *)
Theorem hit_test_distance (z : Zombie.t) (p : Z * Z) :
  Zombie.radius z = ZOMBIE_BASE_RADIUS ->
  (Zombie.hit_test z p = true <->
   (distance z p <= IZR (Zombie.radius z) * 0.95)%R) /\
  (forall z', Zombie.x z' = Zombie.x z -> Zombie.y z' = Zombie.y z ->
     Zombie.radius z' = Zombie.radius z ->
     Zombie.hit_test z' p = Zombie.hit_test z p).
Proof.
  intros Hr. destruct p as [mx my]. split.
  - rewrite distance_IZR. unfold Zombie.hit_test. rewrite Hr.
    rewrite int_le_hit_radius. symmetry. apply sqrt_le_base. nia.
  - intros z' Hx Hy Hr'. unfold Zombie.hit_test. now rewrite Hx, Hy, Hr'.
Qed.

Lemma hit_test_distance_witness :
  let z := Zombie.mk 150 160 48 0 1000 Alive false 180 in
  Zombie.radius z = ZOMBIE_BASE_RADIUS /\
  (Zombie.hit_test z (182, 192) = true <->
   (distance z (182, 192)%Z <= IZR (Zombie.radius z) * 0.95)%R).
Proof.
  split; [reflexivity|].
  apply (hit_test_distance (Zombie.mk 150 160 48 0 1000 Alive false 180)
           (182, 192)).
  reflexivity.
Defined.

(** The hit box on concrete pixels around the spawn point (150, 160): the
    squared distance may be at most 2079. *)
Example hit_test_inside :
  Zombie.hit_test (Zombie.mk 150 160 48 0 1000 Spawning false 0) (193, 160)
  = true /\
  Zombie.hit_test (Zombie.mk 150 160 48 0 1000 Spawning false 0) (195, 167)
  = true.
Proof. split; vm_compute; reflexivity. Qed.

Example hit_test_outside :
  Zombie.hit_test (Zombie.mk 150 160 48 0 1000 Alive false 180) (196, 160)
  = false /\
  Zombie.hit_test (Zombie.mk 150 160 48 0 1000 Alive false 180) (195, 168)
  = false.
Proof. split; vm_compute; reflexivity. Qed.

(** A click at 43 pixels from the centre at [t = 50], while the entity is
    spawning, scores a hit and starts the despawn at the reading of the clock
    taken by [register_hit]; a click at 46 pixels from an alive entity is a
    miss and leaves the entity as it is. *)
Example click_scenarios :
  let w := mkWorld (fun _ => 50) 0 (fun _ => 0%nat) 0 in
  let spawning := Zombie.mk 150 160 48 0 1000 Spawning false 0 in
  let alive := Zombie.mk 150 160 48 0 1000 Alive false 180 in
  eval (handle_event (MOUSEBUTTONDOWN 1 (193, 160))
          (mkGame 0 0 (Some spawning) 0 true false false)) w =
  mkGame 1 0 (Some (Zombie.mk 150 160 48 0 1000 Despawning true 50))
         0 true false false /\
  eval (handle_event (MOUSEBUTTONDOWN 1 (196, 160))
          (mkGame 0 0 (Some alive) 0 true false false)) w =
  mkGame 0 1 (Some alive) 0 true false false /\
  eval (handle_event (MOUSEBUTTONDOWN 1 (10, 10))
          (mkGame 0 0 None 0 true false false)) w =
  mkGame 0 0 None 0 true false false.
Proof. repeat split; vm_compute; reflexivity. Qed.

(** ** C2: a single active entity *)

Lemma single_active_iff (g : Game) :
  single_active g <->
  match zombie g with Some z => Zombie.state z <> Dead | None => True end.
Proof.
  unfold single_active, owned. destruct (zombie g) as [z|]; cbn.
  - split; [intros [_ H]; now inversion H|intros H; split; [lia|now constructor]].
  - split; [trivial|intros _; split; [lia|constructor]].
Qed.

Lemma handle_event_active (ev : Event) (g : Game) (w : World) :
  single_active g -> single_active (eval (handle_event ev g) w).
Proof.
  rewrite !single_active_iff. unfold eval.
  destruct ev as [|key|button pos|]; cbn [handle_event]; try (intros H; exact H).
  - destruct (key =? K_ESCAPE); [intros H; exact H|].
    destruct ((key =? K_m) && sound_supported g); intros H; exact H.
  - destruct (button =? 1); [|intros H; exact H].
    destruct (zombie g) as [z|] eqn:Hz; [|cbn; now rewrite Hz].
    destruct (Zombie.is_clickable z && Zombie.hit_test z pos).
    + intros _. rewrite run_bind, run_ret. cbn. discriminate.
    + destruct (Zombie.state z) eqn:Hs; cbn; rewrite Hz, Hs; trivial.
Qed.

Lemma event_samples_active (evs : list Event) (g : Game) (w : World) :
  single_active g ->
  Forall single_active (event_samples evs g w) /\
  single_active (eval (handle_events evs g) w).
Proof.
  revert g w. induction evs as [|ev evs IH]; intros g w H.
  - split; [constructor|exact H].
  - cbn [event_samples]. unfold eval at 3. cbn [handle_events].
    rewrite run_bind. pose proof (handle_event_active ev g w H) as H1.
    destruct (IH _ (exec (handle_event ev g) w) H1) as [H2 H3].
    split; [constructor; assumption|exact H3].
Qed.

Lemma spawn_logic_active (now : Z) (g : Game) (w : World) :
  single_active g -> single_active (eval (spawn_logic now g) w).
Proof.
  rewrite !single_active_iff. unfold eval, spawn_logic.
  destruct (zombie g) as [z|] eqn:Hz; [cbn; now rewrite Hz|].
  destruct (next_spawn_time g <=? now); [|cbn; now rewrite Hz].
  intros _. rewrite !run_bind, run_ret. cbn. discriminate.
Qed.

Lemma update_logic_active (now : Z) (g : Game) (w : World) :
  single_active (eval (update_logic now g) w).
Proof.
  rewrite single_active_iff. unfold eval, update_logic.
  destruct (zombie g) as [z|] eqn:Hz; [|cbn; now rewrite Hz].
  destruct (Zombie.state (Zombie.update now z)) eqn:Hs;
    try (cbn; rewrite Hs; discriminate).
  rewrite run_bind, run_ret. cbn. trivial.
Qed.

Lemma frame_samples_active (evs : list Event) (g : Game) (w : World) :
  single_active g ->
  Forall single_active (frame_samples evs g w) /\
  single_active (eval (frame evs g) w).
Proof.
  intros H. unfold frame_samples. rewrite eval_frame. cbn zeta.
  destruct (event_samples_active evs g (exec get_ticks w) H) as [H1 H2].
  split; [|apply update_logic_active].
  apply Forall_app. split; [exact H1|].
  constructor; [now apply spawn_logic_active|].
  constructor; [apply update_logic_active|constructor].
Qed.

Lemma run_samples_active (queues : list (list Event)) (g : Game) (w : World) :
  single_active g -> Forall single_active (run_samples queues g w).
Proof.
  revert g w. induction queues as [|evs rest IH]; intros g w H; [constructor|].
  cbn [run_samples]. destruct (running g); [|constructor].
  destruct (frame_samples_active evs g w H) as [H1 H2].
  apply Forall_app. split; [exact H1|now apply IH].
Qed.

(** C2. Across any sequence of frame iterations from the start of [main], at
    every sampled instant (after each event, after the spawn logic, after the
    update) the game owns at most one entity and that entity is spawning, alive
    or despawning.  An entity that the update leaves dead is released in the
    same frame: the slot is empty afterwards.  The slot is only ever refilled,
    when empty, with an entity newly built by [Zombie(pos)]. *)
Theorem single_active_entity :
  (forall sound queues w,
     Forall single_active
       (init_game sound :: run_samples queues (init_game sound) w)) /\
  (forall now g w z, zombie g = Some z ->
     Zombie.state (Zombie.update now z) = Dead ->
     zombie (eval (update_logic now g) w) = None) /\
  (forall now g w, zombie g = None ->
     zombie (eval (spawn_logic now g) w) = None \/
     zombie (eval (spawn_logic now g) w) =
       Some (eval (Zombie.init (eval (choice (0, 0) SPAWN_POINTS) w))
                  (exec (choice (0, 0) SPAWN_POINTS) w))).
Proof.
  assert (H0 : forall sound, single_active (init_game sound)).
  { intros sound. apply single_active_iff. exact I. }
  split; [|split].
  - intros sound queues w. constructor; [apply H0|].
    apply run_samples_active, H0.
  - intros now g w z Hz Hd. unfold eval, update_logic. rewrite Hz, Hd.
    rewrite run_bind, run_ret. reflexivity.
  - intros now g w Hz. unfold spawn_logic. rewrite Hz.
    destruct (next_spawn_time g <=? now).
    + right. unfold eval at 1. rewrite !run_bind, run_ret. reflexivity.
    + left. cbn. exact Hz.
Qed.

Lemma single_active_entity_witness :
  let z := Zombie.mk 150 160 48 0 1000 Despawning true 1000 in
  let g := mkGame 1 0 (Some z) 0 true false true in
  let w := mkWorld (fun _ => 1220) 1 (fun _ => 5%nat) 0 in
  zombie g = Some z /\ Zombie.state (Zombie.update 1220 z) = Dead /\
  zombie (eval (update_logic 1220 g) w) = None.
Proof.
  split; [reflexivity|]. split; [reflexivity|].
  destruct single_active_entity as (_ & H & _).
  apply (H 1220
           (mkGame 1 0
              (Some (Zombie.mk 150 160 48 0 1000 Despawning true 1000))
              0 true false true)
           (mkWorld (fun _ => 1220) 1 (fun _ => 5%nat) 0)
           (Zombie.mk 150 160 48 0 1000 Despawning true 1000));
    reflexivity.
Defined.

(** ** Invariants of the owned entity along a run *)

Section SlotInvariant.

Variable P : Zombie.t -> Prop.
Hypothesis P_update : forall now z, P z -> P (Zombie.update now z).
Hypothesis P_hit : forall z w, P z -> P (eval (Zombie.register_hit z) w).
Hypothesis P_init : forall pos w, P (eval (Zombie.init pos) w).

Definition slot (g : Game) : Prop := Forall P (owned g).

Lemma slot_iff (g : Game) :
  slot g <-> match zombie g with Some z => P z | None => True end.
Proof.
  unfold slot, owned. destruct (zombie g) as [z|].
  - split; [intros H; now inversion H|intros H; now constructor].
  - split; [trivial|constructor].
Qed.

Lemma handle_event_slot (ev : Event) (g : Game) (w : World) :
  slot g -> slot (eval (handle_event ev g) w).
Proof.
  rewrite !slot_iff. unfold eval.
  destruct ev as [|key|button pos|]; cbn [handle_event]; try (intros H; exact H).
  - destruct (key =? K_ESCAPE); [intros H; exact H|].
    destruct ((key =? K_m) && sound_supported g); intros H; exact H.
  - destruct (button =? 1); [|intros H; exact H].
    destruct (zombie g) as [z|] eqn:Hz; [|cbn; now rewrite Hz].
    destruct (Zombie.is_clickable z && Zombie.hit_test z pos).
    + intros H. rewrite run_bind, run_ret. cbn [fst zombie score_hit].
      now apply P_hit.
    + destruct (Zombie.state z); cbn; now rewrite Hz.
Qed.

Lemma event_samples_slot (evs : list Event) (g : Game) (w : World) :
  slot g ->
  Forall slot (event_samples evs g w) /\ slot (eval (handle_events evs g) w).
Proof.
  revert g w. induction evs as [|ev evs IH]; intros g w H.
  - split; [constructor|exact H].
  - cbn [event_samples]. rewrite eval_handle_events_cons.
    pose proof (handle_event_slot ev g w H) as H1.
    destruct (IH _ (exec (handle_event ev g) w) H1) as [H2 H3].
    split; [constructor; assumption|exact H3].
Qed.

Lemma spawn_logic_slot (now : Z) (g : Game) (w : World) :
  slot g -> slot (eval (spawn_logic now g) w).
Proof.
  rewrite !slot_iff. unfold eval, spawn_logic.
  destruct (zombie g) as [z|] eqn:Hz; [cbn; now rewrite Hz|].
  destruct (next_spawn_time g <=? now); [|cbn; now rewrite Hz].
  intros _. rewrite !run_bind, run_ret. cbn [fst zombie set_zombie].
  apply P_init.
Qed.

Lemma update_logic_slot (now : Z) (g : Game) (w : World) :
  slot g -> slot (eval (update_logic now g) w).
Proof.
  rewrite !slot_iff. unfold eval, update_logic.
  destruct (zombie g) as [z|] eqn:Hz; [|cbn; now rewrite Hz].
  intros H.
  destruct (Zombie.state (Zombie.update now z));
    try (cbn; now apply P_update).
  rewrite run_bind, run_ret. cbn. trivial.
Qed.

Lemma frame_samples_slot (evs : list Event) (g : Game) (w : World) :
  slot g ->
  Forall slot (frame_samples evs g w) /\ slot (eval (frame evs g) w).
Proof.
  intros H. unfold frame_samples. rewrite eval_frame. cbn zeta.
  destruct (event_samples_slot evs g (exec get_ticks w) H) as [H1 H2].
  pose proof (spawn_logic_slot (eval get_ticks w) _
                (exec (handle_events evs g) (exec get_ticks w)) H2) as H3.
  pose proof (update_logic_slot (eval get_ticks w) _
                (exec (spawn_logic (eval get_ticks w)
                         (eval (handle_events evs g) (exec get_ticks w)))
                      (exec (handle_events evs g) (exec get_ticks w))) H3)
    as H4.
  split; [|exact H4].
  apply Forall_app. split; [exact H1|].
  constructor; [exact H3|]. constructor; [exact H4|constructor].
Qed.

Lemma run_samples_slot (queues : list (list Event)) (g : Game) (w : World) :
  slot g -> Forall slot (run_samples queues g w).
Proof.
  revert g w. induction queues as [|evs rest IH]; intros g w H; [constructor|].
  cbn [run_samples]. destruct (running g); [|constructor].
  destruct (frame_samples_slot evs g w H) as [H1 H2].
  apply Forall_app. split; [exact H1|now apply IH].
Qed.

End SlotInvariant.

(** Every entity the game ever owns has the base radius, so the hit box of C5
    is the hit box of every entity of a run. *)
Lemma owned_radius (sound : bool) (queues : list (list Event)) (w : World) :
  Forall (slot (fun z => Zombie.radius z = ZOMBIE_BASE_RADIUS))
         (run_samples queues (init_game sound) w).
Proof.
  apply run_samples_slot.
  - intros now z H. now rewrite (proj1 (proj2 (proj2 (update_fields now z)))).
  - intros z w0 H. exact H.
  - intros pos w0. reflexivity.
  - constructor.
Qed.

(** The guard of the game loop: a clickable entity is not dead, so the loop
    never calls [register_hit] on a dead entity. *)
Lemma clickable_not_dead (z : Zombie.t) :
  Zombie.is_clickable z = true -> Zombie.state z <> Dead.
Proof. intros H. apply is_clickable_iff in H as [[H|H] _]; congruence. Qed.

(** Along the frames through which the slot stays occupied, the owned entity
    keeps its identity: it is the same entity. *)
Lemma handle_event_identity (ev : Event) (g : Game) (w : World) :
  option_map identity (zombie (eval (handle_event ev g) w)) =
  option_map identity (zombie g).
Proof.
  unfold eval. destruct ev as [|key|button pos|]; cbn [handle_event];
    try reflexivity.
  - destruct (key =? K_ESCAPE); [reflexivity|].
    destruct ((key =? K_m) && sound_supported g); reflexivity.
  - destruct (button =? 1); [|reflexivity].
    destruct (zombie g) as [z|] eqn:Hz; [|cbn; now rewrite Hz].
    destruct (Zombie.is_clickable z && Zombie.hit_test z pos).
    + rewrite run_bind, run_ret. reflexivity.
    + destruct (Zombie.state z); cbn; now rewrite Hz.
Qed.

Lemma handle_events_identity (evs : list Event) (g : Game) (w : World) :
  option_map identity (zombie (eval (handle_events evs g) w)) =
  option_map identity (zombie g).
Proof.
  revert g w. induction evs as [|ev evs IH]; intros g w; [reflexivity|].
  rewrite eval_handle_events_cons, IH. apply handle_event_identity.
Qed.

Lemma update_identity (now : Z) (z : Zombie.t) :
  identity (Zombie.update now z) = identity z.
Proof.
  unfold identity.
  destruct (update_fields now z) as (-> & -> & -> & -> & ->). reflexivity.
Qed.

Lemma update_logic_zombie (now : Z) (g : Game) (w : World) :
  zombie (eval (update_logic now g) w) =
  match zombie g with
  | Some z =>
      match Zombie.state (Zombie.update now z) with
      | Dead => None
      | _ => Some (Zombie.update now z)
      end
  | None => None
  end.
Proof.
  unfold eval, update_logic. destruct (zombie g) as [z|] eqn:Hz; [|exact Hz].
  destruct (Zombie.state (Zombie.update now z));
    rewrite ?run_bind, ?run_ret; reflexivity.
Qed.

Lemma frame_identity (evs : list Event) (g : Game) (w : World) :
  occupied g = true -> occupied (eval (frame evs g) w) = true ->
  option_map identity (zombie (eval (frame evs g) w)) =
  option_map identity (zombie g).
Proof.
  intros Ho. rewrite eval_frame. cbn zeta.
  pose proof (handle_events_budget evs g (exec get_ticks w)) as H.
  cbn zeta in H. destruct H as (_ & _ & H & _). rewrite Ho in H.
  rewrite eval_spawn_occupied, exec_spawn_occupied by exact H.
  rewrite <- (handle_events_identity evs g (exec get_ticks w)).
  unfold occupied. rewrite update_logic_zombie.
  destruct (zombie (eval (handle_events evs g) (exec get_ticks w))) as [z|];
    [|discriminate].
  destruct (Zombie.state (Zombie.update (eval get_ticks w) z));
    try discriminate; intros _; cbn [option_map]; now rewrite update_identity.
Qed.

Lemma kept_identity (queues : list (list Event)) (g : Game) (w : World) :
  kept queues g w = true ->
  option_map identity (zombie (eval (main_loop queues g) w)) =
  option_map identity (zombie g).
Proof.
  revert g w. induction queues as [|evs rest IH]; intros g w H; [reflexivity|].
  cbn [kept] in H. unfold eval. cbn [main_loop].
  destruct (zombie g) as [z|] eqn:Hz; [|discriminate].
  destruct (running g); [|cbn; now rewrite Hz].
  rewrite run_bind. pose proof (IH _ _ H) as H1. unfold eval in H1 at 1.
  rewrite H1, <- Hz. apply frame_identity.
  - unfold occupied. now rewrite Hz.
  - destruct rest; cbn [kept] in H; unfold occupied;
      destruct (zombie (eval (frame evs g) w)); congruence.
Qed.

(** ** C7: the spawn scheduler *)

Lemma randint_range (a b : Z) (w : World) :
  a <= b -> a <= eval (randint a b) w <= b.
Proof.
  intros H. unfold eval, randint. rewrite run_bind, run_ret. cbn [fst].
  pose proof (Z.mod_pos_bound (Z.of_nat (eval next_draw w)) (b - a + 1)).
  lia.
Qed.

Lemma choice_In {A : Type} (d : A) (seq : list A) (w : World) :
  seq <> [] -> In (eval (choice d seq) w) seq.
Proof.
  intros H. unfold eval, choice. rewrite run_bind, run_ret. cbn [fst].
  apply nth_In, Nat.mod_upper_bound. destruct seq; [congruence|discriminate].
Qed.

Lemma SPAWN_POINTS_NoDup : NoDup SPAWN_POINTS.
Proof.
  unfold SPAWN_POINTS.
  repeat (constructor;
          [cbn; intros H;
           repeat (destruct H as [H|H]; [discriminate H|]); exact H|]).
  constructor.
Qed.

Lemma spawn_logic_creates (now : Z) (g : Game) (w : World) :
  zombie g = None -> next_spawn_time g <= now ->
  zombie (eval (spawn_logic now g) w) =
  Some (Zombie.mk
          (fst (nth (draws w (draw_ix w) mod length SPAWN_POINTS)
                    SPAWN_POINTS (0, 0)))
          (snd (nth (draws w (draw_ix w) mod length SPAWN_POINTS)
                    SPAWN_POINTS (0, 0)))
          ZOMBIE_BASE_RADIUS (ticks w (tick_ix w))
          (SPAWN_MIN_MS + Z.of_nat (draws w (S (draw_ix w)))
                          mod (SPAWN_MAX_MS - SPAWN_MIN_MS + 1))
          Spawning false (ticks w (tick_ix w))).
Proof.
  intros Hz Hn. unfold eval, spawn_logic. rewrite Hz.
  apply Z.leb_le in Hn. rewrite Hn. reflexivity.
Qed.

(** *** Uniform draws *)

Lemma count_app {A : Type} (f : A -> bool) (l1 l2 : list A) :
  count f (l1 ++ l2) = (count f l1 + count f l2)%nat.
Proof. unfold count. now rewrite filter_app, length_app. Qed.

Lemma count_ext_in {A : Type} (f g : A -> bool) (l : list A) :
  (forall a, In a l -> f a = g a) -> count f l = count g l.
Proof. intros H. unfold count. now rewrite (filter_ext_in f g l H). Qed.

Lemma count_map {A B : Type} (h : A -> B) (f : B -> bool) (l : list A) :
  count f (map h l) = count (fun a => f (h a)) l.
Proof.
  unfold count. induction l as [|a l IH]; [reflexivity|].
  cbn. destruct (f (h a)); cbn; now rewrite IH.
Qed.

Lemma count_true {A : Type} (l : list A) : count (fun _ => true) l = length l.
Proof. unfold count. induction l; cbn; congruence. Qed.

Lemma count_false {A : Type} (l : list A) : count (fun _ => false) l = 0%nat.
Proof. unfold count. induction l; cbn; congruence. Qed.

Lemma count_cons {A : Type} (f : A -> bool) (a : A) (l : list A) :
  count f (a :: l) = ((if f a then 1 else 0) + count f l)%nat.
Proof. unfold count. cbn [filter]. destruct (f a); reflexivity. Qed.

Lemma count_prod {A B : Type} (f : A -> bool) (g : B -> bool)
  (l1 : list A) (l2 : list B) :
  count (fun ab => f (fst ab) && g (snd ab)) (list_prod l1 l2)
  = (count f l1 * count g l2)%nat.
Proof.
  induction l1 as [|a l1 IH]; [reflexivity|].
  cbn [list_prod]. rewrite count_app, IH, count_map, count_cons.
  cbn [fst snd]. destruct (f a); cbn [andb].
  - change (fun b : B => g b) with g. lia.
  - rewrite count_false. lia.
Qed.

Lemma seq_add (a s len : nat) :
  seq (a + s) len = map (fun r => (a + r)%nat) (seq s len).
Proof.
  revert s. induction len as [|len IH]; intros s; [reflexivity|].
  cbn [seq map]. f_equal. rewrite <- IH. f_equal. lia.
Qed.

(** Reducing a uniform draw modulo a divisor of its range keeps it uniform. *)
Lemma count_mod (h : nat -> bool) (n k : nat) :
  n <> 0%nat ->
  count (fun r => h (r mod n)%nat) (seq 0 (k * n)) = (k * count h (seq 0 n))%nat.
Proof.
  intros Hn. induction k as [|k IH]; [reflexivity|].
  cbn [Nat.mul]. rewrite seq_app, count_app. cbn [Nat.add].
  replace (seq n (k * n)) with (seq (n + 0) (k * n)) by (f_equal; lia).
  rewrite seq_add, count_map. f_equal.
  - apply count_ext_in. intros r Hr. apply in_seq in Hr.
    rewrite Nat.mod_small by lia. reflexivity.
  - rewrite <- IH. apply count_ext_in. intros r _.
    replace (n + r)%nat with (r + 1 * n)%nat by lia.
    rewrite Nat.Div0.mod_add. reflexivity.
Qed.

Lemma count_eqb (j s len : nat) :
  (s <= j < s + len)%nat -> count (Nat.eqb j) (seq s len) = 1%nat.
Proof.
  revert s. induction len as [|len IH]; intros s H; [lia|].
  cbn [seq]. rewrite count_cons. destruct (Nat.eqb_spec j s) as [E|E].
  - rewrite (count_ext_in _ (fun _ => false)); [now rewrite count_false|].
    intros r Hr. apply in_seq in Hr. apply Nat.eqb_neq. lia.
  - rewrite IH by lia. reflexivity.
Qed.

Lemma ratio_eq (a b c d : Z) :
  0 < b -> 0 < d -> a * d = c * b ->
  (inject_Z a / inject_Z b == inject_Z c / inject_Z d)%Q.
Proof.
  intros Hb Hd H.
  assert (Nb : ~ (inject_Z b == 0)%Q) by (unfold Qeq, inject_Z; cbn [Qnum Qden]; lia).
  assert (Nd : ~ (inject_Z d == 0)%Q) by (unfold Qeq, inject_Z; cbn [Qnum Qden]; lia).
  assert (E : (inject_Z a * inject_Z d == inject_Z c * inject_Z b)%Q)
    by (rewrite <- !inject_Z_mult, H; reflexivity).
  transitivity (inject_Z a * inject_Z d / (inject_Z b * inject_Z d))%Q.
  - field. split; assumption.
  - rewrite E. field. split; assumption.
Qed.

Lemma spawn_logic_drawing (now : Z) (g : Game) (w : World) (i j : nat) :
  zombie g = None -> next_spawn_time g <= now ->
  zombie (eval (spawn_logic now g) (drawing i j w)) =
  Some (Zombie.mk
          (fst (nth (i mod length SPAWN_POINTS) SPAWN_POINTS (0, 0)))
          (snd (nth (i mod length SPAWN_POINTS) SPAWN_POINTS (0, 0)))
          ZOMBIE_BASE_RADIUS (ticks w (tick_ix w))
          (SPAWN_MIN_MS + Z.of_nat j mod (SPAWN_MAX_MS - SPAWN_MIN_MS + 1))
          Spawning false (ticks w (tick_ix w))).
Proof.
  intros Hz Hn. rewrite (spawn_logic_creates now g _ Hz Hn).
  cbn [drawing draws draw_ix ticks tick_ix]. rewrite Nat.eqb_refl.
  replace (S (draw_ix w) =? draw_ix w)%nat with false
    by (symmetry; apply Nat.eqb_neq; lia).
  rewrite Nat.eqb_refl. reflexivity.
Qed.

(** An event decided by the point index and the lifetime offset drawn. *)
Lemma probability_of_draws (k : nat) (event : World -> bool) (w : World)
  (F G : nat -> bool) :
  (0 < k)%nat ->
  (forall i j, event (drawing i j w) = F (i mod 12)%nat && G (j mod 701)%nat) ->
  (probability (k * (12 * 701)) event w ==
   inject_Z (Z.of_nat (count F (seq 0 12) * count G (seq 0 701)))
   / inject_Z (Z.of_nat (12 * 701)))%Q.
Proof.
  intros Hk He. unfold probability. cbv zeta.
  rewrite length_prod, !length_seq.
  set (n := (k * (12 * 701))%nat).
  rewrite (count_ext_in _ (fun ij => F (fst ij mod 12)%nat
                                     && G (snd ij mod 701)%nat))
    by (intros [i j] _; apply He).
  pose proof (count_prod (fun i => F (i mod 12)%nat) (fun j => G (j mod 701)%nat)
                (seq 0 n) (seq 0 n)) as CP.
  cbn beta in CP. rewrite CP. clear CP.
  assert (C1 : count (fun i => F (i mod 12)%nat) (seq 0 n)
               = (k * 701 * count F (seq 0 12))%nat).
  { replace n with (k * 701 * 12)%nat by (subst n; lia).
    apply count_mod. discriminate. }
  assert (C2 : count (fun j => G (j mod 701)%nat) (seq 0 n)
               = (k * 12 * count G (seq 0 701))%nat).
  { replace n with (k * 12 * 701)%nat by (subst n; lia).
    apply count_mod. discriminate. }
  rewrite C1, C2. apply ratio_eq; [subst n; lia|lia|].
  subst n. generalize (count F (seq 0 12)) (count G (seq 0 701)). intros cF cG.
  clear C1 C2.
  rewrite !Nat2Z.inj_mul. change (Z.of_nat 12) with 12. change (Z.of_nat 701) with 701.
  ring.
Qed.

Lemma count_spawn_point (p : Z * Z) :
  In p SPAWN_POINTS ->
  count (fun i => (fst (nth i SPAWN_POINTS (0, 0)) =? fst p)
                  && (snd (nth i SPAWN_POINTS (0, 0)) =? snd p))
        (seq 0 12) = 1%nat.
Proof.
  intros Hin. cbn in Hin.
  repeat (destruct Hin as [<-|Hin]; [vm_compute; reflexivity|]).
  contradiction.
Qed.

Lemma count_lifetime (life : Z) :
  SPAWN_MIN_MS <= life <= SPAWN_MAX_MS ->
  count (fun j => SPAWN_MIN_MS + Z.of_nat j =? life) (seq 0 701) = 1%nat.
Proof.
  unfold SPAWN_MIN_MS, SPAWN_MAX_MS. intros H.
  rewrite (count_ext_in _ (Nat.eqb (Z.to_nat (life - 800)))).
  - apply count_eqb. lia.
  - intros j _. destruct (Z.eqb_spec (800 + Z.of_nat j) life) as [E|E];
      symmetry; [apply Nat.eqb_eq|apply Nat.eqb_neq]; lia.
Qed.

Lemma spawn_uniform (now : Z) (g : Game) (w : World) (p : Z * Z) (life : Z)
  (k : nat) :
  zombie g = None -> next_spawn_time g <= now ->
  In p SPAWN_POINTS -> SPAWN_MIN_MS <= life <= SPAWN_MAX_MS -> (0 < k)%nat ->
  let n := (k * (length SPAWN_POINTS
                 * Z.to_nat (SPAWN_MAX_MS - SPAWN_MIN_MS + 1)))%nat in
  (probability n (spawns_at now g p) w
   == 1 / inject_Z (Z.of_nat (length SPAWN_POINTS)))%Q /\
  (probability n (spawns_for now g life) w
   == 1 / inject_Z (SPAWN_MAX_MS - SPAWN_MIN_MS + 1))%Q /\
  (probability n (fun w' => spawns_at now g p w' && spawns_for now g life w') w
   == probability n (spawns_at now g p) w
      * probability n (spawns_for now g life) w)%Q.
Proof.
  intros Hz Hn Hp Hl Hk. cbv zeta.
  change (length SPAWN_POINTS) with 12%nat.
  change (Z.to_nat (SPAWN_MAX_MS - SPAWN_MIN_MS + 1)) with 701%nat.
  change (SPAWN_MAX_MS - SPAWN_MIN_MS + 1) with 701.
  pose proof (count_spawn_point p Hp) as CP.
  pose proof (count_lifetime life Hl) as CL.
  assert (Mod : forall j, Z.of_nat j mod 701 = Z.of_nat (j mod 701))
    by (intros j; rewrite Nat2Z.inj_mod; reflexivity).
  assert (P1 : (probability (k * (12 * 701)) (spawns_at now g p) w == 1 # 12)%Q).
  { rewrite (probability_of_draws k _ w
               (fun i => (fst (nth i SPAWN_POINTS (0, 0)) =? fst p)
                         && (snd (nth i SPAWN_POINTS (0, 0)) =? snd p))
               (fun _ => true) Hk).
    - rewrite CP, count_true. reflexivity.
    - intros i j. unfold spawns_at.
      rewrite (spawn_logic_drawing now g w i j Hz Hn).
      cbn [Zombie.x Zombie.y]. rewrite andb_true_r. reflexivity. }
  assert (P2 : (probability (k * (12 * 701)) (spawns_for now g life) w
                == 1 # 701)%Q).
  { rewrite (probability_of_draws k _ w (fun _ => true)
               (fun j => SPAWN_MIN_MS + Z.of_nat j =? life) Hk).
    - rewrite CL, count_true. reflexivity.
    - intros i j. unfold spawns_for.
      rewrite (spawn_logic_drawing now g w i j Hz Hn).
      cbn [Zombie.lifetime_ms andb].
      change (SPAWN_MAX_MS - SPAWN_MIN_MS + 1) with 701. rewrite Mod.
      reflexivity. }
  split; [rewrite P1; reflexivity|]. split; [rewrite P2; reflexivity|].
  rewrite P1, P2.
  rewrite (probability_of_draws k _ w
             (fun i => (fst (nth i SPAWN_POINTS (0, 0)) =? fst p)
                       && (snd (nth i SPAWN_POINTS (0, 0)) =? snd p))
             (fun j => SPAWN_MIN_MS + Z.of_nat j =? life) Hk).
  - rewrite CP, CL. reflexivity.
  - intros i j. unfold spawns_at, spawns_for.
    rewrite (spawn_logic_drawing now g w i j Hz Hn).
    cbn [Zombie.x Zombie.y Zombie.lifetime_ms].
    change (SPAWN_MAX_MS - SPAWN_MIN_MS + 1) with 701. rewrite Mod.
    reflexivity.
Qed.

(** C7. The spawn-point set holds at least 6 distinct points.  The spawn logic
    creates an entity exactly when the slot is empty and [now >=
    next_spawn_time] (otherwise it changes nothing and draws nothing); the new
    entity is spawning, unhit, placed at a member of the set drawn by
    [random.choice], with a lifetime drawn by [random.randint] in the closed
    interval [800, 1500]; every point of the set and every lifetime of the
    interval can be drawn.  The position and the lifetime are uniformly
    random: when the raw draws of the generator are independent and uniform
    (on a range that the two reductions divide), each point of the set is
    drawn with probability 1/12, each lifetime of the interval with
    probability 1/701, and the two are independent.  The events of a frame
    change neither the occupancy of the slot nor [next_spawn_time], so the
    condition is the one at the start of the frame.  When the update leaves
    the owned entity dead, the slot is emptied in that same step and
    [next_spawn_time] becomes [now] plus a gap drawn in [220, 520]. *)
Theorem spawn_scheduler :
  (NoDup SPAWN_POINTS /\ (6 <= length SPAWN_POINTS)%nat) /\
  (forall now g w,
     let g' := eval (spawn_logic now g) w in
     match zombie g with
     | None =>
         if next_spawn_time g <=? now then
           exists z, zombie g' = Some z /\
             z = eval (Zombie.init (eval (choice (0, 0) SPAWN_POINTS) w))
                      (exec (choice (0, 0) SPAWN_POINTS) w) /\
             In (Zombie.x z, Zombie.y z) SPAWN_POINTS /\
             SPAWN_MIN_MS <= Zombie.lifetime_ms z <= SPAWN_MAX_MS /\
             Zombie.state z = Spawning /\ Zombie.hit_registered z = false
         else g' = g /\ exec (spawn_logic now g) w = w
     | Some _ => g' = g /\ exec (spawn_logic now g) w = w
     end) /\
  (forall now g w p life,
     zombie g = None -> next_spawn_time g <= now ->
     In p SPAWN_POINTS -> SPAWN_MIN_MS <= life <= SPAWN_MAX_MS ->
     exists i j z,
       zombie (eval (spawn_logic now g) (drawing i j w)) = Some z /\
       (Zombie.x z, Zombie.y z) = p /\ Zombie.lifetime_ms z = life) /\
  (forall now g w p life k,
     zombie g = None -> next_spawn_time g <= now ->
     In p SPAWN_POINTS -> SPAWN_MIN_MS <= life <= SPAWN_MAX_MS ->
     (0 < k)%nat ->
     let n := (k * (length SPAWN_POINTS
                    * Z.to_nat (SPAWN_MAX_MS - SPAWN_MIN_MS + 1)))%nat in
     (probability n (spawns_at now g p) w
      == 1 / inject_Z (Z.of_nat (length SPAWN_POINTS)))%Q /\
     (probability n (spawns_for now g life) w
      == 1 / inject_Z (SPAWN_MAX_MS - SPAWN_MIN_MS + 1))%Q /\
     (probability n
        (fun w' => spawns_at now g p w' && spawns_for now g life w') w
      == probability n (spawns_at now g p) w
         * probability n (spawns_for now g life) w)%Q) /\
  (forall evs g w,
     occupied (eval (handle_events evs g) w) = occupied g /\
     next_spawn_time (eval (handle_events evs g) w) = next_spawn_time g) /\
  (forall now g w z,
     zombie g = Some z -> Zombie.state (Zombie.update now z) = Dead ->
     let g' := eval (update_logic now g) w in
     zombie g' = None /\
     next_spawn_time g' = now + eval (randint 220 520) w /\
     220 <= eval (randint 220 520) w <= 520).
Proof.
  split; [split; [exact SPAWN_POINTS_NoDup|cbn; lia]|].
  split; [|split; [|split; [|split]]].
  - intros now g w. cbn zeta. unfold spawn_logic.
    destruct (zombie g) as [z0|] eqn:Hz; [split; reflexivity|].
    destruct (next_spawn_time g <=? now); [|split; reflexivity].
    eexists. split; [unfold eval at 1; rewrite !run_bind, run_ret; reflexivity|].
    split; [reflexivity|].
    pose proof (choice_In (0, 0) SPAWN_POINTS w) as Hin.
    destruct (eval (choice (0, 0) SPAWN_POINTS) w) as [px py] eqn:Hp.
    split; [apply Hin; discriminate|].
    split; [|split; reflexivity].
    unfold eval, Zombie.init. rewrite !run_bind, run_ret. cbn [fst Zombie.lifetime_ms].
    apply randint_range. unfold SPAWN_MIN_MS, SPAWN_MAX_MS. lia.
  - intros now g w p life Hz Hn Hin Hl.
    destruct (In_nth _ _ (0, 0) Hin) as (i & Hi & Hp).
    exists i, (Z.to_nat (life - SPAWN_MIN_MS)). eexists.
    split; [apply (spawn_logic_creates now g _ Hz Hn)|].
    cbn [drawing draws draw_ix Zombie.x Zombie.y Zombie.lifetime_ms].
    rewrite Nat.eqb_refl.
    replace (S (draw_ix w) =? draw_ix w)%nat with false
      by (symmetry; apply Nat.eqb_neq; lia).
    rewrite Nat.eqb_refl, Nat.mod_small by exact Hi.
    rewrite <- surjective_pairing. split; [exact Hp|].
    unfold SPAWN_MIN_MS, SPAWN_MAX_MS in *.
    rewrite Z2Nat.id, Z.mod_small; lia.
  - intros now g w p life k Hz Hn Hp Hl Hk.
    exact (spawn_uniform now g w p life k Hz Hn Hp Hl Hk).
  - intros evs g w. pose proof (handle_events_budget evs g w) as H.
    cbn zeta in H. tauto.
  - intros now g w z Hz Hd. cbn zeta. unfold eval at 1 2, update_logic.
    rewrite Hz, Hd, run_bind, run_ret. cbn [fst zombie next_spawn_time release].
    split; [reflexivity|]. split; [reflexivity|].
    apply randint_range. lia.
Qed.

Lemma spawn_scheduler_witness :
  let g := mkGame 3 2 (Some (Zombie.mk 150 160 48 0 1000 Despawning true 1000))
                  0 true false true in
  let w := mkWorld (fun _ => 1220) 1 (fun _ => 5%nat) 0 in
  zombie (eval (update_logic 1220 g) w) = None /\
  next_spawn_time (eval (update_logic 1220 g) w) = 1220 + 225 /\
  (exists i j z,
     zombie (eval (spawn_logic 1500 (init_game true)) (drawing i j w))
     = Some z /\
     (Zombie.x z, Zombie.y z) = (700, 500) /\ Zombie.lifetime_ms z = 1500) /\
  (probability (1 * (length SPAWN_POINTS
                     * Z.to_nat (SPAWN_MAX_MS - SPAWN_MIN_MS + 1)))
     (spawns_at 1500 (init_game true) (700, 500)%Z) w
   == 1 / inject_Z (Z.of_nat (length SPAWN_POINTS)))%Q.
Proof.
  destruct spawn_scheduler as (_ & _ & Hs & Hp & _ & Hu).
  destruct (Hu 1220
              (mkGame 3 2
                 (Some (Zombie.mk 150 160 48 0 1000 Despawning true 1000))
                 0 true false true)
              (mkWorld (fun _ => 1220) 1 (fun _ => 5%nat) 0)
              (Zombie.mk 150 160 48 0 1000 Despawning true 1000)
              eq_refl eq_refl) as (H1 & H2 & _).
  assert (Hn : next_spawn_time (init_game true) <= 1500) by (cbn; lia).
  assert (Hin : In (700, 500) SPAWN_POINTS) by (cbn; tauto).
  assert (Hl : SPAWN_MIN_MS <= 1500 <= SPAWN_MAX_MS)
    by (unfold SPAWN_MIN_MS, SPAWN_MAX_MS; lia).
  split; [exact H1|]. split; [exact H2|]. split.
  - exact (Hs 1500 (init_game true)
              (mkWorld (fun _ => 1220) 1 (fun _ => 5%nat) 0) (700, 500) 1500
              eq_refl Hn Hin Hl).
  - exact (proj1 (Hp 1500 (init_game true)
                     (mkWorld (fun _ => 1220) 1 (fun _ => 5%nat) 0)
                     (700, 500) 1500 1%nat eq_refl Hn Hin Hl (le_n 1))).
Defined.

(** ** C10: the first frame spawns *)

Lemma handle_event_empty (ev : Event) (g : Game) (w : World) :
  zombie g = None ->
  exec (handle_event ev g) w = w /\
  zombie (eval (handle_event ev g) w) = None /\
  next_spawn_time (eval (handle_event ev g) w) = next_spawn_time g /\
  hits (eval (handle_event ev g) w) = hits g /\
  misses (eval (handle_event ev g) w) = misses g.
Proof.
  intros Hz. unfold eval, exec.
  destruct ev as [|key|button pos|]; cbn [handle_event]; auto.
  - destruct (key =? K_ESCAPE); auto.
    destruct ((key =? K_m) && sound_supported g); auto.
  - destruct (button =? 1); auto. rewrite Hz. auto.
Qed.

Lemma handle_events_empty (evs : list Event) (g : Game) (w : World) :
  zombie g = None ->
  exec (handle_events evs g) w = w /\
  zombie (eval (handle_events evs g) w) = None /\
  next_spawn_time (eval (handle_events evs g) w) = next_spawn_time g /\
  hits (eval (handle_events evs g) w) = hits g /\
  misses (eval (handle_events evs g) w) = misses g.
Proof.
  revert g. induction evs as [|ev evs IH]; intros g Hz; [auto|].
  rewrite eval_handle_events_cons, exec_handle_events_cons.
  destruct (handle_event_empty ev g w Hz) as (Hw & Hz' & <- & <- & <-).
  rewrite Hw. apply (IH _ Hz').
Qed.

Lemma update_fresh_not_dead (now : Z) (z : Zombie.t) :
  Zombie.state z = Spawning -> Zombie.state (Zombie.update now z) <> Dead.
Proof.
  intros Hs. unfold Zombie.update. rewrite Hs.
  destruct (SPAWN_ANIM_MS <=? now - Zombie.state_time z); cbn;
    rewrite ?Hs; discriminate.
Qed.

Lemma update_logic_keeps (now : Z) (g : Game) (w : World) (z : Zombie.t) :
  zombie g = Some z -> Zombie.state (Zombie.update now z) <> Dead ->
  update_logic now g w = (set_zombie (Some (Zombie.update now z)) g, w).
Proof.
  intros Hz Hd. unfold update_logic. rewrite Hz.
  destruct (Zombie.state (Zombie.update now z)); try reflexivity.
  congruence.
Qed.

(** C10. [next_spawn_time] starts at 0 and the slot starts empty, so with a
    non-negative clock the very first frame iteration creates the first entity:
    after it the game owns an entity placed at a spawn point, whose spawn time
    is the clock reading taken at its creation in that frame. *)
Theorem first_frame_spawns (sound : bool) (evs : list Event) (w : World) :
  0 <= ticks w (tick_ix w) ->
  next_spawn_time (init_game sound) = 0 /\
  zombie (init_game sound) = None /\
  exists z,
    zombie (eval (main_loop [evs] (init_game sound)) w) = Some z /\
    In (Zombie.x z, Zombie.y z) SPAWN_POINTS /\
    Zombie.spawn_time z = ticks w (S (tick_ix w)) /\
    Zombie.hit_registered z = false /\
    (Zombie.state z = Spawning \/ Zombie.state z = Alive).
Proof.
  intros Hnow. split; [reflexivity|]. split; [reflexivity|].
  set (g := init_game sound).
  assert (Hrun : eval (main_loop [evs] g) w = eval (frame evs g) w).
  { unfold eval. cbn [main_loop running g init_game]. rewrite run_bind.
    reflexivity. }
  rewrite Hrun, eval_frame. cbn zeta.
  set (w0 := exec get_ticks w).
  destruct (handle_events_empty evs g w0 eq_refl) as (-> & Hz & Hn & _).
  set (g1 := eval (handle_events evs g) w0) in *.
  set (now := eval get_ticks w).
  assert (Hle : next_spawn_time g1 <= now) by (rewrite Hn; exact Hnow).
  pose proof (spawn_logic_creates now g1 w0 Hz Hle) as Hc.
  set (z := Zombie.mk _ _ _ _ _ _ _ _) in Hc.
  pose proof (update_fresh_not_dead now z eq_refl) as Hd.
  exists (Zombie.update now z).
  unfold eval at 1. rewrite (update_logic_keeps now _ _ z Hc Hd).
  cbn [fst zombie set_zombie].
  destruct (update_fields now z) as (-> & -> & _ & -> & _).
  rewrite update_hit_registered.
  split; [reflexivity|]. split.
  - subst z. cbn [Zombie.x Zombie.y]. rewrite <- surjective_pairing.
    apply nth_In, Nat.mod_upper_bound. discriminate.
  - split; [reflexivity|]. split; [reflexivity|].
    unfold Zombie.update. subst z. cbn [Zombie.state].
    destruct (SPAWN_ANIM_MS <=? _); cbn; auto.
Qed.

Lemma first_frame_spawns_witness :
  let w := mkWorld (fun k => Z.of_nat k) 0 (fun k => (7 * k + 3)%nat) 0 in
  0 <= ticks w (tick_ix w) /\
  exists z,
    zombie (eval (main_loop [[MOUSEBUTTONDOWN 1 (10, 10)]]
                            (init_game true)) w) = Some z /\
    In (Zombie.x z, Zombie.y z) SPAWN_POINTS.
Proof.
  split; [cbn; lia|].
  destruct (first_frame_spawns true [MOUSEBUTTONDOWN 1 (10, 10)]
              (mkWorld (fun k => Z.of_nat k) 0 (fun k => (7 * k + 3)%nat) 0))
    as (_ & _ & z & Hz & Hin & _); [cbn; lia|].
  exists z. split; [exact Hz|exact Hin].
Defined.

(** ** C9: which clock readings a frame depends on *)

Section Agreement.

Variables lo hi : nat.

Lemma get_ticks_agree (wa wb : World) :
  agree lo hi wa wb -> (lo <= tick_ix wa < hi)%nat ->
  eval get_ticks wa = eval get_ticks wb /\
  agree lo hi (exec get_ticks wa) (exec get_ticks wb).
Proof.
  intros (Ht & Hd & Hr & Hc) Hi. unfold eval, exec, get_ticks. cbn.
  split; [rewrite <- Ht; now apply Hc|].
  repeat split; cbn; auto.
Qed.

Lemma next_draw_agree (wa wb : World) :
  agree lo hi wa wb ->
  eval next_draw wa = eval next_draw wb /\
  agree lo hi (exec next_draw wa) (exec next_draw wb) /\
  tick_ix (exec next_draw wa) = tick_ix wa.
Proof.
  intros (Ht & Hd & Hr & Hc). unfold eval, exec, next_draw. cbn.
  split; [rewrite <- Hd; apply Hr|].
  repeat split; cbn; auto.
Qed.

Lemma randint_agree (a b : Z) (wa wb : World) :
  agree lo hi wa wb ->
  eval (randint a b) wa = eval (randint a b) wb /\
  agree lo hi (exec (randint a b) wa) (exec (randint a b) wb) /\
  tick_ix (exec (randint a b) wa) = tick_ix wa.
Proof.
  intros H. destruct (next_draw_agree wa wb H) as (He & Ha & Ht).
  unfold eval, exec, randint in *. rewrite !run_bind, !run_ret. cbn [fst snd].
  unfold eval, exec. rewrite He. auto.
Qed.

Lemma choice_agree {A : Type} (d : A) (seq : list A) (wa wb : World) :
  agree lo hi wa wb ->
  eval (choice d seq) wa = eval (choice d seq) wb /\
  agree lo hi (exec (choice d seq) wa) (exec (choice d seq) wb) /\
  tick_ix (exec (choice d seq) wa) = tick_ix wa.
Proof.
  intros H. destruct (next_draw_agree wa wb H) as (He & Ha & Ht).
  unfold eval, exec, choice in *. rewrite !run_bind, !run_ret. cbn [fst snd].
  unfold eval, exec. rewrite He. auto.
Qed.

Lemma register_hit_agree (z : Zombie.t) (wa wb : World) :
  agree lo hi wa wb -> (lo <= tick_ix wa < hi)%nat ->
  eval (Zombie.register_hit z) wa = eval (Zombie.register_hit z) wb /\
  agree lo hi (exec (Zombie.register_hit z) wa)
              (exec (Zombie.register_hit z) wb) /\
  tick_ix (exec (Zombie.register_hit z) wa) = S (tick_ix wa).
Proof.
  intros H Hi. destruct (get_ticks_agree wa wb H Hi) as (He & Ha).
  unfold eval, exec, Zombie.register_hit in *.
  rewrite !run_bind, !run_ret. cbn [fst snd]. unfold eval, exec.
  rewrite He. auto.
Qed.

Lemma init_agree (pos : Z * Z) (wa wb : World) :
  agree lo hi wa wb -> (lo <= tick_ix wa < hi)%nat ->
  eval (Zombie.init pos) wa = eval (Zombie.init pos) wb /\
  agree lo hi (exec (Zombie.init pos) wa) (exec (Zombie.init pos) wb) /\
  tick_ix (exec (Zombie.init pos) wa) = S (tick_ix wa).
Proof.
  intros H Hi. destruct (get_ticks_agree wa wb H Hi) as (He & Ha).
  destruct (randint_agree SPAWN_MIN_MS SPAWN_MAX_MS _ _ Ha) as (Hr & Ha' & Ht).
  unfold eval, exec, Zombie.init in *.
  rewrite !run_bind, !run_ret. cbn [fst snd]. unfold eval, exec.
  rewrite He, Hr. auto.
Qed.

Lemma handle_event_agree (ev : Event) (g : Game) (wa wb : World) :
  agree lo hi wa wb -> (lo <= tick_ix wa)%nat ->
  (tick_ix wa + reads_left g <= hi)%nat ->
  eval (handle_event ev g) wa = eval (handle_event ev g) wb /\
  agree lo hi (exec (handle_event ev g) wa) (exec (handle_event ev g) wb) /\
  (lo <= tick_ix (exec (handle_event ev g) wa))%nat /\
  (tick_ix (exec (handle_event ev g) wa)
   + reads_left (eval (handle_event ev g) wa) <= hi)%nat.
Proof.
  intros H Hlo Hhi.
  assert (Hsame : forall g', reads_left g' = reads_left g ->
            eval (ret g') wa = eval (ret g') wb /\
            agree lo hi (exec (ret g') wa) (exec (ret g') wb) /\
            (lo <= tick_ix (exec (ret g') wa))%nat /\
            (tick_ix (exec (ret g') wa) + reads_left (eval (ret g') wa)
             <= hi)%nat).
  { intros g' Hg. cbn. rewrite Hg. auto. }
  destruct ev as [|key|button pos|]; cbn [handle_event];
    try (apply Hsame; reflexivity).
  - destruct (key =? K_ESCAPE); [apply Hsame; reflexivity|].
    destruct ((key =? K_m) && sound_supported g); apply Hsame; reflexivity.
  - destruct (button =? 1); [|apply Hsame; reflexivity].
    destruct (zombie g) as [z|] eqn:Hz; [|apply Hsame; reflexivity].
    destruct (Zombie.is_clickable z && Zombie.hit_test z pos) eqn:Hc.
    + apply andb_true_iff in Hc as [Hc _].
      unfold reads_left in Hhi. rewrite Hz, Hc in Hhi.
      destruct (register_hit_agree z wa wb H) as (He & Ha & Ht); [lia|].
      unfold eval, exec in *. rewrite !run_bind, !run_ret. cbn [fst snd].
      unfold eval, exec. rewrite He. split; [reflexivity|].
      split; [exact Ha|]. rewrite Ht. cbn. lia.
    + destruct (Zombie.state z); apply Hsame; unfold reads_left; cbn;
        rewrite Hz; reflexivity.
Qed.

Lemma handle_events_agree (evs : list Event) (g : Game) (wa wb : World) :
  agree lo hi wa wb -> (lo <= tick_ix wa)%nat ->
  (tick_ix wa + reads_left g <= hi)%nat ->
  eval (handle_events evs g) wa = eval (handle_events evs g) wb /\
  agree lo hi (exec (handle_events evs g) wa) (exec (handle_events evs g) wb) /\
  (lo <= tick_ix (exec (handle_events evs g) wa))%nat /\
  (tick_ix (exec (handle_events evs g) wa)
   + reads_left (eval (handle_events evs g) wa) <= hi)%nat.
Proof.
  revert g wa wb. induction evs as [|ev evs IH]; intros g wa wb H Hlo Hhi.
  - cbn. auto.
  - rewrite !eval_handle_events_cons, !exec_handle_events_cons.
    destruct (handle_event_agree ev g wa wb H Hlo Hhi) as (He & Ha & Hl & Hh).
    rewrite <- He. apply IH; assumption.
Qed.

Lemma spawn_logic_agree (now : Z) (g : Game) (wa wb : World) :
  agree lo hi wa wb -> (lo <= tick_ix wa)%nat ->
  (tick_ix wa + reads_left g <= hi)%nat ->
  eval (spawn_logic now g) wa = eval (spawn_logic now g) wb /\
  agree lo hi (exec (spawn_logic now g) wa) (exec (spawn_logic now g) wb) /\
  (tick_ix (exec (spawn_logic now g) wa) <= hi)%nat.
Proof.
  intros H Hlo Hhi. unfold spawn_logic.
  assert (Hsame : eval (ret g) wa = eval (ret g) wb /\
            agree lo hi (exec (ret g) wa) (exec (ret g) wb) /\
            (tick_ix (exec (ret g) wa) <= hi)%nat).
  { cbn. split; [reflexivity|]. split; [exact H|lia]. }
  destruct (zombie g) as [z|] eqn:Hz; [exact Hsame|].
  destruct (next_spawn_time g <=? now); [|exact Hsame].
  unfold reads_left in Hhi. rewrite Hz in Hhi.
  destruct (choice_agree (0, 0) SPAWN_POINTS wa wb H) as (Hp & Ha & Ht).
  destruct (init_agree (eval (choice (0, 0) SPAWN_POINTS) wa) _ _ Ha)
    as (Hi & Ha' & Ht'); [lia|].
  unfold eval, exec in *. rewrite !run_bind, !run_ret. cbn [fst snd].
  unfold eval, exec. rewrite <- Hp, Hi. split; [reflexivity|].
  split; [exact Ha'|]. rewrite Ht', Ht. lia.
Qed.

Lemma update_logic_agree (now : Z) (g : Game) (wa wb : World) :
  agree lo hi wa wb ->
  eval (update_logic now g) wa = eval (update_logic now g) wb /\
  tick_ix (exec (update_logic now g) wa) = tick_ix wa.
Proof.
  intros H. unfold update_logic.
  destruct (zombie g) as [z|]; [|cbn; auto].
  destruct (Zombie.state (Zombie.update now z)); try solve [cbn; auto].
  destruct (randint_agree 220 520 wa wb H) as (Hr & _ & Ht).
  unfold eval, exec in *. rewrite !run_bind, !run_ret. cbn [fst snd].
  unfold eval, exec. rewrite Hr. auto.
Qed.

End Agreement.

Lemma reads_left_le (g : Game) : (reads_left g <= 1)%nat.
Proof.
  unfold reads_left.
  destruct (zombie g) as [z|]; [destruct (Zombie.is_clickable z)|]; lia.
Qed.

(** C9, as the code has it.  In a frame the transitions of [update], the spawn
    condition and [next_spawn_time] are computed from the reading [now] taken
    at the start of the frame, but [register_hit] and [Zombie.__init__] read
    the clock again.  A frame reads the clock at most twice, and two runs
    that agree on the event queue, on the random draws, on the reading at the
    start of the frame and on the reading after it end the frame in the same
    state, whatever the later readings are. *)
Theorem frame_reads_clock_twice
  (evs : list Event) (g : Game) (wa wb : World) :
  tick_ix wa = tick_ix wb -> draw_ix wa = draw_ix wb ->
  (forall k, draws wa k = draws wb k) ->
  ticks wa (tick_ix wa) = ticks wb (tick_ix wb) ->
  ticks wa (S (tick_ix wa)) = ticks wb (S (tick_ix wb)) ->
  eval (frame evs g) wa = eval (frame evs g) wb /\
  (tick_ix (exec (frame evs g) wa) <= tick_ix wa + 2)%nat.
Proof.
  intros Ht Hd Hr H0 H1.
  set (lo := tick_ix wa). set (hi := (tick_ix wa + 2)%nat).
  assert (Ha : agree lo hi wa wb).
  { repeat split; auto. intros k Hk.
    assert (Hk' : k = lo \/ k = S lo) by (subst lo hi; lia).
    destruct Hk' as [->| ->]; subst lo; [rewrite Ht at 2|rewrite Ht at 2];
      assumption. }
  destruct (get_ticks_agree lo hi wa wb Ha) as (Hn & Ha0);
    [subst lo hi; lia|].
  assert (Hi0 : tick_ix (exec get_ticks wa) = S lo) by reflexivity.
  pose proof (reads_left_le g) as Hg.
  destruct (handle_events_agree lo hi evs g _ _ Ha0) as (He & Ha1 & Hl1 & Hh1);
    [rewrite Hi0; lia|rewrite Hi0; subst hi lo; lia|].
  destruct (spawn_logic_agree lo hi (eval get_ticks wa)
              (eval (handle_events evs g) (exec get_ticks wa)) _ _ Ha1 Hl1 Hh1)
    as (Hs & Ha2 & Hh2).
  destruct (update_logic_agree lo hi (eval get_ticks wa)
              (eval (spawn_logic (eval get_ticks wa)
                       (eval (handle_events evs g) (exec get_ticks wa)))
                    (exec (handle_events evs g) (exec get_ticks wa))) _ _ Ha2)
    as (Hu & Hi3).
  rewrite !eval_frame, exec_frame. cbn zeta.
  rewrite <- Hn, <- He, <- Hs. split; [exact Hu|].
  rewrite Hi3. exact Hh2.
Qed.

Lemma frame_reads_clock_twice_witness :
  let g := mkGame 0 0 (Some (Zombie.mk 150 160 48 0 1000 Alive false 180))
                  0 true false true in
  let evs := [MOUSEBUTTONDOWN 1 (150, 160); MOUSEBUTTONDOWN 1 (151, 160)] in
  let wa := mkWorld (fun k => 500 + Z.of_nat k) 0 (fun _ => 0%nat) 0 in
  let wb := mkWorld (fun k => 500 + Z.of_nat (Nat.min k 1) + 9 * Z.of_nat (k - 1))
                    0 (fun _ => 0%nat) 0 in
  ticks wa 2 <> ticks wb 2 /\
  eval (frame evs g) wa = eval (frame evs g) wb.
Proof.
  split; [cbn; lia|].
  apply (frame_reads_clock_twice
           [MOUSEBUTTONDOWN 1 (150, 160); MOUSEBUTTONDOWN 1 (151, 160)]
           (mkGame 0 0 (Some (Zombie.mk 150 160 48 0 1000 Alive false 180))
                   0 true false true)
           (mkWorld (fun k => 500 + Z.of_nat k) 0 (fun _ => 0%nat) 0)
           (mkWorld (fun k => 500 + Z.of_nat (Nat.min k 1)
                              + 9 * Z.of_nat (k - 1))
                    0 (fun _ => 0%nat) 0));
    reflexivity.
Defined.

(** C9, as the claim has it, fails: two runs of one frame on the same queue
    (a click on the entity), with the same draws and the same reading 500 at
    the start of the frame, end with different [state_time]s (500 and 503)
    because [register_hit] reads the clock again; and the entity spawned in a
    frame that started at 500 gets the later reading as its [spawn_time]. *)
Lemma later_reading_changes_frame :
  let g := mkGame 0 0 (Some (Zombie.mk 150 160 48 0 1000 Alive false 180))
                  0 true false true in
  let evs := [MOUSEBUTTONDOWN 1 (150, 160)] in
  let wa := mkWorld (fun _ => 500) 0 (fun _ => 0%nat) 0 in
  let wb := mkWorld (fun k => match k with O => 500 | S _ => 503 end)
                    0 (fun _ => 0%nat) 0 in
  (ticks wa (tick_ix wa) = 500 /\ ticks wb (tick_ix wb) = 500) /\
  (draw_ix wa = draw_ix wb /\ draws wa = draws wb) /\
  option_map Zombie.state_time (zombie (eval (frame evs g) wa)) = Some 500 /\
  option_map Zombie.state_time (zombie (eval (frame evs g) wb)) = Some 503 /\
  option_map Zombie.spawn_time
    (zombie (eval (frame [] (init_game true)) wb)) = Some 503.
Proof. vm_compute. repeat split. Qed.

(** ** C6: the life of an entity that is never clicked *)

Lemma main_loop_app (q1 q2 : list (list Event)) (g : Game) (w : World) :
  main_loop (q1 ++ q2) g w =
  main_loop q2 (eval (main_loop q1 g) w) (exec (main_loop q1 g) w).
Proof.
  revert g w. induction q1 as [|evs q1 IH]; intros g w; [reflexivity|].
  unfold eval, exec in *. cbn [app main_loop].
  destruct (running g) eqn:Hr.
  - rewrite !run_bind. apply IH.
  - cbn. destruct q2; cbn [main_loop]; [reflexivity|now rewrite Hr].
Qed.

Lemma quiet_event (ev : Event) (g : Game) (w : World) :
  quiet ev = true ->
  exec (handle_event ev g) w = w /\
  zombie (eval (handle_event ev g) w) = zombie g /\
  hits (eval (handle_event ev g) w) = hits g /\
  misses (eval (handle_event ev g) w) = misses g /\
  next_spawn_time (eval (handle_event ev g) w) = next_spawn_time g /\
  running (eval (handle_event ev g) w) = running g.
Proof.
  unfold eval, exec.
  destruct ev as [|key|button pos|]; cbn [handle_event quiet]; intros H;
    try discriminate; auto 7.
  - destruct (key =? K_ESCAPE); [discriminate|].
    destruct ((key =? K_m) && sound_supported g); cbn; auto 7.
  - destruct (button =? 1); [discriminate|]. cbn; auto 7.
Qed.

Lemma quiet_events (evs : list Event) (g : Game) (w : World) :
  forallb quiet evs = true ->
  exec (handle_events evs g) w = w /\
  zombie (eval (handle_events evs g) w) = zombie g /\
  hits (eval (handle_events evs g) w) = hits g /\
  misses (eval (handle_events evs g) w) = misses g /\
  next_spawn_time (eval (handle_events evs g) w) = next_spawn_time g /\
  running (eval (handle_events evs g) w) = running g.
Proof.
  revert g. induction evs as [|ev evs IH]; intros g H; [cbn; auto 7|].
  cbn [forallb] in H. apply andb_true_iff in H as [H1 H2].
  rewrite eval_handle_events_cons, exec_handle_events_cons.
  destruct (quiet_event ev g w H1) as (Hw & <- & <- & <- & <- & <-).
  rewrite Hw. apply (IH _ H2).
Qed.

(** A frame without click or quit request, on an owned entity: the entity is
    updated with the reading at the start of the frame, and released when
    that leaves it dead. *)
Lemma quiet_frame (evs : list Event) (g : Game) (w : World) (z : Zombie.t) :
  forallb quiet evs = true -> zombie g = Some z ->
  let now := ticks w (tick_ix w) in
  let g' := eval (frame evs g) w in
  hits g' = hits g /\ misses g' = misses g /\ running g' = running g /\
  ticks (exec (frame evs g) w) = ticks w /\
  tick_ix (exec (frame evs g) w) = S (tick_ix w) /\
  match Zombie.state (Zombie.update now z) with
  | Dead => zombie g' = None
  | _ => zombie g' = Some (Zombie.update now z)
  end.
Proof.
  intros Hq Hz. cbn zeta. rewrite eval_frame, exec_frame. cbn zeta.
  destruct (quiet_events evs g (exec get_ticks w) Hq)
    as (Hw & Hz1 & Hh & Hm & Hn & Hr).
  rewrite Hw. rewrite Hz in Hz1.
  set (g1 := eval (handle_events evs g) (exec get_ticks w)) in *.
  assert (Ho : occupied g1 = true) by (unfold occupied; now rewrite Hz1).
  rewrite !eval_spawn_occupied, !exec_spawn_occupied by exact Ho.
  change (eval get_ticks w) with (ticks w (tick_ix w)).
  unfold eval, exec, update_logic. rewrite Hz1.
  destruct (Zombie.state (Zombie.update (ticks w (tick_ix w)) z));
    rewrite ?run_bind, ?run_ret; cbn; auto 7.
Qed.

Lemma step_phase (g0 : Game) (w0 : World) (n : nat) (z : Zombie.t)
  (evs : list Event) (g : Game) (w : World) :
  steady g0 w0 n (Some z) g w -> forallb quiet evs = true ->
  let z' := Zombie.update (ticks w0 (tick_ix w0 + n)) z in
  steady g0 w0 (S n)
    (match Zombie.state z' with Dead => None | _ => Some z' end)
    (eval (main_loop [evs] g) w) (exec (main_loop [evs] g) w).
Proof.
  intros (Hz & Hh & Hm & Hr & Ht & Hi) Hq. cbn zeta.
  unfold eval, exec. cbn [main_loop]. rewrite Hr, run_bind, run_ret.
  cbn [fst snd].
  pose proof (quiet_frame evs g w z Hq Hz) as H. cbn zeta in H.
  rewrite Ht, Hi in H. destruct H as (H1 & H2 & H3 & H4 & H5 & H6).
  unfold steady. rewrite H1, H2, H3, H4, H5.
  split; [|repeat split; auto; lia].
  destruct (Zombie.state (Zombie.update (ticks w0 (tick_ix w0 + n)) z));
    exact H6.
Qed.

Lemma stable_phase (g0 : Game) (w0 : World) (z : Zombie.t)
  (queues : list (list Event)) :
  forall (n : nat) (g : Game) (w : World),
  steady g0 w0 n (Some z) g w -> forallb (forallb quiet) queues = true ->
  Zombie.state z <> Dead ->
  (forall k, (k < length queues)%nat ->
     Zombie.update (ticks w0 (tick_ix w0 + n + k)) z = z) ->
  steady g0 w0 (n + length queues) (Some z)
    (eval (main_loop queues g) w) (exec (main_loop queues g) w).
Proof.
  induction queues as [|evs rest IH]; intros n g w Hs Hq Hd Hu.
  - cbn. rewrite Nat.add_0_r. exact Hs.
  - cbn [forallb] in Hq. apply andb_true_iff in Hq as [Hq1 Hq2].
    change (evs :: rest) with ([evs] ++ rest).
    unfold eval, exec. rewrite main_loop_app.
    pose proof (step_phase g0 w0 n z evs g w Hs Hq1) as H1. cbn zeta in H1.
    pose proof (Hu 0%nat) as Hu0. rewrite Nat.add_0_r in Hu0.
    rewrite Hu0 in H1 by (cbn; lia).
    assert (H1' : steady g0 w0 (S n) (Some z)
                    (eval (main_loop [evs] g) w) (exec (main_loop [evs] g) w))
      by (destruct (Zombie.state z); congruence).
    pose proof (IH (S n) _ _ H1' Hq2 Hd) as H2.
    replace (n + length ([evs] ++ rest))%nat with (S n + length rest)%nat
      by (cbn; lia).
    apply H2. intros k Hk.
    replace (tick_ix w0 + S n + k)%nat with (tick_ix w0 + n + S k)%nat by lia.
    apply Hu. cbn. lia.
Qed.

Lemma forallb_readings (P : Z -> bool) (w : World) (off n k : nat) :
  forallb P (readings w off n) = true -> (k < n)%nat ->
  P (ticks w (tick_ix w + off + k)) = true.
Proof.
  intros H Hk. rewrite forallb_forall in H. apply H. unfold readings.
  apply in_map_iff. exists k. split; [reflexivity|]. apply in_seq. lia.
Qed.

Lemma eval_main_loop_app (q1 q2 : list (list Event)) (g : Game) (w : World) :
  eval (main_loop (q1 ++ q2) g) w =
  eval (main_loop q2 (eval (main_loop q1 g) w)) (exec (main_loop q1 g) w).
Proof. unfold eval at 1. now rewrite main_loop_app. Qed.

(** C6. An entity spawned at [t = 0] with a lifetime of 1000 ms, in a run whose
    frames carry no click (and no quit request): it stays spawning while the
    frames start before 180; the first frame that starts at or after 180 makes
    it alive; it stays alive whenever that was, until the frame that starts at
    1000 makes it despawning (the lifetime is counted from the spawn time); it
    stays despawning in the frames before 1220 and the frame that starts at
    1220 finds it dead and releases it.  [hits] and [misses] never change. *)
Theorem unclicked_entity_expires
  (g : Game) (w : World) (pos : Z * Z)
  (qa qb qc : list (list Event)) (qf q1000 q1220 : list Event) :
  let z0 := Zombie.mk (fst pos) (snd pos) ZOMBIE_BASE_RADIUS 0 1000
                      Spawning false 0 in
  let na := length qa in
  let nb := length qb in
  let nc := length qc in
  zombie g = Some z0 -> running g = true ->
  forallb (forallb quiet)
          (qa ++ [qf] ++ qb ++ [q1000] ++ qc ++ [q1220]) = true ->
  forallb (fun t => t <? 180) (readings w 0 na) = true ->
  forallb (fun t => (180 <=? t) && (t <? 1000)) (readings w na (1 + nb))
    = true ->
  readings w (na + 1 + nb) 1 = [1000] ->
  forallb (fun t => (1000 <=? t) && (t <? 1220))
          (readings w (na + 1 + nb + 1) nc) = true ->
  readings w (na + 1 + nb + 1 + nc) 1 = [1220] ->
  let after queues := eval (main_loop queues g) w in
  let alive :=
    Zombie.mk (fst pos) (snd pos) ZOMBIE_BASE_RADIUS 0 1000 Alive false
              (ticks w (tick_ix w + na)) in
  let despawning :=
    Zombie.mk (fst pos) (snd pos) ZOMBIE_BASE_RADIUS 0 1000 Despawning false
              1000 in
  zombie (after qa) = Some z0 /\
  zombie (after (qa ++ [qf])) = Some alive /\
  zombie (after (qa ++ [qf] ++ qb)) = Some alive /\
  zombie (after (qa ++ [qf] ++ qb ++ [q1000])) = Some despawning /\
  zombie (after (qa ++ [qf] ++ qb ++ [q1000] ++ qc)) = Some despawning /\
  zombie (after (qa ++ [qf] ++ qb ++ [q1000] ++ qc ++ [q1220])) = None /\
  Forall (fun g' => hits g' = hits g /\ misses g' = misses g)
    [after qa; after (qa ++ [qf]); after (qa ++ [qf] ++ qb);
     after (qa ++ [qf] ++ qb ++ [q1000]);
     after (qa ++ [qf] ++ qb ++ [q1000] ++ qc);
     after (qa ++ [qf] ++ qb ++ [q1000] ++ qc ++ [q1220])].
Proof.
  intros z0 na nb nc Hz Hr Hq Ha Hb H1000 Hc H1220 after alive despawning.
  rewrite !forallb_app in Hq. cbn [forallb] in Hq.
  rewrite !andb_true_iff in Hq.
  destruct Hq as (Hqa & (Hqf & _) & Hqb & (Hq1 & _) & Hqc & (Hq2 & _)).
  (* the readings at the start of the frames *)
  assert (Tb : forall k, (k < 1 + nb)%nat ->
             180 <= ticks w (tick_ix w + na + k) < 1000).
  { intros k Hk. pose proof (forallb_readings _ w na (1 + nb) k Hb Hk) as H.
    cbn beta in H. apply andb_true_iff in H as [H H']. lia. }
  assert (T1000 : ticks w (tick_ix w + (na + 1 + nb)) = 1000).
  { unfold readings in H1000. cbn in H1000. injection H1000 as H.
    rewrite Nat.add_0_r in H. exact H. }
  assert (T1220 : ticks w (tick_ix w + (na + 1 + nb + 1 + nc)) = 1220).
  { unfold readings in H1220. cbn in H1220. injection H1220 as H.
    rewrite Nat.add_0_r in H. exact H. }
  (* phase by phase *)
  assert (S0 : steady g w 0 (Some z0) g w).
  { unfold steady. rewrite Nat.add_0_r. auto 7. }
  pose proof (stable_phase g w z0 qa 0 g w S0 Hqa) as Sa.
  cbn [Nat.add] in Sa. fold na in Sa.
  specialize (Sa ltac:(discriminate)).
  assert (Ua : forall k, (k < na)%nat ->
             Zombie.update (ticks w (tick_ix w + 0 + k)) z0 = z0).
  { intros k Hk. pose proof (forallb_readings _ w 0 na k Ha Hk) as H.
    cbn beta in H. apply Z.ltb_lt in H. unfold Zombie.update. cbn.
    match goal with |- context [?a <=? ?b] => destruct (Z.leb_spec a b) end;
      [unfold SPAWN_ANIM_MS in *; lia|reflexivity]. }
  specialize (Sa Ua).
  set (ga := eval (main_loop qa g) w) in *.
  set (wa := exec (main_loop qa g) w) in *.
  pose proof (step_phase g w na z0 qf ga wa Sa Hqf) as Sf. cbn zeta in Sf.
  assert (Uf : Zombie.update (ticks w (tick_ix w + na)) z0 = alive).
  { pose proof (Tb 0%nat ltac:(lia)) as H. rewrite Nat.add_0_r in H.
    unfold Zombie.update. cbn.
    match goal with |- context [?a <=? ?b] => destruct (Z.leb_spec a b) end;
      [reflexivity|unfold SPAWN_ANIM_MS in *; lia]. }
  rewrite Uf in Sf. cbn [Zombie.state alive] in Sf.
  set (gf := eval (main_loop [qf] ga) wa) in *.
  set (wf := exec (main_loop [qf] ga) wa) in *.
  pose proof (stable_phase g w alive qb (S na) gf wf Sf Hqb) as Sb.
  specialize (Sb ltac:(discriminate)). fold nb in Sb.
  assert (Ub : forall k, (k < nb)%nat ->
             Zombie.update (ticks w (tick_ix w + S na + k)) alive = alive).
  { intros k Hk. pose proof (Tb (S k) ltac:(lia)) as H.
    replace (tick_ix w + na + S k)%nat with (tick_ix w + S na + k)%nat in H
      by lia.
    unfold Zombie.update. cbn.
    match goal with |- context [?a <=? ?b] => destruct (Z.leb_spec a b) end;
      [lia|reflexivity]. }
  specialize (Sb Ub).
  set (gb := eval (main_loop qb gf) wf) in *.
  set (wb := exec (main_loop qb gf) wf) in *.
  pose proof (step_phase g w _ alive q1000 gb wb Sb Hq1) as S1. cbn zeta in S1.
  replace (tick_ix w + (S na + nb))%nat
    with (tick_ix w + (na + 1 + nb))%nat in S1 by lia.
  rewrite T1000 in S1.
  change (Zombie.update 1000 alive) with despawning in S1.
  cbn [Zombie.state despawning] in S1.
  set (g1 := eval (main_loop [q1000] gb) wb) in *.
  set (w1 := exec (main_loop [q1000] gb) wb) in *.
  pose proof (stable_phase g w despawning qc _ g1 w1 S1 Hqc) as Sc.
  specialize (Sc ltac:(discriminate)). fold nc in Sc.
  assert (Uc : forall k, (k < nc)%nat ->
             Zombie.update (ticks w (tick_ix w + S (S na + nb) + k)) despawning
             = despawning).
  { intros k Hk.
    pose proof (forallb_readings _ w (na + 1 + nb + 1) nc k Hc Hk) as H.
    cbn beta in H. apply andb_true_iff in H as [H H'].
    replace (tick_ix w + (na + 1 + nb + 1) + k)%nat
      with (tick_ix w + S (S na + nb) + k)%nat in * by lia.
    generalize dependent (ticks w (tick_ix w + S (S na + nb) + k)).
    intros t H H'. unfold Zombie.update. cbn.
    match goal with |- context [?a <=? ?b] => destruct (Z.leb_spec a b) end;
      [unfold DESPAWN_ANIM_MS in *; lia|reflexivity]. }
  specialize (Sc Uc).
  set (gc := eval (main_loop qc g1) w1) in *.
  set (wc := exec (main_loop qc g1) w1) in *.
  pose proof (step_phase g w _ despawning q1220 gc wc Sc Hq2) as S2.
  cbn zeta in S2.
  replace (tick_ix w + (S (S na + nb) + nc))%nat
    with (tick_ix w + (na + 1 + nb + 1 + nc))%nat in S2 by lia.
  rewrite T1220 in S2.
  change (Zombie.state (Zombie.update 1220 despawning)) with Dead in S2.
  cbv iota in S2.
  set (g2 := eval (main_loop [q1220] gc) wc) in *.
  (* the states after the prefixes of the run *)
  assert (Ea : after qa = ga) by reflexivity.
  assert (Ef : after (qa ++ [qf]) = gf)
    by (unfold after; now rewrite eval_main_loop_app).
  assert (Eb : after (qa ++ [qf] ++ qb) = gb)
    by (unfold after;
        now rewrite !eval_main_loop_app).
  assert (E1 : after (qa ++ [qf] ++ qb ++ [q1000]) = g1)
    by (unfold after;
        now rewrite !eval_main_loop_app).
  assert (Ec : after (qa ++ [qf] ++ qb ++ [q1000] ++ qc) = gc)
    by (unfold after;
        now rewrite !eval_main_loop_app).
  assert (E2 : after (qa ++ [qf] ++ qb ++ [q1000] ++ qc ++ [q1220]) = g2)
    by (unfold after;
        now rewrite !eval_main_loop_app).
  rewrite Ea, Ef, Eb, E1, Ec, E2.
  destruct Sa as (Za & Ha' & Ma & _), Sf as (Zf & Hf' & Mf & _),
           Sb as (Zb & Hb' & Mb & _), S1 as (Z1 & H1' & M1 & _),
           Sc as (Zc & Hc' & Mc & _), S2 as (Z2 & H2' & M2 & _).
  repeat split; try assumption.
  repeat constructor; assumption.
Qed.

Lemma unclicked_entity_expires_witness :
  let w := mkWorld (fun k => nth k [16; 100; 200; 500; 1000; 1100; 1220] 2000)
                   0 (fun _ => 0%nat) 0 in
  let z0 := Zombie.mk 150 160 ZOMBIE_BASE_RADIUS 0 1000 Spawning false 0 in
  let g := mkGame 2 1 (Some z0) 0 true false true in
  let run := [[]; [OTHER]; [KEYDOWN K_m]; [MOUSEBUTTONDOWN 3 (150, 160)];
              []; []; []] in
  zombie g = Some z0 /\
  readings w 0 7 = [16; 100; 200; 500; 1000; 1100; 1220] /\
  zombie (eval (main_loop run g) w) = None /\
  hits (eval (main_loop run g) w) = 2 /\
  misses (eval (main_loop run g) w) = 1.
Proof.
  split; [reflexivity|]. split; [reflexivity|].
  pose proof (unclicked_entity_expires
                (mkGame 2 1
                   (Some (Zombie.mk 150 160 ZOMBIE_BASE_RADIUS 0 1000
                            Spawning false 0)) 0 true false true)
                (mkWorld
                   (fun k => nth k [16; 100; 200; 500; 1000; 1100; 1220] 2000)
                   0 (fun _ => 0%nat) 0)
                (150, 160) [[]; [OTHER]] [[MOUSEBUTTONDOWN 3 (150, 160)]] [[]]
                [KEYDOWN K_m] [] []
                eq_refl eq_refl eq_refl eq_refl eq_refl eq_refl eq_refl eq_refl)
    as H.
  cbn zeta in H. destruct H as (_ & _ & _ & _ & _ & Hz & Hc).
  split; [exact Hz|].
  apply Forall_inv_tail, Forall_inv_tail, Forall_inv_tail, Forall_inv_tail,
        Forall_inv_tail, Forall_inv in Hc.
  exact Hc.
Defined.

(** ** C8: accuracy and the counters *)

Lemma handle_event_counters (ev : Event) (g : Game) (w : World) :
  hits g <= hits (eval (handle_event ev g) w) /\
  misses g <= misses (eval (handle_event ev g) w).
Proof.
  unfold eval. destruct ev as [|key|button pos|]; cbn [handle_event];
    try (cbn; lia).
  - destruct (key =? K_ESCAPE); [cbn; lia|].
    destruct ((key =? K_m) && sound_supported g); cbn; lia.
  - destruct (button =? 1); [|cbn; lia].
    destruct (zombie g) as [z|]; [|cbn; lia].
    destruct (Zombie.is_clickable z && Zombie.hit_test z pos).
    + rewrite run_bind, run_ret. cbn. lia.
    + destruct (Zombie.state z); cbn; lia.
Qed.

Lemma handle_events_counters (evs : list Event) (g : Game) (w : World) :
  hits g <= hits (eval (handle_events evs g) w) /\
  misses g <= misses (eval (handle_events evs g) w).
Proof.
  revert g w. induction evs as [|ev evs IH]; intros g w; [cbn; lia|].
  rewrite eval_handle_events_cons.
  pose proof (handle_event_counters ev g w).
  pose proof (IH (eval (handle_event ev g) w) (exec (handle_event ev g) w)).
  lia.
Qed.

Lemma spawn_logic_counters (now : Z) (g : Game) (w : World) :
  hits (eval (spawn_logic now g) w) = hits g /\
  misses (eval (spawn_logic now g) w) = misses g.
Proof.
  unfold eval, spawn_logic. destruct (zombie g); [cbn; auto|].
  destruct (next_spawn_time g <=? now); [|cbn; auto].
  rewrite !run_bind, run_ret. cbn. auto.
Qed.

Lemma frame_counters (evs : list Event) (g : Game) (w : World) :
  hits g <= hits (eval (frame evs g) w) /\
  misses g <= misses (eval (frame evs g) w).
Proof.
  rewrite eval_frame. cbn zeta.
  pose proof (handle_events_counters evs g (exec get_ticks w)) as H1.
  set (g1 := eval (handle_events evs g) (exec get_ticks w)) in *.
  set (w1 := exec (handle_events evs g) (exec get_ticks w)).
  pose proof (spawn_logic_counters (eval get_ticks w) g1 w1) as [H2 H3].
  pose proof (update_logic_budget (eval get_ticks w)
                (eval (spawn_logic (eval get_ticks w) g1) w1)
                (exec (spawn_logic (eval get_ticks w) g1) w1)) as H4.
  cbn zeta in H4. destruct H4 as (H4 & H5 & _). lia.
Qed.

Lemma main_loop_counters (queues : list (list Event)) (g : Game) (w : World) :
  hits g <= hits (eval (main_loop queues g) w) /\
  misses g <= misses (eval (main_loop queues g) w).
Proof.
  revert g w. induction queues as [|evs rest IH]; intros g w; [cbn; lia|].
  unfold eval. cbn [main_loop]. destruct (running g); [|cbn; lia].
  rewrite run_bind. pose proof (frame_counters evs g w).
  pose proof (IH (eval (frame evs g) w) (exec (frame evs g) w)).
  unfold eval in *. lia.
Qed.

(** *** Rounding to binary64 *)

(** Rounding to an integer moves a number by at most one half. *)
Lemma round_half_even_error (q : Q) :
  (Qabs (inject_Z (round_half_even q) - q) <= 1 # 2)%Q.
Proof.
  unfold round_half_even.
  pose proof (Qfloor_le q) as H1. pose proof (Qlt_floor q) as H2.
  rewrite inject_Z_plus in H2. change (inject_Z 1) with 1%Q in H2.
  apply Qabs_Qle_condition.
  destruct (Qcompare_spec (q - inject_Z (Qfloor q)) (1 # 2)) as [E|E|E].
  - destruct (Z.even (Qfloor q)); rewrite ?inject_Z_plus;
      change (inject_Z 1) with 1%Q; split; Lqa.lra.
  - split; Lqa.lra.
  - rewrite inject_Z_plus. change (inject_Z 1) with 1%Q. split; Lqa.lra.
Qed.

Lemma two_neq_0 : ~ (2 == 0)%Q.
Proof. discriminate. Qed.

Lemma pow2_ratio (a b : Z) :
  0 <= a -> 0 <= b -> (2 ^ (a - b) == (2 ^ a # Z.to_pos (2 ^ b)))%Q.
Proof.
  intros Ha Hb. rewrite (Qpower_minus 2 a b two_neq_0).
  rewrite (Qmake_Qdiv (2 ^ a) (Z.to_pos (2 ^ b))).
  rewrite Z2Pos.id by (apply Z.pow_pos_nonneg; lia).
  rewrite !Zpower_Qpower by assumption. reflexivity.
Qed.

(** [binade q] is the exponent of the power of two at or just below [|q|]. *)
Lemma binade_spec (q : Q) :
  ~ (q == 0)%Q ->
  (2 ^ binade q <= Qabs q)%Q /\ (Qabs q < 2 ^ (binade q + 1))%Q.
Proof.
  intros Hq. unfold binade.
  set (p := Z.abs (Qnum q)). set (d := Z.pos (Qden q)).
  assert (Hp : 0 < p).
  { subst p. destruct q as [n dd]. cbn. unfold Qeq in Hq. cbn in Hq. lia. }
  assert (Ha : Qabs q = (p # Qden q)) by (destruct q; reflexivity).
  pose proof (Z.log2_spec p Hp) as [Lp Up].
  pose proof (Z.log2_spec d ltac:(subst d; lia)) as [Ld Ud].
  pose proof (Z.log2_nonneg p) as Np. pose proof (Z.log2_nonneg d) as Nd.
  set (lp := Z.log2 p) in *. set (ld := Z.log2 d) in *.
  assert (Hlow : (2 ^ (lp - ld - 1) <= Qabs q)%Q).
  { replace (lp - ld - 1) with (lp - (ld + 1)) by lia.
    rewrite pow2_ratio, Ha by lia. unfold Qle. cbn [Qnum Qden].
    rewrite Z2Pos.id by (apply Z.pow_pos_nonneg; lia). fold d.
    replace (Z.succ ld) with (ld + 1) in Ud by lia. nia. }
  assert (Hup : (Qabs q < 2 ^ (lp - ld + 1))%Q).
  { replace (lp - ld + 1) with ((lp + 1) - ld) by lia.
    rewrite pow2_ratio, Ha by lia. unfold Qlt. cbn [Qnum Qden].
    rewrite Z2Pos.id by (apply Z.pow_pos_nonneg; lia). fold d.
    replace (Z.succ lp) with (lp + 1) in Up by lia. nia. }
  destruct (Qle_bool (2 ^ (lp - ld)) (Qabs q)) eqn:E.
  - split; [now apply Qle_bool_iff|exact Hup].
  - split; [exact Hlow|].
    replace (lp - ld - 1 + 1) with (lp - ld) by lia.
    apply Qnot_le_lt. intros H. apply Qle_bool_iff in H. congruence.
Qed.

Lemma pow2_pos (e : Z) : (0 < 2 ^ e)%Q.
Proof. apply Qpower_0_lt. reflexivity. Qed.

Lemma pow2_add (a b : Z) : (2 ^ (a + b) == 2 ^ a * 2 ^ b)%Q.
Proof. apply Qpower_plus. discriminate. Qed.

Lemma pow2_le (a b : Z) : a <= b -> (2 ^ a <= 2 ^ b)%Q.
Proof. intros H. apply Qpower_le_compat_l; [exact H|discriminate]. Qed.

Lemma pow2_lt_inv (a b : Z) : (2 ^ a < 2 ^ b)%Q -> a < b.
Proof.
  intros H. destruct (Z.lt_ge_cases a b) as [|Hge]; [assumption|].
  apply pow2_le in Hge. apply Qle_not_lt in Hge. contradiction.
Qed.

Lemma pow2_Z (n : Z) : 0 <= n -> (inject_Z (2 ^ n) == 2 ^ n)%Q.
Proof. intros H. now rewrite Zpower_Qpower. Qed.

Lemma binade_unique (q : Q) (k : Z) :
  (2 ^ k <= q)%Q -> (q < 2 ^ (k + 1))%Q -> binade q = k.
Proof.
  intros Hl Hu.
  assert (Hpos : (0 < q)%Q) by (eapply Qlt_le_trans; [apply pow2_pos|exact Hl]).
  assert (Hq : ~ (q == 0)%Q).
  { intros E. rewrite E in Hpos. discriminate. }
  destruct (binade_spec q Hq) as [Bl Bu].
  rewrite Qabs_pos in Bl, Bu by now apply Qlt_le_weak.
  assert (binade q < k + 1).
  { apply pow2_lt_inv. eapply Qle_lt_trans; eassumption. }
  assert (k < binade q + 1).
  { apply pow2_lt_inv. eapply Qle_lt_trans; eassumption. }
  lia.
Qed.

Lemma pow2_neq_0 (e : Z) : ~ (2 ^ e == 0)%Q.
Proof. intros E. pose proof (pow2_pos e) as P. rewrite E in P. discriminate. Qed.

Lemma unscale (v : Q) (e : Z) : (v / 2 ^ e * 2 ^ e == v)%Q.
Proof. field. apply pow2_neq_0. Qed.

Lemma scaled_ge (v : Q) (e a : Z) :
  (2 ^ a <= v / 2 ^ e)%Q -> (2 ^ (a + e) <= v)%Q.
Proof.
  intros H. rewrite pow2_add, <- (unscale v e).
  apply Qmult_le_compat_r; [exact H|apply Qlt_le_weak, pow2_pos].
Qed.

Lemma scaled_lt (v : Q) (e a : Z) :
  (v / 2 ^ e < 2 ^ a)%Q -> (v < 2 ^ (a + e))%Q.
Proof.
  intros H. rewrite pow2_add, <- (unscale v e).
  apply Qmult_lt_compat_r; [apply pow2_pos|exact H].
Qed.

Lemma div_pow2_ge (v : Q) (e a : Z) :
  (2 ^ a <= v)%Q -> (2 ^ (a - e) <= v / 2 ^ e)%Q.
Proof.
  intros H. rewrite (Qpower_minus 2 a e two_neq_0). unfold Qdiv.
  apply Qmult_le_compat_r; [exact H|].
  apply Qlt_le_weak, Qinv_lt_0_compat, pow2_pos.
Qed.

Lemma div_pow2_lt (v : Q) (e a : Z) :
  (v < 2 ^ a)%Q -> (v / 2 ^ e < 2 ^ (a - e))%Q.
Proof.
  intros H. rewrite (Qpower_minus 2 a e two_neq_0). unfold Qdiv.
  apply Qmult_lt_compat_r; [|exact H]. apply Qinv_lt_0_compat, pow2_pos.
Qed.

Lemma round_half_even_cases (q : Q) :
  round_half_even q = Qfloor q \/ round_half_even q = Qfloor q + 1.
Proof.
  unfold round_half_even.
  destruct (q - inject_Z (Qfloor q) ?= 1 # 2)%Q; auto.
  destruct (Z.even (Qfloor q)); auto.
Qed.

(** The error of one rounding: half a unit in the last place. *)
Lemma round64_error (q : Q) (b : Z) :
  (Qabs q <= 2 ^ b)%Q ->
  (Qabs (round64 q - q) <= 2 ^ Z.max (b - 52) (-1074) * (1 # 2))%Q.
Proof.
  intros Hb. unfold round64. destruct (Qeq_bool q 0) eqn:E.
  - apply Qeq_bool_iff in E. rewrite E.
    pose proof (pow2_pos (Z.max (b - 52) (-1074))).
    apply Qabs_Qle_condition. split; Lqa.lra.
  - apply Qeq_bool_neq in E. destruct (binade_spec q E) as [Hl _].
    assert (Hk : binade q <= b).
    { apply (Qpower_le_compat_l_inv 2); [|reflexivity].
      eapply Qle_trans; eassumption. }
    set (e := Z.max (binade q - 52) (-1074)).
    assert (He : (2 ^ e <= 2 ^ Z.max (b - 52) (-1074))%Q).
    { apply Qpower_le_compat_l; [subst e; lia|discriminate]. }
    pose proof (pow2_pos e) as Hpos.
    pose proof (round_half_even_error (q / 2 ^ e)) as Hr.
    assert (Eq : (inject_Z (round_half_even (q / 2 ^ e)) * 2 ^ e - q ==
                  (inject_Z (round_half_even (q / 2 ^ e)) - q / 2 ^ e)
                  * 2 ^ e)%Q).
    { field. intros H0. rewrite H0 in Hpos. discriminate. }
    rewrite Eq, Qabs_Qmult, (Qabs_pos (2 ^ e)) by (now apply Qlt_le_weak).
    eapply Qle_trans.
    + apply Qmult_le_compat_r; [exact Hr|now apply Qlt_le_weak].
    + rewrite (Qmult_comm (1 # 2)). apply Qmult_le_compat_r; [exact He|].
      discriminate.
Qed.

(** *** The kernel's floats round as written out *)

(** The number of binary digits of a mantissa. *)
Lemma digits2_size (p : positive) : digits2_pos p = Pos.size p.
Proof. induction p; cbn; congruence. Qed.

Lemma Zdigits2_spec (m : Z) :
  0 < m -> 2 ^ (Zdigits2 m - 1) <= m < 2 ^ Zdigits2 m.
Proof.
  intros H. destruct m as [|p|p]; try lia.
  cbn [Zdigits2]. rewrite digits2_size.
  pose proof (Z.log2_spec (Z.pos p) H) as L.
  assert (E : Z.pos (Pos.size p) = Z.succ (Z.log2 (Z.pos p))).
  { destruct p; cbn; lia. }
  rewrite E. replace (Z.succ (Z.log2 (Z.pos p)) - 1) with (Z.log2 (Z.pos p)) by lia.
  exact L.
Qed.

Lemma Zdigits2_nonneg (m : Z) : 0 <= Zdigits2 m.
Proof. destruct m; cbn; lia. Qed.

Lemma Zdigits2_le (m k : Z) : 0 <= k -> 0 <= m < 2 ^ k -> Zdigits2 m <= k.
Proof.
  intros Hk [H0 H]. destruct (Z.eq_dec m 0) as [->|Hm]; [cbn; lia|].
  destruct (Zdigits2_spec m ltac:(lia)) as [L _].
  destruct (Z.le_gt_cases (Zdigits2 m) k) as [|G]; [assumption|].
  assert (2 ^ k <= 2 ^ (Zdigits2 m - 1)) by (apply Z.pow_le_mono_r; lia).
  lia.
Qed.

Lemma Zdigits2_ge (m k : Z) : 0 <= k -> 2 ^ k <= m -> k + 1 <= Zdigits2 m.
Proof.
  intros Hk H. assert (0 < m) by (pose proof (Z.pow_pos_nonneg 2 k); lia).
  destruct (Zdigits2_spec m ltac:(lia)) as [_ U].
  pose proof (Zdigits2_nonneg m).
  destruct (Z.le_gt_cases (k + 1) (Zdigits2 m)) as [|G]; [assumption|].
  assert (2 ^ Zdigits2 m <= 2 ^ k) by (apply Z.pow_le_mono_r; lia).
  lia.
Qed.

Lemma located_ext (mrs : shr_record) (u u' : Q) :
  (u == u')%Q -> located mrs u -> located mrs u'.
Proof.
  intros E (H0 & H1 & H2 & H3 & H4). unfold located.
  rewrite <- E. auto.
Qed.

(** One shift to the right halves the mantissa; the bit shifted out becomes
    the round bit, and the old round bit goes into the sticky bit. *)
Lemma shr_1_fields (mrs : shr_record) :
  0 <= shr_m mrs ->
  shr_m (shr_1 mrs) = Z.div2 (shr_m mrs) /\
  shr_r (shr_1 mrs) = Z.odd (shr_m mrs) /\
  shr_s (shr_1 mrs) = shr_r mrs || shr_s mrs.
Proof.
  destruct mrs as [m r s]. cbn [shr_m shr_r shr_s]. intros H.
  destruct m as [|[p|p|]|p]; cbn; auto. lia.
Qed.

(** A shifted record describes the halved number. *)
Lemma shr_1_located (mrs : shr_record) (u : Q) :
  located mrs u -> located (shr_1 mrs) (u * (1 # 2)).
Proof.
  intros (H0 & H1 & H2 & H3 & H4).
  destruct (shr_1_fields mrs H0) as (Em & Er & Es).
  unfold located. rewrite Em, Er, Es.
  pose proof (Z.div2_odd (shr_m mrs)) as D.
  set (m := shr_m mrs) in *. set (m' := Z.div2 m) in *.
  assert (Dq : (inject_Z m == 2 * inject_Z m' + inject_Z (Z.b2z (Z.odd m)))%Q).
  { rewrite D at 1. rewrite inject_Z_plus, inject_Z_mult. reflexivity. }
  set (x := inject_Z m) in *. set (x' := inject_Z m') in *.
  assert (Hm' : 0 <= m') by (subst m'; apply Z.div2_nonneg; exact H0).
  split; [exact Hm'|].
  assert (Hs : shr_r mrs || shr_s mrs = true <-> ~ (u - x == 0)%Q).
  { rewrite orb_true_iff, H3, H4. split.
    - intros [H|[H _]]; [|exact H]. intros E. Lqa.lra.
    - intros H. destruct (Qlt_le_dec (u - x) (1 # 2)) as [L|L]; [|now left].
      right. split; [exact H|]. intros E. Lqa.lra. }
  rewrite Hs. clear Hs H3 H4.
  destruct (Z.odd m); cbn [Z.b2z] in Dq;
    [change (inject_Z 1) with 1%Q in Dq|change (inject_Z 0) with 0%Q in Dq].
  - split; [Lqa.lra|]. split; [Lqa.lra|]. split.
    + split; [intros _; Lqa.lra|reflexivity].
    + split.
      * intros H. split; intros E; apply H; Lqa.lra.
      * intros [_ H] E. apply H. Lqa.lra.
  - split; [Lqa.lra|]. split; [Lqa.lra|]. split.
    + split; [discriminate|intros H; exfalso; Lqa.lra].
    + split.
      * intros H. split; intros E; [apply H|]; Lqa.lra.
      * intros [H _] E. apply H. Lqa.lra.
Qed.

Lemma iter_shr_1_located (p : positive) (mrs : shr_record) (u : Q) :
  located mrs u -> located (SpecFloat.iter_pos shr_1 p mrs) (u / 2 ^ Z.pos p).
Proof.
  revert mrs u. induction p as [p IH|p IH|]; intros mrs u H; cbn [SpecFloat.iter_pos].
  - apply (located_ext _ (u * (1 # 2) / 2 ^ Z.pos p / 2 ^ Z.pos p)).
    + replace (Z.pos p~1) with (1 + (Z.pos p + Z.pos p)) by lia.
      rewrite !pow2_add. pose proof (pow2_pos (Z.pos p)) as P.
      change (2 ^ 1)%Q with 2%Q. field. intros E. rewrite E in P. discriminate.
    + apply IH, IH, shr_1_located, H.
  - apply (located_ext _ (u / 2 ^ Z.pos p / 2 ^ Z.pos p)).
    + replace (Z.pos p~0) with (Z.pos p + Z.pos p) by lia.
      rewrite !pow2_add. pose proof (pow2_pos (Z.pos p)) as P.
      field. intros E. rewrite E in P. discriminate.
    + apply IH, IH, H.
  - apply (located_ext _ (u * (1 # 2))); [|apply shr_1_located, H].
    change (2 ^ 1)%Q with 2%Q. field.
Qed.

Lemma shr_located (mrs : shr_record) (e n : Z) (v : Q) :
  0 <= n -> located mrs (v / 2 ^ e) ->
  snd (shr mrs e n) = e + n /\ located (fst (shr mrs e n)) (v / 2 ^ (e + n)).
Proof.
  intros Hn H. destruct n as [|p|p]; cbn [shr fst snd]; try lia.
  - rewrite Z.add_0_r. auto.
  - split; [reflexivity|].
    apply (located_ext _ (v / 2 ^ e / 2 ^ Z.pos p)); [|now apply iter_shr_1_located].
    rewrite pow2_add. pose proof (pow2_pos e) as P1. pose proof (pow2_pos (Z.pos p)) as P2.
    field. split; intros E; [rewrite E in P2|rewrite E in P1]; discriminate.
Qed.

Lemma located_floor (mrs : shr_record) (u : Q) :
  located mrs u -> Qfloor u = shr_m mrs.
Proof.
  intros (H0 & H1 & H2 & _).
  pose proof (Qfloor_le u) as F1. pose proof (Qlt_floor u) as F2.
  assert (A : (inject_Z (shr_m mrs) < inject_Z (Qfloor u + 1))%Q) by Lqa.lra.
  assert (B : (inject_Z (Qfloor u) < inject_Z (shr_m mrs + 1))%Q).
  { rewrite inject_Z_plus. change (inject_Z 1) with 1%Q. Lqa.lra. }
  rewrite <- Zlt_Qlt in A, B. lia.
Qed.

(** Rounding a record is rounding the number it describes. *)
Lemma round_nearest_even_located (mrs : shr_record) (u : Q) :
  located mrs u ->
  round_nearest_even (shr_m mrs) (loc_of_shr_record mrs) = round_half_even u.
Proof.
  intros H. unfold round_half_even. rewrite (located_floor mrs u H).
  destruct H as (H0 & H1 & H2 & H3 & H4).
  destruct mrs as [m r s]. cbn [shr_m shr_r shr_s] in *.
  set (f := (u - inject_Z m)%Q) in *.
  destruct (Qcompare_spec f (1 # 2)) as [E|E|E].
  - (* f = 1/2 *)
    assert (r = true) by (apply H3; rewrite E; apply Qle_refl).
    assert (s = false).
    { destruct s; [|reflexivity]. destruct H4 as [H4 _].
      destruct (H4 eq_refl) as [_ N]. contradiction. }
    subst. reflexivity.
  - assert (r = false).
    { destruct r; [|reflexivity]. destruct H3 as [H3 _].
      specialize (H3 eq_refl). Lqa.lra. }
    subst. destruct s; reflexivity.
  - assert (r = true) by (apply H3; Lqa.lra).
    assert (s = true).
    { apply H4. split; intros N; rewrite N in E; discriminate. }
    subst. reflexivity.
Qed.

Lemma fexp_eq (e : Z) : fexp 53 1024 e = Z.max (e - 53) (-1074).
Proof. reflexivity. Qed.

Lemma shr_record_of_loc_m (m : Z) (l : location) :
  shr_m (shr_record_of_loc m l) = m.
Proof. destruct l as [|[]]; reflexivity. Qed.

(** The rounding procedure of the float operations: from a mantissa and a
    location that describe [v / 2^ex], with enough digits, it returns the
    binary64 number [round64 v], in canonical form. *)
Lemma binary_round_aux_correct (mx ex : Z) (lx : location) (v : Q) :
  (0 < v)%Q -> (v < 2 ^ 1023)%Q ->
  located (shr_record_of_loc mx lx) (v / 2 ^ ex) ->
  ex <= fexp 53 1024 (Zdigits2 mx + ex) ->
  finite_nonneg (binary_round_aux 53 1024 false mx ex lx) = true /\
  SpecFloat.valid_binary 53 1024 (binary_round_aux 53 1024 false mx ex lx) = true /\
  (SFval (binary_round_aux 53 1024 false mx ex lx) == round64 v)%Q.
Proof.
  intros Hv Hb Hl He.
  assert (Hq : ~ (v == 0)%Q) by (intros E; rewrite E in Hv; discriminate).
  destruct (binade_spec v Hq) as [Bl Bu].
  rewrite Qabs_pos in Bl, Bu by now apply Qlt_le_weak.
  set (k := binade v) in *.
  assert (Hk : k < 1023).
  { apply pow2_lt_inv. eapply Qle_lt_trans; eassumption. }
  set (e1 := fexp 53 1024 (Zdigits2 mx + ex)) in *.
  assert (E1 : e1 = Z.max (k - 52) (-1074)).
  { pose proof Hl as (M0 & M1 & M2 & _). rewrite shr_record_of_loc_m in M0, M1, M2.
    subst e1. rewrite fexp_eq in *.
    destruct (Z.eq_dec mx 0) as [->|Hmx].
    - cbn [Zdigits2] in *. rewrite Z.add_0_l in *.
      change (inject_Z 0) with 0%Q in M2.
      assert (U : (v / 2 ^ ex < 2 ^ 0)%Q) by (change (2 ^ 0)%Q with 1%Q; Lqa.lra).
      apply scaled_lt in U. rewrite Z.add_0_l in U.
      assert (k < ex) by (apply pow2_lt_inv; eapply Qle_lt_trans; eassumption).
      lia.
    - destruct (Zdigits2_spec mx ltac:(lia)) as [D1 D2].
      pose proof (Zdigits2_nonneg mx) as D0.
      set (d := Zdigits2 mx) in *.
      assert (d <> 0).
      { intros E. rewrite E in D2. cbn in D2. lia. }
      assert (A : (2 ^ (d - 1) <= v / 2 ^ ex)%Q).
      { pose proof (pow2_Z (d - 1) ltac:(lia)) as P. rewrite Zle_Qle in D1.
        Lqa.lra. }
      assert (B : (v / 2 ^ ex < 2 ^ d)%Q).
      { pose proof (pow2_Z d ltac:(lia)) as P.
        assert (D3 : mx + 1 <= 2 ^ d) by lia. rewrite Zle_Qle in D3.
        rewrite inject_Z_plus in D3. change (inject_Z 1) with 1%Q in D3. Lqa.lra. }
      apply scaled_ge in A. apply scaled_lt in B.
      assert (K : k = d - 1 + ex).
      { apply binade_unique; [exact A|].
        replace (d - 1 + ex + 1) with (d + ex) by lia. exact B. }
      lia. }
  assert (R64 : (round64 v == inject_Z (round_half_even (v / 2 ^ e1)) * 2 ^ e1)%Q).
  { unfold round64. destruct (Qeq_bool v 0) eqn:E.
    - apply Qeq_bool_iff in E. contradiction.
    - cbv zeta. fold k. rewrite <- E1. reflexivity. }
  unfold binary_round_aux, shr_fexp. fold e1.
  destruct (shr_located (shr_record_of_loc mx lx) ex (e1 - ex) v ltac:(lia) Hl)
    as [S1 L1].
  replace (ex + (e1 - ex)) with e1 in S1, L1 by lia.
  destruct (shr (shr_record_of_loc mx lx) ex (e1 - ex)) as [mrs' e'] eqn:Sh.
  cbn [fst snd] in S1, L1. subst e'.
  rewrite (round_nearest_even_located mrs' _ L1).
  set (u1 := (v / 2 ^ e1)%Q) in *.
  assert (U1 : (u1 < 2 ^ 53)%Q).
  { eapply Qlt_le_trans; [apply div_pow2_lt, Bu|]. apply pow2_le. lia. }
  assert (U0 : (0 <= u1)%Q).
  { subst u1. apply Qlt_le_weak. apply Qlt_shift_div_l; [apply pow2_pos|].
    rewrite Qmult_0_l. exact Hv. }
  pose proof (Qfloor_le u1) as F1.
  assert (F0 : 0 <= Qfloor u1).
  { change 0 with (Qfloor 0). apply Qfloor_resp_le, U0. }
  assert (F53 : Qfloor u1 < 2 ^ 53).
  { rewrite Zlt_Qlt. pose proof (pow2_Z 53 ltac:(lia)) as P. Lqa.lra. }
  assert (F52 : -1074 < e1 -> 2 ^ 52 <= Qfloor u1).
  { intros G. assert (Ek : e1 = k - 52) by lia.
    assert (A : (2 ^ 52 <= u1)%Q).
    { replace 52 with (k - e1) by lia. apply div_pow2_ge, Bl. }
    pose proof (pow2_Z 52 ltac:(lia)) as P.
    assert (A' : (inject_Z (2 ^ 52) <= u1)%Q) by Lqa.lra.
    apply Qfloor_resp_le in A'. rename A' into A0. clear A. rename A0 into A. rewrite Qfloor_Z in A. exact A. }
  set (m2 := round_half_even u1) in *.
  assert (M2 : m2 = Qfloor u1 \/ m2 = Qfloor u1 + 1)
    by apply round_half_even_cases.
  rewrite R64. clear R64.
  destruct (Z.eq_dec m2 (2 ^ 53)) as [E53|N53].
  - rewrite E53.
    change (Zdigits2 (2 ^ 53)) with 54.
    replace (fexp 53 1024 (54 + e1) - e1) with 1 by (rewrite fexp_eq; lia).
    cbn [shr_record_of_loc shr SpecFloat.iter_pos shr_1 shr_m].
    change (2 ^ 53) with 9007199254740992.
    cbn [shr_record_of_loc shr SpecFloat.iter_pos shr_1 shr_m].
    replace (e1 + 1 <=? 1024 - 53) with true by (symmetry; apply Z.leb_le; lia).
    split; [reflexivity|]. split.
    + cbn [SpecFloat.valid_binary]. unfold bounded, canonical_mantissa.
      apply andb_true_iff. split; [|apply Z.leb_le; lia].
      apply Z.eqb_eq. cbn [digits2_pos Pos.succ]. rewrite fexp_eq. lia.
    + cbn [SFval]. rewrite pow2_add. change (2 ^ 1)%Q with 2%Q.
      set (x := (2 ^ e1)%Q).
      change (inject_Z 4503599627370496) with (4503599627370496 # 1)%Q.
      change (inject_Z 9007199254740992) with (9007199254740992 # 1)%Q.
      field.
  - assert (B2 : 0 <= m2 < 2 ^ 53) by lia.
    pose proof (Zdigits2_le m2 53 ltac:(lia) B2) as D2.
    pose proof (Zdigits2_nonneg m2) as D0.
    assert (N2 : fexp 53 1024 (Zdigits2 m2 + e1) - e1 <= 0)
      by (rewrite fexp_eq; lia).
    assert (Sh2 : shr (shr_record_of_loc m2 loc_Exact) e1
                      (fexp 53 1024 (Zdigits2 m2 + e1) - e1)
                  = (shr_record_of_loc m2 loc_Exact, e1)).
    { destruct (fexp 53 1024 (Zdigits2 m2 + e1) - e1); try reflexivity. lia. }
    rewrite Sh2. cbn [shr_record_of_loc shr_m].
    destruct m2 as [|p|p] eqn:Em2; [| |lia].
    + split; [reflexivity|]. split; [reflexivity|].
      cbn [SFval]. change (inject_Z 0) with 0%Q.
      rewrite Qmult_0_l. reflexivity.
    + replace (e1 <=? 1024 - 53) with true by (symmetry; apply Z.leb_le; lia).
      split; [reflexivity|]. split; [|reflexivity].
      cbn [SpecFloat.valid_binary]. unfold bounded, canonical_mantissa.
      apply andb_true_iff. split; [|apply Z.leb_le; lia].
      apply Z.eqb_eq. change (Z.pos (digits2_pos p)) with (Zdigits2 (Z.pos p)).
      rewrite fexp_eq.
      destruct (Z.eq_dec e1 (-1074)) as [->|G]; [lia|].
      assert (2 ^ 52 <= Z.pos p) by (specialize (F52 ltac:(lia)); lia).
      pose proof (Zdigits2_ge (Z.pos p) 52 ltac:(lia) H). lia.
Qed.

(** The quotient and remainder of a division, as a location. *)
Lemma new_location_located (b r q : Z) (u : Q) :
  0 < b -> 0 <= r < b -> 0 <= q ->
  (u - inject_Z q == r # Z.to_pos b)%Q ->
  located (shr_record_of_loc q (new_location b r)) u.
Proof.
  intros Hb Hr Hq Hu. unfold located. rewrite shr_record_of_loc_m, Hu.
  set (p := Z.to_pos b). assert (Ep : Z.pos p = b) by (subst p; apply Z2Pos.id; lia).
  assert (C0 : r = 0 -> (r # p == 0)%Q) by (intros ->; reflexivity).
  assert (C1 : r <> 0 -> ~ (r # p == 0)%Q) by (unfold Qeq; cbn [Qnum Qden]; lia).
  assert (C2 : 2 * r < b -> (r # p < 1 # 2)%Q) by (unfold Qlt; cbn [Qnum Qden]; lia).
  assert (C3 : 2 * r = b -> (r # p == 1 # 2)%Q) by (unfold Qeq; cbn [Qnum Qden]; lia).
  assert (C4 : b < 2 * r -> (1 # 2 < r # p)%Q) by (unfold Qlt; cbn [Qnum Qden]; lia).
  assert (C5 : (0 <= r # p)%Q) by (unfold Qle; cbn [Qnum Qden]; lia).
  assert (C6 : (r # p < 1)%Q) by (unfold Qlt; cbn [Qnum Qden]; lia).
  split; [exact Hq|]. split; [exact C5|]. split; [exact C6|].
  set (f := (r # p)%Q) in *.
  assert (L : forall l : location,
             match l with
             | loc_Exact => r = 0
             | loc_Inexact Lt => r <> 0 /\ 2 * r < b
             | loc_Inexact Eq => 2 * r = b
             | loc_Inexact Gt => b < 2 * r
             end ->
             (shr_r (shr_record_of_loc q l) = true <-> (1 # 2 <= f)%Q) /\
             (shr_s (shr_record_of_loc q l) = true <->
              ~ (f == 0)%Q /\ ~ (f == 1 # 2)%Q)).
  { intros [|[| |]] H; cbn [shr_record_of_loc shr_r shr_s].
    - specialize (C0 H). split; split; try discriminate.
      + intros G. exfalso. Lqa.lra.
      + intros [G _]. contradiction.
    - specialize (C3 H). split; split; try discriminate; auto.
      + intros _. Lqa.lra.
      + intros [_ G]. contradiction.
    - destruct H as [H1 H2]. specialize (C1 H1). specialize (C2 H2).
      split; split; try discriminate; auto.
      + intros G. exfalso. Lqa.lra.
      + intros _. split; [exact C1|]. intros G. Lqa.lra.
    - specialize (C4 H). split; split; auto.
      + intros _. Lqa.lra.
      + intros _. split; intros G; Lqa.lra. }
  apply L. unfold new_location, new_location_even, new_location_odd.
  destruct (Z.even b) eqn:Ev.
  - destruct (Z.eqb_spec r 0) as [E|E]; [exact E|].
    destruct (Z.compare_spec (2 * r) b); lia.
  - destruct (Z.eqb_spec r 0) as [E|E]; [exact E|].
    assert (Od : Z.odd b = true) by (rewrite <- Z.negb_even, Ev; reflexivity).
    apply Z.odd_spec in Od. destruct Od as [c Hc].
    destruct (Z.compare_spec (2 * r + 1) b); lia.
Qed.

(** The quotient of two positive integers is the exact quotient rounded
    once. *)
Lemma SFdiv_correct (a b : positive) :
  (inject_Z (Z.pos a) / inject_Z (Z.pos b) < 2 ^ 1023)%Q ->
  finite_nonneg
    (SFdiv 53 1024 (S754_finite false a 0) (S754_finite false b 0)) = true /\
  SpecFloat.valid_binary 53 1024
    (SFdiv 53 1024 (S754_finite false a 0) (S754_finite false b 0)) = true /\
  (SFval (SFdiv 53 1024 (S754_finite false a 0) (S754_finite false b 0)) ==
   round64 (inject_Z (Z.pos a) / inject_Z (Z.pos b)))%Q.
Proof.
  intros Hb. cbn [SFdiv xorb]. unfold SFdiv_core_binary.
  rewrite !Z.add_0_r, Z.sub_0_r.
  destruct (Zdigits2_spec (Z.pos a) ltac:(lia)) as [A1 A2].
  destruct (Zdigits2_spec (Z.pos b) ltac:(lia)) as [B1 B2].
  pose proof (Zdigits2_nonneg (Z.pos a)) as A0.
  pose proof (Zdigits2_nonneg (Z.pos b)) as B0.
  set (da := Zdigits2 (Z.pos a)) in *. set (db := Zdigits2 (Z.pos b)) in *.
  assert (da <> 0) by (intros E; rewrite E in A2; cbn in A2; lia).
  assert (db <> 0) by (intros E; rewrite E in B2; cbn in B2; lia).
  set (e' := Z.min (fexp 53 1024 (da - db)) 0).
  assert (He' : -1074 <= e' <= 0) by (subst e'; rewrite fexp_eq; lia).
  assert (Hx : -1074 < e' -> e' <= da - db - 53)
    by (subst e'; rewrite fexp_eq; lia).
  set (s := 0 - e').
  set (m' := match s with Z.pos _ => Z.shiftl (Z.pos a) s | 0 => Z.pos a
                     | Z.neg _ => 0 end).
  assert (Em : m' = Z.pos a * 2 ^ s).
  { subst m'. destruct s eqn:Es; [cbn; lia| |lia].
    rewrite Z.shiftl_mul_pow2 by lia. reflexivity. }
  pose proof (Z_div_mod m' (Z.pos b) ltac:(lia)) as DM.
  destruct (Z.div_eucl m' (Z.pos b)) as [q r]. destruct DM as [Dq Dr].
  assert (P2 : 0 < 2 ^ s) by (apply Z.pow_pos_nonneg; lia).
  assert (Hq : 0 <= q) by nia.
  apply binary_round_aux_correct.
  - apply Qlt_shift_div_l; [reflexivity|]. rewrite Qmult_0_l. reflexivity.
  - exact Hb.
  - apply new_location_located; [lia|exact Dr|exact Hq|].
    rewrite Pos2Z.id.
    assert (Es : (2 ^ e' == / inject_Z (2 ^ s))%Q).
    { rewrite pow2_Z by lia. replace e' with (- s) by lia.
      apply Qpower_opp. }
    rewrite Es. rewrite (Qmake_Qdiv r b).
    assert (Eq : (inject_Z (Z.pos a) * inject_Z (2 ^ s) ==
                  inject_Z (Z.pos b) * inject_Z q + inject_Z r)%Q).
    { rewrite <- !inject_Z_mult, <- inject_Z_plus, <- Em, Dq. reflexivity. }
    assert (Nb : ~ (inject_Z (Z.pos b) == 0)%Q) by discriminate.
    assert (Ns : ~ (inject_Z (2 ^ s) == 0)%Q).
    { unfold Qeq, inject_Z. cbn [Qnum Qden]. lia. }
    set (xa := inject_Z (Z.pos a)) in *. set (xb := inject_Z (Z.pos b)) in *.
    set (xs := inject_Z (2 ^ s)) in *. set (xq := inject_Z q) in *.
    set (xr := inject_Z r) in *.
    assert (Ea : (xa == (xb * xq + xr) / xs)%Q).
    { rewrite <- Eq. field. exact Ns. }
    rewrite Ea. field. split; assumption.
  - rewrite fexp_eq. destruct (Z.eq_dec e' (-1074)) as [->|G]; [lia|].
    specialize (Hx ltac:(lia)).
    assert (Q52 : 2 ^ 52 <= q).
    { assert (L1 : 2 ^ (52 + db) <= m').
      { rewrite Em.
        assert (2 ^ (52 + db) <= 2 ^ (da - 1 + s))
          by (apply Z.pow_le_mono_r; lia).
        assert (2 ^ (da - 1 + s) = 2 ^ (da - 1) * 2 ^ s)
          by (apply Z.pow_add_r; lia).
        nia. }
      rewrite Z.pow_add_r in L1 by lia.
      assert (P52 : 0 < 2 ^ 52) by reflexivity.
      nia. }
    pose proof (Zdigits2_ge q 52 ltac:(lia) Q52). lia.
Qed.

(** The product of two non-negative floats, the second one normal, is the
    exact product rounded once. *)
Lemma SFmul_correct (x y : spec_float) (v : Q) :
  finite_nonneg x = true ->
  match y with
  | S754_finite false my _ => 2 ^ 52 <= Z.pos my
  | _ => False
  end ->
  (v == SFval x * SFval y)%Q -> (v < 2 ^ 1023)%Q ->
  finite_nonneg (SFmul 53 1024 x y) = true /\
  SpecFloat.valid_binary 53 1024 (SFmul 53 1024 x y) = true /\
  (SFval (SFmul 53 1024 x y) == round64 v)%Q.
Proof.
  intros Hx Hy Hv Hb.
  destruct y as [| | |[|] my ey]; try contradiction.
  destruct x as [[|]| | |[|] mx ex]; try discriminate.
  - cbn [SFmul xorb]. split; [reflexivity|]. split; [reflexivity|].
    cbn [SFval] in *. rewrite Qmult_0_l in Hv. unfold round64.
    apply Qeq_bool_iff in Hv. rewrite Hv. reflexivity.
  - cbn [SFmul xorb]. cbn [SFval] in Hv.
    assert (E : (v / 2 ^ (ex + ey) == inject_Z (Z.pos (mx * my)))%Q).
    { rewrite Hv, pow2_add, Pos2Z.inj_mul, inject_Z_mult. field.
      split; apply pow2_neq_0. }
    apply binary_round_aux_correct.
    + rewrite Hv.
      apply Qmult_lt_0_compat; (apply Qmult_lt_0_compat; [reflexivity|apply pow2_pos]).
    + exact Hb.
    + unfold located. cbn [shr_record_of_loc shr_m shr_r shr_s]. rewrite E.
      split; [lia|]. 
      assert (Z0 : (inject_Z (Z.pos (mx * my)) - inject_Z (Z.pos (mx * my)) == 0)%Q)
        by ring.
      rewrite Z0. split; [discriminate|]. split; [reflexivity|]. split.
      * split; [discriminate|]. intros G. exfalso. Lqa.lra.
      * split; [discriminate|]. intros [G _]. exfalso. apply G. reflexivity.
    + rewrite fexp_eq.
      assert (2 ^ 52 <= Z.pos (mx * my)) by nia.
      pose proof (Zdigits2_ge (Z.pos (mx * my)) 52 ltac:(lia) H). lia.
Qed.

Lemma float_value_SFval (f : float) :
  (float_value f == SFval (Prim2SF f))%Q.
Proof.
  unfold float_value. destruct (Prim2SF f) as [| | |s m e]; try reflexivity.
  cbn [SFval]. cbv zeta. set (v := if s then Z.neg m else Z.pos m).
  destruct (Z.leb_spec 0 e) as [H|H].
  - rewrite inject_Z_mult, pow2_Z by exact H. reflexivity.
  - rewrite pow2_Z by lia. replace e with (- - e) at 2 by lia.
    rewrite (Qpower_opp 2 (- e)). reflexivity.
Qed.

(** [a / b] on non-negative integers of any size is the exact quotient
    rounded once. *)
Lemma truediv_rounded (a b : Z) :
  0 <= a -> 0 < b -> (inject_Z a / inject_Z b < 2 ^ 1023)%Q ->
  finite_nonneg (SFdiv 53 1024 (int_spec a) (int_spec b)) = true /\
  SpecFloat.valid_binary 53 1024 (SFdiv 53 1024 (int_spec a) (int_spec b))
  = true /\
  (SFval (SFdiv 53 1024 (int_spec a) (int_spec b)) ==
   round64 (inject_Z a / inject_Z b))%Q.
Proof.
  intros Ha Hb Hab. destruct b as [|pb|pb]; try lia.
  destruct a as [|pa|pa]; try lia.
  - cbn [int_spec SFdiv xorb]. repeat split; reflexivity.
  - cbn [int_spec]. apply SFdiv_correct. exact Hab.
Qed.

(** The two readings of the float operations give the same quotients, also
    beyond [2^53], on ties and among the subnormal numbers. *)
Example truediv_binary64_rounded :
  forallb (fun ab =>
             Qeq_bool (float_value (truediv (F := float) (fst ab) (snd ab)))
                      (truediv (F := Q) (fst ab) (snd ab)))
          [(1, 3); (23, 80); (2 ^ 53 + 1, 1); (2 ^ 53 + 3, 1); (2 ^ 60 + 5, 3);
           (1, 3 * 2 ^ 1070); (1, 2 ^ 1074); (1, 2 ^ 1075); (3, 2 ^ 1076);
           (-7, 3); (10 ^ 30, 7); (1, 10 ^ 320); (2 ^ 1000 + 1, 2 ^ 1000 - 1);
           (90, 180); (219, 220)] = true.
Proof. vm_compute. reflexivity. Qed.

(** *** The accuracy *)

Lemma ratio_range (h m : Z) :
  0 <= h -> 0 <= m -> h + m <> 0 ->
  (0 <= inject_Z h / inject_Z (h + m))%Q /\
  (inject_Z h / inject_Z (h + m) <= 1)%Q.
Proof.
  intros Hh Hm Ht.
  assert (Tpos : (0 < inject_Z (h + m))%Q).
  { unfold Qlt, inject_Z. cbn [Qnum Qden]. lia. }
  split.
  - apply Qle_shift_div_l; [exact Tpos|].
    rewrite Qmult_0_l. unfold Qle, inject_Z. cbn [Qnum Qden]. lia.
  - apply Qle_shift_div_r; [exact Tpos|].
    rewrite Qmult_1_l, <- Zle_Qle. lia.
Qed.

(** The rounded quotient of the counters is at most [1 + 2^-53]. *)
Lemma ratio_rounded_range (h m : Z) :
  0 <= h -> 0 <= m -> h + m <> 0 ->
  (Qabs (round64 (inject_Z h / inject_Z (h + m))
         - inject_Z h / inject_Z (h + m)) <= 1 # 2 ^ 53)%Q.
Proof.
  intros Hh Hm Ht. destruct (ratio_range h m Hh Hm Ht) as [X0 X1].
  pose proof (round64_error (inject_Z h / inject_Z (h + m)) 0) as E.
  assert (P53 : (2 ^ Z.max (0 - 52) (-1074) * (1 # 2) == 1 # 2 ^ 53)%Q)
    by (vm_compute; reflexivity).
  rewrite P53 in E. apply E. rewrite Qabs_pos by exact X0. exact X1.
Qed.

(** Line 246 on the kernel's floats, for any product [v] equal to the rounded
    quotient times 100: the result is a finite float, [v] rounded. *)
Lemma accuracy_binary64_value (h m : Z) (v : Q) :
  0 <= h -> 0 <= m -> h + m <> 0 ->
  (v == round64 (inject_Z h / inject_Z (h + m)) * 100)%Q ->
  finite_nonneg (Prim2SF (accuracy (F := float) h m)) = true /\
  (float_value (accuracy (F := float) h m) == round64 v)%Q.
Proof.
  intros Hh Hm Ht Hv. unfold accuracy.
  destruct (Z.ltb_spec 0 (h + m)) as [Hp|Hp]; [|lia].
  cbn [fmul truediv literal binary64].
  destruct (ratio_range h m Hh Hm Ht) as [X0 X1].
  destruct (truediv_rounded h (h + m) Hh Hp) as (F1 & V1 & E1).
  { eapply Qle_lt_trans; [exact X1|reflexivity]. }
  assert (E100 : Prim2SF (float_of_int 100)
                 = S754_finite false 7036874417766400 (-46))
    by (vm_compute; reflexivity).
  rewrite float_value_SFval, mul_spec. unfold SF64mul.
  rewrite (Prim2SF_SF2Prim _ V1), E100.
  destruct (SFmul_correct (SFdiv 53 1024 (int_spec h) (int_spec (h + m)))
              (S754_finite false 7036874417766400 (-46)) v F1)
    as (A & _ & B); [vm_compute; discriminate| | |split; assumption].
  - rewrite Hv, E1.
    assert (Ec : (SFval (S754_finite false 7036874417766400 (-46)) == 100)%Q)
      by (vm_compute; reflexivity).
    rewrite Ec. reflexivity.
  - pose proof (ratio_rounded_range h m Hh Hm Ht) as R.
    apply Qabs_Qle_condition in R.
    change (1 # 2 ^ 53)%Q with (1 # 9007199254740992)%Q in R.
    apply Qlt_le_trans with (2 ^ 8)%Q; [|apply pow2_le; lia].
    change (2 ^ 8)%Q with 256%Q. rewrite Hv. Lqa.lra.
Qed.

(** The kernel's floats and the written-out rounding compute the same
    accuracy, whatever the counters. *)
Lemma accuracy_binary64_rounded (h m : Z) :
  0 <= h -> 0 <= m -> h + m <> 0 ->
  (float_value (accuracy (F := float) h m) == accuracy (F := Q) h m)%Q.
Proof.
  intros Hh Hm Ht.
  destruct (accuracy_binary64_value h m
              (round64 (inject_Z h / inject_Z (h + m))
               * round64 (inject_Z 100)) Hh Hm Ht) as [_ E].
  - assert (Hc : (round64 (inject_Z 100) == 100)%Q) by (vm_compute; reflexivity).
    rewrite Hc. reflexivity.
  - rewrite E. unfold accuracy.
    destruct (Z.ltb_spec 0 (h + m)) as [Hp|Hp]; [|lia]. reflexivity.
Qed.

(** The accuracy is within [2^-45] of the exact percentage, whatever the
    counters. *)
Lemma accuracy_error (h m : Z) :
  0 <= h -> 0 <= m -> h + m <> 0 ->
  (Qabs (accuracy (F := Q) h m - inject_Z (100 * h) / inject_Z (h + m))
   <= 1 # 2 ^ 45)%Q.
Proof.
  intros Hh Hm Ht. unfold accuracy.
  destruct (Z.ltb_spec 0 (h + m)) as [Hp|Hp]; [|lia].
  cbn [fmul truediv literal rounded].
  pose proof (ratio_rounded_range h m Hh Hm Ht) as E1.
  destruct (ratio_range h m Hh Hm Ht) as [X0 X1].
  set (t := h + m) in *. set (x := (inject_Z h / inject_Z t)%Q) in *.
  assert (Tpos : (0 < inject_Z t)%Q).
  { unfold Qlt, inject_Z. cbn [Qnum Qden]. lia. }
  assert (Ex : (inject_Z (100 * h) / inject_Z t == 100 * x)%Q).
  { subst x. rewrite inject_Z_mult. field.
    intros H0. rewrite H0 in Tpos. discriminate. }
  set (q1 := round64 x) in *.
  assert (Hc : (round64 (inject_Z 100) == 100)%Q) by (vm_compute; reflexivity).
  set (c := round64 (inject_Z 100)) in *.
  apply Qabs_Qle_condition in E1.
  pose proof (round64_error (q1 * c) 7) as E2.
  assert (P46 : (2 ^ Z.max (7 - 52) (-1074) * (1 # 2) == 1 # 2 ^ 46)%Q)
    by (vm_compute; reflexivity).
  rewrite P46 in E2.
  change (1 # 2 ^ 53)%Q with (1 # 9007199254740992)%Q in E1.
  assert (Hq : (Qabs (q1 * c) <= 2 ^ 7)%Q).
  { rewrite Hc. change (2 ^ 7)%Q with 128%Q.
    apply Qabs_Qle_condition. split; Lqa.lra. }
  specialize (E2 Hq). set (q2 := round64 (q1 * c)) in *.
  rewrite Hc in E2. apply Qabs_Qle_condition in E2.
  rewrite Ex. apply Qabs_Qle_condition.
  change (1 # 2 ^ 46)%Q with (1 # 70368744177664)%Q in E2.
  change (1 # 2 ^ 45)%Q with (1 # 35184372088832)%Q.
  split; Lqa.lra.
Qed.

(** C8, as the code has it.  The accuracy is 0 when [hits + misses = 0].
    Otherwise, for all non-negative counters, it is the finite binary64
    number that [hits / total * 100.0] computes: the quotient rounded to
    nearest, ties to even, then its product by 100 rounded again.  That
    number is within [2^-45] of [100 * hits / (hits + misses)], and the one
    decimal the HUD shows is within [0.05 + 2^-45] of it.  [hits] and [misses]
    never decrease along a run: their values after a longer run are at least
    those after any prefix of it. *)
Theorem accuracy_and_counters :
  (forall h m, h + m = 0 -> accuracy (F := float) h m = 0%float) /\
  (forall h m, 0 <= h -> 0 <= m -> h + m <> 0 ->
     let acc := float_value (accuracy (F := float) h m) in
     let percentage := (inject_Z (100 * h) / inject_Z (h + m))%Q in
     finite_nonneg (Prim2SF (accuracy (F := float) h m)) = true /\
     (acc == round64 (round64 (inject_Z h / inject_Z (h + m)) * 100))%Q /\
     (Qabs (acc - percentage) <= 1 # 2 ^ 45)%Q /\
     (Qabs (inject_Z (hud_tenths acc) / 10 - percentage)
      <= (1 # 20) + (1 # 2 ^ 45))%Q) /\
  (forall q1 q2 g w,
     hits (eval (main_loop q1 g) w) <= hits (eval (main_loop (q1 ++ q2) g) w) /\
     misses (eval (main_loop q1 g) w)
     <= misses (eval (main_loop (q1 ++ q2) g) w)).
Proof.
  split; [|split].
  - intros h m H. unfold accuracy. rewrite H. reflexivity.
  - intros h m Hh Hm H. cbv zeta.
    assert (E : (Qabs (float_value (accuracy (F := float) h m)
                       - inject_Z (100 * h) / inject_Z (h + m))
                 <= 1 # 2 ^ 45)%Q).
    { rewrite (accuracy_binary64_rounded h m Hh Hm H).
      exact (accuracy_error h m Hh Hm H). }
    destruct (accuracy_binary64_value h m _ Hh Hm H (Qeq_refl _)) as [Fin Val].
    split; [exact Fin|]. split; [exact Val|]. split; [exact E|].
    pose proof (round_half_even_error
                  (10 * float_value (accuracy (F := float) h m))) as R.
    fold (hud_tenths (float_value (accuracy (F := float) h m))) in R.
    clear Fin Val.
    set (a := float_value (accuracy (F := float) h m)) in *.
    set (v := (inject_Z (100 * h) / inject_Z (h + m))%Q) in *.
    set (d := inject_Z (hud_tenths a)) in *.
    apply Qabs_Qle_condition in E, R. apply Qabs_Qle_condition.
    change (1 # 2 ^ 45)%Q with (1 # 35184372088832)%Q in *.
    assert (Ed : (d / 10 == d * (1 # 10))%Q) by reflexivity.
    rewrite Ed. split; Lqa.lra.
  - intros q1 q2 g w. rewrite eval_main_loop_app. apply main_loop_counters.
Qed.

Lemma accuracy_and_counters_witness :
  (Qabs (float_value (accuracy (F := float) 1 2)
         - inject_Z (100 * 1) / inject_Z (1 + 2)) <= 1 # 2 ^ 45)%Q /\
  accuracy (F := float) 0 0 = 0%float.
Proof.
  destruct accuracy_and_counters as (H0 & H1 & _).
  split; [|exact (H0 0 0 eq_refl)].
  destruct (H1 1 2) as (_ & _ & E & _); [lia|lia|lia|exact E].
Defined.

(** C8, as the claim has it, fails.  With 23 hits and 57 misses
    [100 * hits / (hits + misses)] is 28.75, which shows as 28.8 to one
    decimal; the program divides first, gets the float just below 28.75 and
    shows 28.7.  With 1 hit and 2 misses the accuracy is below [100 / 3]. *)
Lemma accuracy_differs_from_quotient :
  (inject_Z (100 * 23) / inject_Z (23 + 57) == 115 # 4)%Q /\
  hud_tenths (inject_Z (100 * 23) / inject_Z (23 + 57)) = 288 /\
  Prim2SF (accuracy (F := float) 23 57)
  = S754_finite false 8092405580431359 (-48) /\
  (accuracy (F := float) 23 57 <? 28.75)%float = true /\
  (float_value (accuracy (F := float) 23 57) < 115 # 4)%Q /\
  hud_tenths (float_value (accuracy (F := float) 23 57)) = 287 /\
  (float_value (accuracy (F := float) 1 2)
   < inject_Z (100 * 1) / inject_Z (1 + 2))%Q.
Proof. vm_compute. repeat split. Qed.

(** * Further properties of the loop and of the entity *)

(** ** Events other than primary clicks *)

Lemma other_event_view (ev : Event) (g : Game) (w : World) :
  primary_click ev = false ->
  score_view (eval (handle_event ev g) w) = score_view g /\
  exec (handle_event ev g) w = w.
Proof.
  unfold eval, exec, score_view.
  destruct ev as [|key|button pos|]; cbn [handle_event primary_click];
    intros H; auto.
  - destruct (key =? K_ESCAPE); auto.
    destruct ((key =? K_m) && sound_supported g); auto.
  - rewrite H. auto.
Qed.

Lemma click_event_view (ev : Event) (g g' : Game) (w : World) :
  score_view g = score_view g' ->
  score_view (eval (handle_event ev g) w) =
  score_view (eval (handle_event ev g') w) /\
  exec (handle_event ev g) w = exec (handle_event ev g') w.
Proof.
  intros Hv. destruct (primary_click ev) eqn:Hp.
  - destruct ev as [|key|button pos|]; try discriminate.
    cbn [primary_click] in Hp.
    destruct g as [h m oz n r mu s], g' as [h' m' oz' n' r' mu' s'].
    unfold score_view in Hv. cbn in Hv. injection Hv as -> -> -> ->.
    unfold eval, exec, score_view. cbn [handle_event zombie]. rewrite Hp.
    destruct oz' as [z|]; [|cbn; auto].
    destruct (Zombie.is_clickable z && Zombie.hit_test z pos).
    + rewrite !run_bind, !run_ret. cbn. auto.
    + destruct (Zombie.state z); cbn; auto.
  - destruct (other_event_view ev g w Hp) as [-> ->].
    destruct (other_event_view ev g' w Hp) as [-> ->]. auto.
Qed.

Lemma handle_events_view (evs : list Event) (g g' : Game) (w : World) :
  score_view g = score_view g' ->
  score_view (eval (handle_events evs g) w) =
  score_view (eval (handle_events (filter primary_click evs) g') w) /\
  exec (handle_events evs g) w =
  exec (handle_events (filter primary_click evs) g') w.
Proof.
  revert g g' w. induction evs as [|ev evs IH]; intros g g' w Hv.
  - cbn. auto.
  - cbn [filter]. rewrite eval_handle_events_cons, exec_handle_events_cons.
    destruct (primary_click ev) eqn:Hp.
    + rewrite eval_handle_events_cons, exec_handle_events_cons.
      destruct (click_event_view ev g g' w Hv) as [Hv' <-].
      now apply IH.
    + destruct (other_event_view ev g w Hp) as [Hv' ->].
      apply IH. congruence.
Qed.

(** X1. The score, the owned entity, the scheduler's timer and the readings of
    the clock after a queue of events are those after its primary-button
    clicks alone, in the same order: quit, key, other-button and other events
    never touch them. *)
Theorem scoring_depends_on_clicks_only
  (evs : list Event) (g : Game) (w : World) :
  score_view (eval (handle_events evs g) w) =
  score_view (eval (handle_events (filter primary_click evs) g) w) /\
  exec (handle_events evs g) w =
  exec (handle_events (filter primary_click evs) g) w.
Proof. apply handle_events_view. reflexivity. Qed.

(** ** The control flags *)

Lemma handle_event_flags (ev : Event) (g : Game) (w : World) :
  let g' := eval (handle_event ev g) w in
  running g' = running g && negb (quit_request ev) /\
  sound_supported g' = sound_supported g /\
  is_muted g' =
    xorb (is_muted g) (sound_supported g && mute_press ev).
Proof.
  assert (H : forall g0 : Game,
            running g0 = running g ->
            sound_supported g0 = sound_supported g ->
            is_muted g0 = is_muted g ->
            running g0 = running g && negb false /\
            sound_supported g0 = sound_supported g /\
            is_muted g0 = xorb (is_muted g) (sound_supported g && false)).
  { intros g0 -> -> ->. rewrite andb_true_r, andb_false_r, xorb_false_r.
    auto. }
  unfold eval. destruct ev as [|key|button pos|];
    cbn [handle_event quit_request mute_press].
  - cbn. destruct (running g), (is_muted g), (sound_supported g); auto.
  - destruct (key =? K_ESCAPE); cbn [negb andb].
    + cbn. destruct (running g), (is_muted g), (sound_supported g); auto.
    + destruct (key =? K_m), (sound_supported g) eqn:Hs; cbn;
        rewrite ?Hs; destruct (running g), (is_muted g); auto.
  - destruct (button =? 1); [|apply H; reflexivity].
    destruct (zombie g) as [z|]; [|apply H; reflexivity].
    destruct (Zombie.is_clickable z && Zombie.hit_test z pos).
    + rewrite run_bind, run_ret. apply H; reflexivity.
    + destruct (Zombie.state z); apply H; reflexivity.
  - apply H; reflexivity.
Qed.

(** X2. After a queue of events the loop keeps running exactly when it was
    running and the queue holds no quit request (window close or escape); the
    events after a quit request are still processed.  [sound_supported] never
    changes, and the mute flag is flipped once per press of M when sound is
    supported: it ends flipped exactly when the number of presses is odd, and
    is never touched without sound support. *)
Theorem control_flags_after_events (evs : list Event) (g : Game) (w : World) :
  let g' := eval (handle_events evs g) w in
  running g' = running g && negb (existsb quit_request evs) /\
  sound_supported g' = sound_supported g /\
  is_muted g' =
    xorb (is_muted g)
         (sound_supported g && Nat.odd (length (filter mute_press evs))).
Proof.
  revert g w. induction evs as [|ev evs IH]; intros g w.
  - cbn. rewrite andb_true_r, andb_false_r, xorb_false_r. auto.
  - cbn zeta. rewrite eval_handle_events_cons.
    pose proof (handle_event_flags ev g w) as H1. cbn zeta in H1.
    pose proof (IH (eval (handle_event ev g) w) (exec (handle_event ev g) w))
      as H2. cbn zeta in H2.
    destruct H1 as (R1 & S1 & M1), H2 as (R2 & S2 & M2).
    rewrite R2, S2, M2, R1, S1, M1. cbn [existsb filter].
    split; [|split; [reflexivity|]].
    + rewrite negb_orb. now rewrite andb_assoc.
    + destruct (mute_press ev); cbn [length].
      * rewrite Nat.odd_succ, <- Nat.negb_odd.
        destruct (is_muted g), (sound_supported g),
          (Nat.odd (length (filter mute_press evs))); reflexivity.
      * rewrite andb_false_r, xorb_false_r. reflexivity.
Qed.

(** ** Leaving the loop *)

Lemma update_logic_running (now : Z) (g : Game) (w : World) :
  running (eval (update_logic now g) w) = running g.
Proof.
  unfold eval, update_logic. destruct (zombie g) as [z|]; [|reflexivity].
  destruct (Zombie.state (Zombie.update now z));
    rewrite ?run_bind, ?run_ret; reflexivity.
Qed.

Lemma spawn_logic_running (now : Z) (g : Game) (w : World) :
  running (eval (spawn_logic now g) w) = running g.
Proof.
  unfold eval, spawn_logic. destruct (zombie g); [reflexivity|].
  destruct (next_spawn_time g <=? now); [|reflexivity].
  rewrite !run_bind, run_ret. reflexivity.
Qed.

Lemma frame_running (evs : list Event) (g : Game) (w : World) :
  running (eval (frame evs g) w) =
  running g && negb (existsb quit_request evs).
Proof.
  rewrite eval_frame. cbn zeta.
  rewrite update_logic_running, spawn_logic_running.
  revert g. generalize (exec get_ticks w).
  induction evs as [|ev evs IH]; intros w0 g.
  - cbn. now rewrite andb_true_r.
  - rewrite eval_handle_events_cons, IH.
    pose proof (handle_event_flags ev g w0) as H. cbn zeta in H.
    destruct H as (-> & _). cbn [existsb]. rewrite negb_orb.
    now rewrite andb_assoc.
Qed.

Lemma main_loop_stopped (queues : list (list Event)) (g : Game) (w : World) :
  running g = false -> main_loop queues g w = (g, w).
Proof. intros H. destruct queues; cbn [main_loop]; [|rewrite H]; reflexivity. Qed.

(** X3. A quit request ends the loop at the end of the current iteration: when
    the loop is running and the first queue with a quit request is that of
    some frame, the run is the run of the frames before it followed by that
    whole frame (spawn logic and update included), and no later queue is
    read. *)
Theorem quit_ends_after_frame
  (before after : list (list Event)) (evs : list Event) (g : Game) (w : World) :
  running g = true ->
  forallb (fun q => negb (existsb quit_request q)) before = true ->
  existsb quit_request evs = true ->
  main_loop (before ++ evs :: after) g w =
    frame evs (eval (main_loop before g) w) (exec (main_loop before g) w) /\
  running (eval (main_loop (before ++ evs :: after) g) w) = false.
Proof.
  revert g w. induction before as [|q before IH]; intros g w Hr Hb He.
  - cbn [app]. assert (Hf : running (eval (frame evs g) w) = false)
      by (rewrite frame_running, He; now rewrite andb_false_r).
    assert (E : main_loop (evs :: after) g w = frame evs g w).
    { cbn [main_loop]. rewrite Hr, run_bind.
      rewrite (main_loop_stopped _ _ _ Hf). unfold eval, exec.
      now destruct (frame evs g w). }
    split; [exact E|]. unfold eval in *. now rewrite E.
  - cbn [forallb] in Hb. apply andb_true_iff in Hb as [Hq Hb].
    assert (Hr' : running (eval (frame q g) w) = true)
      by (rewrite frame_running, Hr, Hq; reflexivity).
    destruct (IH _ (exec (frame q g) w) Hr' Hb He) as [E1 E2].
    assert (U : forall rest, main_loop (q :: rest) g w =
                  main_loop rest (eval (frame q g) w) (exec (frame q g) w)).
    { intros rest. cbn [main_loop]. rewrite Hr, run_bind. reflexivity. }
    cbn [app]. unfold eval, exec in *. rewrite !U. unfold eval, exec.
    split; [exact E1|exact E2].
Qed.

Lemma quit_ends_after_frame_witness :
  let g := mkGame 0 0 None 0 true false true in
  let w := mkWorld (fun k => 16 * Z.of_nat k) 0 (fun k => k) 0 in
  running g = true /\
  eval (main_loop ([[OTHER]] ++ [KEYDOWN K_ESCAPE; MOUSEBUTTONDOWN 1 (150, 160)]
                   :: [[MOUSEBUTTONDOWN 1 (150, 160)]]) g) w =
  eval (frame [KEYDOWN K_ESCAPE; MOUSEBUTTONDOWN 1 (150, 160)]
          (eval (main_loop [[OTHER]] g) w)) (exec (main_loop [[OTHER]] g) w).
Proof.
  split; [reflexivity|].
  unfold eval at 1 2.
  now rewrite (proj1 (quit_ends_after_frame
                        [[OTHER]] [[MOUSEBUTTONDOWN 1 (150, 160)]]
                        [KEYDOWN K_ESCAPE; MOUSEBUTTONDOWN 1 (150, 160)]
                        (mkGame 0 0 None 0 true false true)
                        (mkWorld (fun k => 16 * Z.of_nat k) 0 (fun k => k) 0)
                        eq_refl eq_refl eq_refl)).
Defined.

(** ** Every click counts at most once *)

Lemma handle_event_click_bound (ev : Event) (g : Game) (w : World) :
  hits (eval (handle_event ev g) w) + misses (eval (handle_event ev g) w) <=
  hits g + misses g + (if primary_click ev then 1 else 0).
Proof.
  destruct (primary_click ev) eqn:Hp.
  - destruct ev as [|key|button pos|]; try discriminate.
    cbn [primary_click] in Hp. unfold eval. cbn [handle_event]. rewrite Hp.
    destruct (zombie g) as [z|]; [|cbn; lia].
    destruct (Zombie.is_clickable z && Zombie.hit_test z pos).
    + rewrite run_bind, run_ret. cbn. lia.
    + destruct (Zombie.state z); cbn; lia.
  - destruct (other_event_view ev g w Hp) as [Hv _].
    unfold score_view in Hv. injection Hv as -> -> _ _. lia.
Qed.

Lemma handle_events_click_bound (evs : list Event) (g : Game) (w : World) :
  hits (eval (handle_events evs g) w) + misses (eval (handle_events evs g) w)
  <= hits g + misses g + Z.of_nat (length (filter primary_click evs)).
Proof.
  revert g w. induction evs as [|ev evs IH]; intros g w; [cbn; lia|].
  rewrite eval_handle_events_cons.
  pose proof (handle_event_click_bound ev g w) as H1.
  pose proof (IH (eval (handle_event ev g) w) (exec (handle_event ev g) w))
    as H2.
  cbn [filter]. destruct (primary_click ev); cbn [length]; lia.
Qed.

Lemma frame_click_bound (evs : list Event) (g : Game) (w : World) :
  hits (eval (frame evs g) w) + misses (eval (frame evs g) w) <=
  hits g + misses g + Z.of_nat (length (filter primary_click evs)).
Proof.
  rewrite eval_frame. cbn zeta.
  pose proof (handle_events_click_bound evs g (exec get_ticks w)) as H1.
  set (g1 := eval (handle_events evs g) (exec get_ticks w)) in *.
  set (w1 := exec (handle_events evs g) (exec get_ticks w)).
  pose proof (spawn_logic_counters (eval get_ticks w) g1 w1) as [H2 H3].
  pose proof (update_logic_budget (eval get_ticks w)
                (eval (spawn_logic (eval get_ticks w) g1) w1)
                (exec (spawn_logic (eval get_ticks w) g1) w1)) as H4.
  cbn zeta in H4. destruct H4 as (H4 & H5 & _). lia.
Qed.

(** X4. Along any run, [hits + misses] grows by at most the number of
    primary-button clicks in the event queues: a click is never counted
    twice, and nothing but a click is counted. *)
Theorem score_bounded_by_clicks
  (queues : list (list Event)) (g : Game) (w : World) :
  hits (eval (main_loop queues g) w) + misses (eval (main_loop queues g) w) <=
  hits g + misses g +
  Z.of_nat (length (filter primary_click (concat queues))).
Proof.
  revert g w. induction queues as [|evs rest IH]; intros g w; [cbn; lia|].
  unfold eval. cbn [main_loop concat]. rewrite filter_app, length_app.
  destruct (running g); [|cbn; lia].
  rewrite run_bind. pose proof (frame_click_bound evs g w) as H1.
  pose proof (IH (eval (frame evs g) w) (exec (frame evs g) w)) as H2.
  unfold eval in *. lia.
Qed.

(** ** What every owned entity looks like *)

Section SpawnedInvariant.

Variable P : Zombie.t -> Prop.
Hypothesis P_update : forall now z, P z -> P (Zombie.update now z).
Hypothesis P_hit : forall z w, P z -> P (eval (Zombie.register_hit z) w).
Hypothesis P_spawn :
  forall pos w, In pos SPAWN_POINTS -> P (eval (Zombie.init pos) w).

Lemma spawn_logic_spawned (now : Z) (g : Game) (w : World) :
  slot P g -> slot P (eval (spawn_logic now g) w).
Proof.
  rewrite !slot_iff. unfold eval, spawn_logic.
  destruct (zombie g) as [z|] eqn:Hz; [cbn; now rewrite Hz|].
  destruct (next_spawn_time g <=? now); [|cbn; now rewrite Hz].
  intros _. rewrite !run_bind, run_ret. cbn [fst zombie set_zombie].
  apply P_spawn, choice_In. discriminate.
Qed.

Lemma frame_samples_spawned (evs : list Event) (g : Game) (w : World) :
  slot P g ->
  Forall (slot P) (frame_samples evs g w) /\ slot P (eval (frame evs g) w).
Proof.
  intros H. unfold frame_samples. rewrite eval_frame. cbn zeta.
  destruct (event_samples_slot P P_hit evs g (exec get_ticks w) H) as [H1 H2].
  pose proof (spawn_logic_spawned (eval get_ticks w) _
                (exec (handle_events evs g) (exec get_ticks w)) H2) as H3.
  pose proof (update_logic_slot P P_update (eval get_ticks w) _
                (exec (spawn_logic (eval get_ticks w)
                         (eval (handle_events evs g) (exec get_ticks w)))
                      (exec (handle_events evs g) (exec get_ticks w))) H3)
    as H4.
  split; [|exact H4].
  apply Forall_app. split; [exact H1|].
  constructor; [exact H3|]. constructor; [exact H4|constructor].
Qed.

Lemma run_samples_spawned (queues : list (list Event)) (g : Game) (w : World) :
  slot P g -> Forall (slot P) (run_samples queues g w).
Proof.
  revert g w. induction queues as [|evs rest IH]; intros g w H; [constructor|].
  cbn [run_samples]. destruct (running g); [|constructor].
  destruct (frame_samples_spawned evs g w H) as [H1 H2].
  apply Forall_app. split; [exact H1|now apply IH].
Qed.

End SpawnedInvariant.

(** X5. At every sampled instant of every run from the start of [main], the
    owned entity sits on one of the spawn points, has the base radius and a
    lifetime between 800 and 1500 ms. *)
Theorem owned_entity_well_formed
  (sound : bool) (queues : list (list Event)) (w : World) :
  Forall (slot (fun z =>
            In (Zombie.x z, Zombie.y z) SPAWN_POINTS /\
            Zombie.radius z = ZOMBIE_BASE_RADIUS /\
            SPAWN_MIN_MS <= Zombie.lifetime_ms z <= SPAWN_MAX_MS))
         (init_game sound :: run_samples queues (init_game sound) w).
Proof.
  assert (H0 : slot (fun z =>
            In (Zombie.x z, Zombie.y z) SPAWN_POINTS /\
            Zombie.radius z = ZOMBIE_BASE_RADIUS /\
            SPAWN_MIN_MS <= Zombie.lifetime_ms z <= SPAWN_MAX_MS)
            (init_game sound)) by constructor.
  constructor; [exact H0|]. apply run_samples_spawned; [| | |exact H0].
  - intros now z H.
    destruct (update_fields now z) as (-> & -> & -> & _ & ->). exact H.
  - intros z w0 H. exact H.
  - intros pos w0 Hin. split; [|split; [reflexivity|]].
    + cbn. now rewrite <- surjective_pairing.
    + unfold eval, Zombie.init. rewrite !run_bind, run_ret.
      cbn [fst Zombie.lifetime_ms]. apply randint_range.
      unfold SPAWN_MIN_MS, SPAWN_MAX_MS. lia.
Qed.

(** X6. At every sampled instant of every run from the start of [main], the
    owned entity is clickable exactly when it is spawning or alive: the hit
    flag is set only on a despawning entity, so a click on a spawning or alive
    entity is a miss only because the hit test fails. *)
Theorem clickable_iff_targetable
  (sound : bool) (queues : list (list Event)) (w : World) :
  Forall (slot (fun z =>
            Zombie.is_clickable z = true <->
            Zombie.state z = Spawning \/ Zombie.state z = Alive))
         (init_game sound :: run_samples queues (init_game sound) w).
Proof.
  set (P := fun z => (Zombie.state z = Spawning \/ Zombie.state z = Alive) ->
                     Zombie.hit_registered z = false).
  assert (HP : forall g, slot P g ->
            slot (fun z => Zombie.is_clickable z = true <->
                    Zombie.state z = Spawning \/ Zombie.state z = Alive) g).
  { intros g. rewrite !slot_iff. destruct (zombie g) as [z|]; [|trivial].
    intros H. rewrite is_clickable_iff. unfold P in H. tauto. }
  assert (H0 : slot P (init_game sound)) by constructor.
  assert (H : Forall (slot P)
                (init_game sound :: run_samples queues (init_game sound) w)).
  { constructor; [exact H0|]. apply run_samples_slot; [| | |exact H0].
    - intros now z Hz. unfold P in *. rewrite update_hit_registered.
      intros Hs. apply Hz. unfold Zombie.update in Hs.
      destruct (Zombie.state z) eqn:E; auto;
        repeat match type of Hs with
               | context [if ?b then _ else _] => destruct b
               end; cbn in Hs; rewrite ?E in Hs;
        destruct Hs; discriminate.
    - intros z w0 _ [Hs|Hs]; discriminate.
    - intros pos w0 _. reflexivity. }
  revert H. apply Forall_impl. exact HP.
Qed.

(** X7. At every sampled instant of every run from the start of [main]: a
    spawning entity entered its state at its spawn time; an alive entity
    entered it at least 180 ms after its spawn time; and an entity that is
    despawning without having been hit entered that state no earlier than its
    spawn time plus its lifetime. *)
Theorem owned_entity_timing
  (sound : bool) (queues : list (list Event)) (w : World) :
  Forall (slot (fun z =>
            match Zombie.state z with
            | Spawning => Zombie.state_time z = Zombie.spawn_time z
            | Alive =>
                Zombie.spawn_time z + SPAWN_ANIM_MS <= Zombie.state_time z
            | Despawning | Dead =>
                Zombie.hit_registered z = true \/
                Zombie.spawn_time z + Zombie.lifetime_ms z
                <= Zombie.state_time z
            end))
         (init_game sound :: run_samples queues (init_game sound) w).
Proof.
  set (P := fun z => match Zombie.state z with
            | Spawning => Zombie.state_time z = Zombie.spawn_time z
            | Alive =>
                Zombie.spawn_time z + SPAWN_ANIM_MS <= Zombie.state_time z
            | Despawning | Dead =>
                Zombie.hit_registered z = true \/
                Zombie.spawn_time z + Zombie.lifetime_ms z
                <= Zombie.state_time z
            end).
  assert (H0 : slot P (init_game sound)) by constructor.
  constructor; [exact H0|]. apply run_samples_slot; [| | |exact H0].
  - intros now z Hz. unfold P, Zombie.update in *.
    destruct (Zombie.state z) eqn:E.
    + destruct (Z.leb_spec SPAWN_ANIM_MS (now - Zombie.state_time z));
        cbn; rewrite ?E; [lia|exact Hz].
    + destruct (Z.leb_spec (Zombie.lifetime_ms z) (now - Zombie.spawn_time z));
        cbn; rewrite ?E; [right; lia|exact Hz].
    + destruct (DESPAWN_ANIM_MS <=? now - Zombie.state_time z);
        cbn; rewrite ?E; exact Hz.
    + rewrite E. exact Hz.
  - intros z w0 _. left. reflexivity.
  - intros pos w0. reflexivity.
Qed.

(** ** The timer of an entity *)

Lemma update_keeps_clickable (now : Z) (z : Zombie.t) :
  Zombie.is_clickable z = true ->
  now < Zombie.spawn_time z + Zombie.lifetime_ms z ->
  Zombie.is_clickable (Zombie.update now z) = true.
Proof.
  intros Hc Hn. apply is_clickable_iff in Hc as [Hs Hf].
  apply is_clickable_iff. rewrite update_hit_registered. split; [|exact Hf].
  unfold Zombie.update. destruct Hs as [Hs|Hs]; rewrite Hs.
  - destruct (SPAWN_ANIM_MS <=? now - Zombie.state_time z); cbn; auto.
  - destruct (Z.leb_spec (Zombie.lifetime_ms z) (now - Zombie.spawn_time z));
      [lia|auto].
Qed.

(** X8. An entity that is clickable stays clickable under any sequence of
    updates whose timestamps are all earlier than its spawn time plus its
    lifetime: without a hit, the head can be whacked during its whole
    lifetime, whatever the frame rate. *)
Theorem clickable_during_lifetime (times : list Z) (z : Zombie.t) :
  Zombie.is_clickable z = true ->
  Forall (fun now => now < Zombie.spawn_time z + Zombie.lifetime_ms z) times ->
  Zombie.is_clickable (updates times z) = true.
Proof.
  revert z. induction times as [|now times IH]; intros z Hc Ht; [exact Hc|].
  inversion Ht as [|? ? Hn Ht']; subst. unfold updates. cbn [fold_left].
  apply IH.
  - now apply update_keeps_clickable.
  - destruct (update_fields now z) as (_ & _ & _ & -> & ->). exact Ht'.
Qed.

Lemma clickable_during_lifetime_witness :
  let z := Zombie.mk 150 160 48 100 900 Spawning false 100 in
  Zombie.is_clickable z = true /\
  Zombie.is_clickable (updates [116; 280; 999; 500] z) = true.
Proof.
  split; [reflexivity|].
  apply (clickable_during_lifetime [116; 280; 999; 500]
           (Zombie.mk 150 160 48 100 900 Spawning false 100)).
  - reflexivity.
  - repeat constructor.
Defined.

(** X9. Every entity despawns by itself: whatever its state, three updates
    kill it when the first comes at least 220 ms after it entered its state,
    the second not before the first and not before its spawn time plus its
    lifetime, and the third at least 220 ms after the second; and a dead
    entity stays dead under [update]. *)
Theorem auto_despawn (t1 t2 t3 : Z) (z : Zombie.t) :
  Zombie.state_time z + DESPAWN_ANIM_MS <= t1 ->
  t1 <= t2 ->
  Zombie.spawn_time z + Zombie.lifetime_ms z <= t2 ->
  t2 + DESPAWN_ANIM_MS <= t3 ->
  Zombie.state (updates [t1; t2; t3] z) = Dead /\
  (forall times, Zombie.state (updates times (updates [t1; t2; t3] z)) = Dead).
Proof.
  intros H1 H12 H2 H3. unfold SPAWN_ANIM_MS, DESPAWN_ANIM_MS in *.
  assert (Hd : Zombie.state (updates [t1; t2; t3] z) = Dead).
  { unfold updates. cbn [fold_left].
    set (z1 := Zombie.update t1 z). set (z2 := Zombie.update t2 z1).
    assert (A : Zombie.state z1 = Alive \/
                (Zombie.state z1 = Despawning /\ Zombie.state_time z1 = t1) \/
                Zombie.state z1 = Dead).
    { subst z1. unfold Zombie.update, SPAWN_ANIM_MS, DESPAWN_ANIM_MS.
      destruct (Zombie.state z) eqn:E;
        repeat match goal with
               | |- context [if ?a <=? ?b then _ else _] =>
                   destruct (Z.leb_spec a b)
               end; cbn; rewrite ?E; auto; lia. }
    assert (F1 : Zombie.spawn_time z1 = Zombie.spawn_time z /\
                 Zombie.lifetime_ms z1 = Zombie.lifetime_ms z)
      by (subst z1; destruct (update_fields t1 z) as (_ & _ & _ & -> & ->);
          auto).
    destruct F1 as [Fs Fl].
    assert (B : (Zombie.state z2 = Despawning /\ Zombie.state_time z2 <= t2) \/
                Zombie.state z2 = Dead).
    { subst z2. unfold Zombie.update, SPAWN_ANIM_MS, DESPAWN_ANIM_MS.
      destruct A as [A|[[A A']|A]]; rewrite A;
        repeat match goal with
               | |- context [if ?a <=? ?b then _ else _] =>
                   destruct (Z.leb_spec a b)
               end; cbn; rewrite ?A;
        solve [auto | left; split; [auto|cbn; lia] | lia]. }
    unfold Zombie.update, DESPAWN_ANIM_MS.
    destruct B as [[B B']|B]; rewrite B;
      repeat match goal with
             | |- context [if ?a <=? ?b then _ else _] =>
                 destruct (Z.leb_spec a b)
             end; cbn; rewrite ?B; auto; lia. }
  split; [exact Hd|].
  intros times. revert Hd. generalize (updates [t1; t2; t3] z).
  induction times as [|now times IH]; intros z' Hd; [exact Hd|].
  unfold updates. cbn [fold_left]. apply IH.
  unfold Zombie.update. now rewrite Hd.
Qed.

Lemma auto_despawn_witness :
  let z := Zombie.mk 150 160 48 100 900 Alive false 290 in
  Zombie.state (updates [510; 1000; 1220] z) = Dead.
Proof.
  apply (auto_despawn 510 1000 1220
           (Zombie.mk 150 160 48 100 900 Alive false 290));
    unfold DESPAWN_ANIM_MS; cbn; lia.
Defined.

(** ** The pause between two entities *)

Lemma frame_waiting (evs : list Event) (g : Game) (w : World) :
  zombie g = None -> ticks w (tick_ix w) < next_spawn_time g ->
  zombie (eval (frame evs g) w) = None /\
  hits (eval (frame evs g) w) = hits g /\
  misses (eval (frame evs g) w) = misses g /\
  next_spawn_time (eval (frame evs g) w) = next_spawn_time g /\
  exec (frame evs g) w = exec get_ticks w.
Proof.
  intros Hz Hn. rewrite eval_frame, exec_frame. cbn zeta.
  destruct (handle_events_empty evs g (exec get_ticks w) Hz)
    as (Hw & Hz1 & Hn1 & Hh1 & Hm1).
  rewrite Hw. set (g1 := eval (handle_events evs g) (exec get_ticks w)) in *.
  assert (Hs : spawn_logic (eval get_ticks w) g1 (exec get_ticks w)
               = (g1, exec get_ticks w)).
  { unfold spawn_logic. rewrite Hz1, Hn1.
    change (eval get_ticks w) with (ticks w (tick_ix w)).
    destruct (Z.leb_spec (next_spawn_time g) (ticks w (tick_ix w)));
      [lia|reflexivity]. }
  assert (Es : eval (spawn_logic (eval get_ticks w) g1) (exec get_ticks w)
               = g1) by (unfold eval at 1; now rewrite Hs).
  assert (Xs : exec (spawn_logic (eval get_ticks w) g1) (exec get_ticks w)
               = exec get_ticks w) by (unfold exec at 1; now rewrite Hs).
  rewrite Es, Xs. unfold eval at 1 2 3 4, exec at 1, update_logic.
  rewrite Hz1. cbn [fst snd ret]. auto.
Qed.

Lemma frame_spawning (evs : list Event) (g : Game) (w : World) :
  zombie g = None -> next_spawn_time g <= ticks w (tick_ix w) ->
  exists z,
    zombie (eval (frame evs g) w) = Some z /\
    In (Zombie.x z, Zombie.y z) SPAWN_POINTS /\
    Zombie.hit_registered z = false /\
    Zombie.spawn_time z = ticks w (S (tick_ix w)).
Proof.
  intros Hz Hnow. rewrite eval_frame. cbn zeta.
  set (w0 := exec get_ticks w).
  destruct (handle_events_empty evs g w0 Hz) as (-> & Hz1 & Hn & _).
  set (g1 := eval (handle_events evs g) w0) in *.
  set (now := eval get_ticks w).
  assert (Hle : next_spawn_time g1 <= now) by (rewrite Hn; exact Hnow).
  pose proof (spawn_logic_creates now g1 w0 Hz1 Hle) as Hc.
  set (z := Zombie.mk _ _ _ _ _ _ _ _) in Hc.
  pose proof (update_fresh_not_dead now z eq_refl) as Hd.
  exists (Zombie.update now z).
  unfold eval at 1. rewrite (update_logic_keeps now _ _ z Hc Hd).
  cbn [fst zombie set_zombie].
  destruct (update_fields now z) as (-> & -> & _ & -> & _).
  rewrite update_hit_registered.
  split; [reflexivity|]. split; [|split; reflexivity].
  subst z. cbn [Zombie.x Zombie.y]. rewrite <- surjective_pairing.
  apply nth_In, Nat.mod_upper_bound. discriminate.
Qed.

Lemma waiting_run (queues : list (list Event)) :
  forall (g : Game) (w : World),
  zombie g = None ->
  (forall k, (k < length queues)%nat ->
     ticks w (tick_ix w + k) < next_spawn_time g) ->
  zombie (eval (main_loop queues g) w) = None /\
  hits (eval (main_loop queues g) w) = hits g /\
  misses (eval (main_loop queues g) w) = misses g /\
  next_spawn_time (eval (main_loop queues g) w) = next_spawn_time g.
Proof.
  induction queues as [|evs rest IH]; intros g w Hz Ht; [cbn; auto|].
  unfold eval. cbn [main_loop]. destruct (running g); [|cbn; auto].
  rewrite run_bind.
  pose proof (Ht 0%nat ltac:(cbn; lia)) as H0. rewrite Nat.add_0_r in H0.
  destruct (frame_waiting evs g w Hz H0) as (Hz' & <- & <- & Hn & Hw).
  rewrite <- Hn. apply IH; [exact Hz'|].
  intros k Hk. rewrite Hw, Hn. cbn [exec get_ticks snd ticks tick_ix].
  replace (S (tick_ix w) + k)%nat with (tick_ix w + S k)%nat by lia.
  apply Ht. cbn. lia.
Qed.

(** X10. While no entity is owned and the frames start before
    [next_spawn_time], nothing happens whatever the events are: the slot stays
    empty, clicks are counted neither as hits nor as misses, and
    [next_spawn_time] is kept. *)
Theorem empty_slot_waits
  (queues : list (list Event)) (g : Game) (w : World) :
  zombie g = None ->
  forallb (fun t => t <? next_spawn_time g) (readings w 0 (length queues))
  = true ->
  zombie (eval (main_loop queues g) w) = None /\
  hits (eval (main_loop queues g) w) = hits g /\
  misses (eval (main_loop queues g) w) = misses g /\
  next_spawn_time (eval (main_loop queues g) w) = next_spawn_time g.
Proof.
  intros Hz Ht. apply waiting_run; [exact Hz|].
  intros k Hk.
  pose proof (forallb_readings _ w 0 (length queues) k Ht Hk) as H.
  cbn beta in H. rewrite Nat.add_0_r in H. now apply Z.ltb_lt.
Qed.

Lemma empty_slot_waits_witness :
  let g := mkGame 4 1 None 1500 true false true in
  let w := mkWorld (fun k => 1230 + 16 * Z.of_nat k) 7 (fun k => k) 3 in
  let queues := [[MOUSEBUTTONDOWN 1 (150, 160)]; [];
                 [MOUSEBUTTONDOWN 1 (300, 140); KEYDOWN K_m]] in
  zombie g = None /\
  hits (eval (main_loop queues g) w) = 4 /\
  misses (eval (main_loop queues g) w) = 1.
Proof.
  split; [reflexivity|].
  destruct (empty_slot_waits
              [[MOUSEBUTTONDOWN 1 (150, 160)]; [];
               [MOUSEBUTTONDOWN 1 (300, 140); KEYDOWN K_m]]
              (mkGame 4 1 None 1500 true false true)
              (mkWorld (fun k => 1230 + 16 * Z.of_nat k) 7 (fun k => k) 3)
              eq_refl eq_refl) as (_ & Hh & Hm & _).
  split; [exact Hh|exact Hm].
Defined.

Lemma update_logic_release (now : Z) (g : Game) (w : World) (z : Zombie.t) :
  zombie g = Some z -> Zombie.state (Zombie.update now z) = Dead ->
  eval (update_logic now g) w = release (now + eval (randint 220 520) w) g.
Proof.
  intros Hz Hd. unfold eval at 1, update_logic.
  rewrite Hz, Hd, run_bind, run_ret. reflexivity.
Qed.

(** X11. The pause after a despawn lasts between 220 and 520 ms: when the
    update of a frame that started at [now] leaves the owned entity dead, no
    entity is spawned by a following frame that starts before [now + 220], and
    one is spawned, on a spawn point, by a following frame that starts at
    [now + 520] or later. *)
Theorem pause_between_entities
  (now : Z) (g : Game) (w : World) (z : Zombie.t)
  (evs : list Event) (w' : World) :
  zombie g = Some z -> Zombie.state (Zombie.update now z) = Dead ->
  let g' := eval (update_logic now g) w in
  (ticks w' (tick_ix w') < now + 220 ->
   zombie (eval (frame evs g') w') = None) /\
  (now + 520 <= ticks w' (tick_ix w') ->
   exists z', zombie (eval (frame evs g') w') = Some z' /\
              In (Zombie.x z', Zombie.y z') SPAWN_POINTS /\
              Zombie.hit_registered z' = false).
Proof.
  intros Hz Hd. cbn zeta.
  assert (Hg : zombie (eval (update_logic now g) w) = None /\
               now + 220 <= next_spawn_time (eval (update_logic now g) w)
               <= now + 520).
  { rewrite (update_logic_release now g w z Hz Hd).
    cbn [zombie next_spawn_time release]. split; [reflexivity|].
    pose proof (randint_range 220 520 w ltac:(lia)). lia. }
  destruct Hg as [Hn Hr]. split; intros Ht.
  - apply (frame_waiting evs _ w' Hn). lia.
  - destruct (frame_spawning evs _ w' Hn ltac:(lia)) as (z' & H1 & H2 & H3 & _).
    exists z'. auto.
Qed.

Lemma pause_between_entities_witness :
  let z := Zombie.mk 150 160 48 0 1000 Despawning true 1000 in
  let g := mkGame 1 0 (Some z) 0 true false true in
  let w := mkWorld (fun _ => 1220) 1 (fun _ => 5%nat) 0 in
  let early := mkWorld (fun _ => 1439) 2 (fun _ => 5%nat) 1 in
  let late := mkWorld (fun _ => 1740) 2 (fun _ => 5%nat) 1 in
  zombie (eval (frame [] (eval (update_logic 1220 g) w)) early) = None /\
  exists z', zombie (eval (frame [] (eval (update_logic 1220 g) w)) late)
             = Some z'.
Proof.
  split.
  - apply (proj1 (pause_between_entities 1220
             (mkGame 1 0 (Some (Zombie.mk 150 160 48 0 1000 Despawning true 1000))
                     0 true false true)
             (mkWorld (fun _ => 1220) 1 (fun _ => 5%nat) 0)
             (Zombie.mk 150 160 48 0 1000 Despawning true 1000) []
             (mkWorld (fun _ => 1439) 2 (fun _ => 5%nat) 1)
             eq_refl eq_refl)).
    cbn. lia.
  - destruct (proj2 (pause_between_entities 1220
             (mkGame 1 0 (Some (Zombie.mk 150 160 48 0 1000 Despawning true 1000))
                     0 true false true)
             (mkWorld (fun _ => 1220) 1 (fun _ => 5%nat) 0)
             (Zombie.mk 150 160 48 0 1000 Despawning true 1000) []
             (mkWorld (fun _ => 1740) 2 (fun _ => 5%nat) 1)
             eq_refl eq_refl)) as (z' & H & _); [cbn; lia|].
    exists z'. exact H.
Defined.

(** ** A despawning entity *)

Lemma despawning_event (ev : Event) (g : Game) (w : World) (z : Zombie.t) :
  zombie g = Some z -> Zombie.state z = Despawning ->
  score_view (eval (handle_event ev g) w) = score_view g /\
  exec (handle_event ev g) w = w.
Proof.
  intros Hz Hs. destruct (primary_click ev) eqn:Hp;
    [|now apply other_event_view].
  destruct ev as [|key|button pos|]; try discriminate.
  cbn [primary_click] in Hp. unfold eval, exec, score_view.
  cbn [handle_event]. rewrite Hp, Hz.
  unfold Zombie.is_clickable. rewrite Hs. cbn. rewrite Hz. auto.
Qed.

Lemma despawning_events (evs : list Event) (g : Game) (w : World)
  (z : Zombie.t) :
  zombie g = Some z -> Zombie.state z = Despawning ->
  score_view (eval (handle_events evs g) w) = score_view g /\
  exec (handle_events evs g) w = w.
Proof.
  revert g. induction evs as [|ev evs IH]; intros g Hz Hs; [cbn; auto|].
  rewrite eval_handle_events_cons, exec_handle_events_cons.
  destruct (despawning_event ev g w z Hz Hs) as [Hv ->].
  rewrite <- Hv. apply IH; [|exact Hs].
  unfold score_view in Hv. injection Hv as _ _ Hz' _. congruence.
Qed.

Lemma update_despawning (now : Z) (z : Zombie.t) :
  Zombie.state z = Despawning ->
  Zombie.state (Zombie.update now z) = Despawning \/
  Zombie.state (Zombie.update now z) = Dead.
Proof.
  intros Hs. unfold Zombie.update. rewrite Hs.
  destruct (DESPAWN_ANIM_MS <=? now - Zombie.state_time z); cbn; auto.
Qed.

Lemma despawning_frame (evs : list Event) (g : Game) (w : World)
  (z : Zombie.t) :
  zombie g = Some z -> Zombie.state z = Despawning ->
  hits (eval (frame evs g) w) = hits g /\
  misses (eval (frame evs g) w) = misses g /\
  (zombie (eval (frame evs g) w) = None \/
   exists z', zombie (eval (frame evs g) w) = Some z' /\
              Zombie.state z' = Despawning).
Proof.
  intros Hz Hs. rewrite eval_frame. cbn zeta.
  destruct (despawning_events evs g (exec get_ticks w) z Hz Hs) as [Hv Hw].
  unfold score_view in Hv. injection Hv as Hh Hm Hz1 _. rewrite Hz in Hz1.
  set (g1 := eval (handle_events evs g) (exec get_ticks w)) in *.
  assert (Ho : occupied g1 = true) by (unfold occupied; now rewrite Hz1).
  rewrite eval_spawn_occupied, exec_spawn_occupied by exact Ho.
  destruct (update_logic_budget (eval get_ticks w) g1
              (exec (handle_events evs g) (exec get_ticks w)))
    as (-> & -> & _).
  split; [exact Hh|]. split; [exact Hm|].
  rewrite update_logic_zombie, Hz1.
  destruct (update_despawning (eval get_ticks w) z Hs) as [E|E]; rewrite E;
    [right; eauto|left; reflexivity].
Qed.

(** X12. Clicks on a despawning entity are free: as long as a despawning
    entity stays owned, no click changes [hits] or [misses], wherever it
    lands. *)
Theorem despawning_clicks_are_free
  (queues : list (list Event)) (g : Game) (w : World) (z : Zombie.t) :
  zombie g = Some z -> Zombie.state z = Despawning ->
  kept queues g w = true ->
  hits (eval (main_loop queues g) w) = hits g /\
  misses (eval (main_loop queues g) w) = misses g.
Proof.
  revert g w z. induction queues as [|evs rest IH]; intros g w z Hz Hs Hk;
    [cbn; auto|].
  cbn [kept] in Hk. rewrite Hz in Hk. unfold eval. cbn [main_loop].
  destruct (running g); [|cbn; auto]. rewrite run_bind.
  destruct (despawning_frame evs g w z Hz Hs) as (Hh & Hm & [Hn|(z' & Hz' & Hs')]).
  - destruct rest; cbn [kept] in Hk; rewrite Hn in Hk; discriminate.
  - destruct (IH _ _ z' Hz' Hs' Hk) as [H1 H2]. unfold eval in *.
    rewrite H1, H2. auto.
Qed.

Lemma despawning_clicks_are_free_witness :
  let z := Zombie.mk 150 160 48 0 1000 Despawning false 1000 in
  let g := mkGame 2 5 (Some z) 0 true false true in
  let w := mkWorld (fun k => 1010 + 16 * Z.of_nat k) 0 (fun k => k) 0 in
  let queues := [[MOUSEBUTTONDOWN 1 (150, 160)];
                 [MOUSEBUTTONDOWN 1 (400, 400); MOUSEBUTTONDOWN 1 (151, 160)]] in
  kept queues g w = true /\
  hits (eval (main_loop queues g) w) = 2 /\
  misses (eval (main_loop queues g) w) = 5.
Proof.
  split; [vm_compute; reflexivity|].
  apply (despawning_clicks_are_free
           [[MOUSEBUTTONDOWN 1 (150, 160)];
            [MOUSEBUTTONDOWN 1 (400, 400); MOUSEBUTTONDOWN 1 (151, 160)]]
           (mkGame 2 5 (Some (Zombie.mk 150 160 48 0 1000 Despawning false 1000))
                   0 true false true)
           (mkWorld (fun k => 1010 + 16 * Z.of_nat k) 0 (fun k => k) 0)
           (Zombie.mk 150 160 48 0 1000 Despawning false 1000)).
  - reflexivity.
  - reflexivity.
  - vm_compute. reflexivity.
Defined.

(** X13. A frame whose queue starts with a click inside the hit box of a
    clickable entity scores exactly one hit and no miss, whatever follows in
    the queue, and ends with the entity despawning, flagged as hit, its
    [state_time] being the clock reading taken by [register_hit], provided
    that reading is not 220 ms or more before the start of the frame (as
    with any clock that does not run backwards). *)
Theorem hit_frame
  (pos : Z * Z) (rest : list Event) (g : Game) (w : World) (z : Zombie.t) :
  zombie g = Some z -> Zombie.is_clickable z = true ->
  Zombie.hit_test z pos = true ->
  ticks w (tick_ix w) - ticks w (S (tick_ix w)) < DESPAWN_ANIM_MS ->
  let g' := eval (frame (MOUSEBUTTONDOWN 1 pos :: rest) g) w in
  hits g' = hits g + 1 /\ misses g' = misses g /\
  zombie g' =
    Some (Zombie.mk (Zombie.x z) (Zombie.y z) (Zombie.radius z)
            (Zombie.spawn_time z) (Zombie.lifetime_ms z) Despawning true
            (ticks w (S (tick_ix w)))).
Proof.
  intros Hz Hc Ht Hclock. cbn zeta. rewrite eval_frame. cbn zeta.
  rewrite eval_handle_events_cons, exec_handle_events_cons.
  set (w0 := exec get_ticks w).
  set (z' := Zombie.mk (Zombie.x z) (Zombie.y z) (Zombie.radius z)
               (Zombie.spawn_time z) (Zombie.lifetime_ms z) Despawning true
               (ticks w (S (tick_ix w)))).
  assert (E1 : handle_event (MOUSEBUTTONDOWN 1 pos) g w0 =
               (score_hit z' g, exec get_ticks w0)).
  { cbn [handle_event]. change (1 =? 1) with true. cbv iota.
    rewrite Hz, Hc, Ht. cbn [andb]. rewrite run_bind, run_ret. reflexivity. }
  assert (Ee : eval (handle_event (MOUSEBUTTONDOWN 1 pos) g) w0
               = score_hit z' g) by (unfold eval; now rewrite E1).
  assert (Ex : exec (handle_event (MOUSEBUTTONDOWN 1 pos) g) w0
               = exec get_ticks w0) by (unfold exec at 1; now rewrite E1).
  rewrite Ee, Ex.
  destruct (despawning_events rest (score_hit z' g) (exec get_ticks w0) z'
              eq_refl eq_refl) as [Hv Hw].
  unfold score_view in Hv. cbn [hits misses zombie score_hit] in Hv.
  injection Hv as Hh Hm Hz1 _. rewrite Hw.
  set (g1 := eval (handle_events rest (score_hit z' g)) (exec get_ticks w0))
    in *.
  assert (Ho : occupied g1 = true) by (unfold occupied; now rewrite Hz1).
  rewrite eval_spawn_occupied, exec_spawn_occupied by exact Ho.
  destruct (update_logic_budget (eval get_ticks w) g1 (exec get_ticks w0))
    as (-> & -> & _).
  split; [exact Hh|]. split; [exact Hm|].
  rewrite update_logic_zombie, Hz1.
  assert (Eu : Zombie.update (eval get_ticks w) z' = z').
  { unfold Zombie.update. cbn [Zombie.state z' Zombie.state_time].
    change (eval get_ticks w) with (ticks w (tick_ix w)).
    destruct (Z.leb_spec DESPAWN_ANIM_MS
                (ticks w (tick_ix w) - ticks w (S (tick_ix w))));
      [lia|reflexivity]. }
  rewrite Eu. reflexivity.
Qed.

Lemma hit_frame_witness :
  let z := Zombie.mk 150 160 48 0 1000 Spawning false 0 in
  let g := mkGame 0 0 (Some z) 0 true false true in
  let w := mkWorld (fun k => 50 + Z.of_nat k) 0 (fun k => k) 0 in
  let g' := eval (frame [MOUSEBUTTONDOWN 1 (193, 160);
                         MOUSEBUTTONDOWN 1 (150, 160);
                         MOUSEBUTTONDOWN 1 (500, 500)] g) w in
  Zombie.hit_test z (193, 160) = true /\
  hits g' = 1 /\ misses g' = 0 /\
  zombie g' = Some (Zombie.mk 150 160 48 0 1000 Despawning true 51).
Proof.
  split; [vm_compute; reflexivity|].
  apply (hit_frame (193, 160)
           [MOUSEBUTTONDOWN 1 (150, 160); MOUSEBUTTONDOWN 1 (500, 500)]
           (mkGame 0 0 (Some (Zombie.mk 150 160 48 0 1000 Spawning false 0))
                   0 true false true)
           (mkWorld (fun k => 50 + Z.of_nat k) 0 (fun k => k) 0)
           (Zombie.mk 150 160 48 0 1000 Spawning false 0)).
  - reflexivity.
  - reflexivity.
  - vm_compute. reflexivity.
  - cbn. unfold DESPAWN_ANIM_MS. lia.
Defined.

(** ** The drawn radius *)

Lemma forallb_Z_range (P : Z -> bool) (n : nat) (d : Z) :
  forallb P (map Z.of_nat (seq 0 n)) = true ->
  0 <= d < Z.of_nat n -> P d = true.
Proof.
  intros H Hd. rewrite forallb_forall in H. apply H.
  apply in_map_iff. exists (Z.to_nat d). split; [lia|]. apply in_seq. lia.
Qed.

Lemma draw_radius_after (now : Z) (z : Zombie.t) :
  Zombie.radius z = ZOMBIE_BASE_RADIUS ->
  draw_radius now z = radius_after (Zombie.state z) (now - Zombie.state_time z).
Proof.
  intros Hr. unfold radius_after, draw_radius, draw_scale.
  cbn [Zombie.radius Zombie.state Zombie.state_time].
  rewrite Hr, Z.sub_0_r. reflexivity.
Qed.

Lemma spawning_radius_range :
  forallb (fun d => (28 <=? radius_after Spawning d) &&
                    (radius_after Spawning d <=? 40))
          (map Z.of_nat (seq 0 181)) = true.
Proof. vm_compute. reflexivity. Qed.

Lemma despawning_radius_steps :
  forallb (fun d => (radius_after Despawning (d + 1)
                     <=? radius_after Despawning d) &&
                    (4 <=? radius_after Despawning (d + 1)))
          (map Z.of_nat (seq 0 220)) = true.
Proof. vm_compute. reflexivity. Qed.

(** X14. During the spawn animation (from 0 to 180 ms after the entity entered
    the state) the face of an entity with the base radius is drawn with a
    radius between 28 and 40 pixels: the pop-in never reaches the full 48
    pixels, and stays inside the hit box, which a click 45 pixels from the
    centre still hits. *)
Theorem draw_radius_spawning (now : Z) (z : Zombie.t) :
  Zombie.state z = Spawning -> Zombie.radius z = ZOMBIE_BASE_RADIUS ->
  0 <= now - Zombie.state_time z <= SPAWN_ANIM_MS ->
  28 <= draw_radius now z <= 40 /\
  Zombie.hit_test z (Zombie.x z + 45, Zombie.y z) = true.
Proof.
  intros Hs Hr Hd. split.
  - rewrite (draw_radius_after now z Hr), Hs.
    pose proof (forallb_Z_range _ 181 (now - Zombie.state_time z)
                  spawning_radius_range) as H.
    cbn beta in H. unfold SPAWN_ANIM_MS in Hd.
    specialize (H ltac:(cbn; lia)). apply andb_true_iff in H as [H1 H2].
    apply Z.leb_le in H1, H2. lia.
  - unfold Zombie.hit_test. rewrite Hr. apply int_le_hit_radius.
    replace (Zombie.x z + 45 - Zombie.x z) with 45 by lia.
    replace (Zombie.y z - Zombie.y z) with 0 by lia. cbn. lia.
Qed.

Lemma draw_radius_spawning_witness :
  let z := Zombie.mk 150 160 48 0 1000 Spawning false 0 in
  28 <= draw_radius 90 z <= 40 /\ Zombie.hit_test z (195, 160) = true.
Proof.
  apply (draw_radius_spawning 90
           (Zombie.mk 150 160 48 0 1000 Spawning false 0)).
  - reflexivity.
  - reflexivity.
  - unfold SPAWN_ANIM_MS. cbn. lia.
Defined.

Lemma despawning_radius_decreases (k : nat) (d : Z) :
  0 <= d -> d + Z.of_nat k <= 220 ->
  radius_after Despawning (d + Z.of_nat k) <= radius_after Despawning d /\
  (0 < d + Z.of_nat k -> 4 <= radius_after Despawning (d + Z.of_nat k)).
Proof.
  revert d. induction k as [|k IH]; intros d H0 H1.
  - rewrite Z.add_0_r. split; [lia|]. intros Hp.
    pose proof (forallb_Z_range _ 220 (d - 1) despawning_radius_steps) as H.
    cbn beta in H. specialize (H ltac:(cbn; lia)).
    apply andb_true_iff in H as [_ H]. apply Z.leb_le in H.
    now replace (d - 1 + 1) with d in H by lia.
  - replace (d + Z.of_nat (S k)) with ((d + Z.of_nat k) + 1) by lia.
    destruct (IH d H0 ltac:(lia)) as [IH1 _].
    pose proof (forallb_Z_range _ 220 (d + Z.of_nat k)
                  despawning_radius_steps) as H.
    cbn beta in H. specialize (H ltac:(cbn; lia)).
    apply andb_true_iff in H as [H2 H3]. apply Z.leb_le in H2, H3.
    split; [lia|intros _; exact H3].
Qed.

(** X15. During the despawn animation (from 0 to 220 ms after the entity
    entered the state) the drawn radius of an entity with the base radius
    never grows: it starts at the full 48 pixels, is never larger at a later
    time than at an earlier one, and ends at 4 pixels. *)
Theorem draw_radius_despawning (t1 t2 : Z) (z : Zombie.t) :
  Zombie.state z = Despawning -> Zombie.radius z = ZOMBIE_BASE_RADIUS ->
  Zombie.state_time z <= t1 -> t1 <= t2 ->
  t2 <= Zombie.state_time z + DESPAWN_ANIM_MS ->
  draw_radius t2 z <= draw_radius t1 z /\
  4 <= draw_radius t2 z /\ draw_radius t1 z <= 48 /\
  draw_radius (Zombie.state_time z) z = 48 /\
  draw_radius (Zombie.state_time z + DESPAWN_ANIM_MS) z = 4.
Proof.
  intros Hs Hr H1 H12 H2. unfold DESPAWN_ANIM_MS in *.
  rewrite !(draw_radius_after _ z Hr), Hs.
  replace (Zombie.state_time z - Zombie.state_time z) with 0 by lia.
  replace (Zombie.state_time z + 220 - Zombie.state_time z) with 220 by lia.
  set (d1 := t1 - Zombie.state_time z). set (d2 := t2 - Zombie.state_time z).
  assert (E0 : radius_after Despawning 0 = 48) by (vm_compute; reflexivity).
  assert (E1 : radius_after Despawning 220 = 4) by (vm_compute; reflexivity).
  destruct (despawning_radius_decreases (Z.to_nat (d2 - d1)) d1)
    as [Ha _]; [subst d1; lia|subst d1 d2; lia|].
  replace (d1 + Z.of_nat (Z.to_nat (d2 - d1))) with d2 in Ha
    by (subst d1 d2; lia).
  destruct (despawning_radius_decreases (Z.to_nat d1) 0) as [Hb _];
    [lia|subst d1; lia|].
  replace (0 + Z.of_nat (Z.to_nat d1)) with d1 in Hb by (subst d1; lia).
  destruct (despawning_radius_decreases (Z.to_nat (220 - d2)) d2) as [Hc _];
    [subst d1 d2; lia|subst d2; lia|].
  replace (d2 + Z.of_nat (Z.to_nat (220 - d2))) with 220 in Hc
    by (subst d2; lia).
  repeat split; try assumption; lia.
Qed.

Lemma draw_radius_despawning_witness :
  let z := Zombie.mk 150 160 48 0 1000 Despawning true 1000 in
  draw_radius 1200 z <= draw_radius 1100 z /\ 4 <= draw_radius 1200 z.
Proof.
  assert (H : 1000 <= 1100 /\ 1100 <= 1200 /\ 1200 <= 1000 + 220) by lia.
  destruct H as (Ha & Hb & Hc).
  destruct (draw_radius_despawning 1100 1200
              (Zombie.mk 150 160 48 0 1000 Despawning true 1000)
              eq_refl eq_refl Ha Hb Hc) as (H1 & H2 & _).
  split; [exact H1|exact H2].
Defined.
